(** * dev-events: Event and Booking records and the connection cache

    A shallow embedding of [database/event.model.ts],
    [database/booking.model.ts] and the connection module
    ([connectToDatabase]), with the properties of the written
    specification stated and proved over it.

    A JavaScript string is a sequence of UTF-16 code units.  The
    development covers the strings whose code units lie in 0..255 (the
    Latin-1 range): on these, [trim], [toLowerCase] and the regular
    expression classes [\s] and [\d] are given in full, and a Rocq
    [ascii] is exactly one code unit. *)

From Stdlib Require Import ZArith Bool Ascii String List Lia.
Import ListNotations.

Local Open Scope Z_scope.

(** ** JavaScript strings *)

Definition jsstring := list ascii.

(** A string literal of the source, as a list of code units. *)
Definition js (s : string) : jsstring := list_ascii_of_string s.

Definition code (c : ascii) : Z := Z.of_N (N_of_ascii c).

Definition chr (z : Z) : ascii := ascii_of_N (Z.to_N z).

Definition in_range (lo hi : Z) (c : ascii) : bool :=
  (lo <=? code c) && (code c <=? hi).

(** [\d] *)
Definition is_digit (c : ascii) : bool := in_range 48 57 c.

(** [a-z] *)
Definition is_lower_az (c : ascii) : bool := in_range 97 122 c.

(** [A-Z] *)
Definition is_upper_az (c : ascii) : bool := in_range 65 90 c.

(** [[a-z0-9]] *)
Definition is_az09 (c : ascii) : bool := is_lower_az c || is_digit c.

(** [[^a-z0-9]] *)
Definition non_az09 (c : ascii) : bool := negb (is_az09 c).

(** WhiteSpace and LineTerminator code units below 256: TAB, LF, VT, FF,
    CR, SP and NBSP.  This is what [trim] strips and what [\s] matches. *)
Definition is_space (c : ascii) : bool :=
  in_range 9 13 c || (code c =? 32) || (code c =? 160).

(** Upper-case code units below 256: A-Z, and U+00C0..U+00DE without the
    multiplication sign U+00D7.  Each has its lower-case form 32 above. *)
Definition is_upper (c : ascii) : bool :=
  is_upper_az c || (in_range 192 222 c && negb (code c =? 215)).

Definition lower_char (c : ascii) : ascii :=
  if is_upper c then chr (code c + 32) else c.

(** [String.prototype.toLowerCase] on code units 0..255, where it maps
    each code unit to one code unit.  It does not outside this range:
    the Kelvin sign U+212A becomes k, and U+0130 becomes two code units.
    Strings with such code units are outside what is stated here. *)
Definition toLowerCase (s : jsstring) : jsstring := map lower_char s.

Fixpoint dropWhile (p : ascii -> bool) (s : jsstring) : jsstring :=
  match s with
  | [] => []
  | c :: r => if p c then dropWhile p r else s
  end.

Definition dropWhileEnd (p : ascii -> bool) (s : jsstring) : jsstring :=
  rev (dropWhile p (rev s)).

(** [String.prototype.trim] *)
Definition trim (s : jsstring) : jsstring :=
  dropWhileEnd is_space (dropWhile is_space s).

(** [String.prototype.padStart(n, c)] with a one-character filler. *)
Definition padStart (n : nat) (c : ascii) (s : jsstring) : jsstring :=
  repeat c (n - length s) ++ s.

Definition digit_char (d : Z) : ascii := chr (48 + d).

(** Decimal digits of a non-negative integer, most significant first. *)
Fixpoint dec_digits (fuel : nat) (n : Z) : jsstring :=
  match fuel with
  | O => []
  | S f =>
      if n <? 10 then [digit_char n]
      else dec_digits f (n / 10) ++ [digit_char (n mod 10)]
  end.

(** [Number.prototype.toString] on an integer. *)
Definition Number_toString (n : Z) : jsstring :=
  if n <? 0 then "-"%char :: dec_digits (S (Z.to_nat (Z.log2 (- n)))) (- n)
  else dec_digits (S (Z.to_nat (Z.log2 n))) n.

(** [parseInt(s, 10)] on a string that starts with decimal digits: the
    value of the longest prefix of digits.  The source applies it to the
    digit groups of a match only, so the NaN result (no digit at all) and
    the sign and leading white space parseInt would accept do not arise. *)
Fixpoint parse_digits (acc : Z) (s : jsstring) : Z :=
  match s with
  | c :: r => if is_digit c then parse_digits (10 * acc + (code c - 48)) r else acc
  | [] => acc
  end.

Definition parseInt10 (s : jsstring) : Z := parse_digits 0 s.

(** [===] on strings. *)
Fixpoint jsstring_eqb (a b : jsstring) : bool :=
  match a, b with
  | [], [] => true
  | x :: a', y :: b' => Ascii.eqb x y && jsstring_eqb a' b'
  | _, _ => false
  end.

(** ** Regular expressions

    Each regular expression of the source is written with the matcher
    combinators below.  A matcher takes the rest of the input and a
    continuation for what follows it in the pattern; quantifiers are
    greedy and fall back to shorter matches when the continuation fails,
    as the backtracking matcher of ECMAScript does. *)

Definition orelse {A} (a b : option A) : option A :=
  match a with Some _ => a | None => b end.

(** [$] without the multiline flag. *)
Definition at_end {A} (r : A) (s : jsstring) : option A :=
  match s with [] => Some r | _ => None end.

(** One code unit of a class. *)
Definition one {A} (p : ascii -> bool) (k : ascii -> jsstring -> option A)
    (s : jsstring) : option A :=
  match s with
  | c :: r => if p c then k c r else None
  | [] => None
  end.

(** [X*] for a class [X], greedy. *)
Fixpoint star {A} (p : ascii -> bool) (k : jsstring -> option A)
    (s : jsstring) : option A :=
  match s with
  | c :: r => if p c then orelse (star p k r) (k s) else k s
  | [] => k s
  end.

(** [X+] for a class [X], greedy. *)
Definition plus {A} (p : ascii -> bool) (k : jsstring -> option A)
    (s : jsstring) : option A :=
  one p (fun _ => star p k) s.

(** [(?: ... )?] and [( ... )?]: the group if it matches, else nothing. *)
Definition opt {A B} (g : (B -> jsstring -> option A) -> jsstring -> option A)
    (k : option B -> jsstring -> option A) (s : jsstring) : option A :=
  orelse (g (fun b => k (Some b)) s) (k None s).

(** A letter a-z of a pattern under the [i] flag: the code unit itself or
    its upper-case form. *)
Definition ci (letter : ascii) (c : ascii) : bool :=
  Ascii.eqb c letter || (is_upper_az c && (code c + 32 =? code letter)).

Definition is_char (x : ascii) (c : ascii) : bool := Ascii.eqb c x.

(** [String.prototype.replace] with a global pattern.  [m first s] runs
    the pattern at the current position ([first] tells whether that is
    index 0, for [^]) and gives what is left of the input after the
    match.  The scan goes on after each match; after an empty match it
    copies one code unit.  [skip] counts the code units of the last match
    still to pass over. *)
Fixpoint replace_all (m : bool -> jsstring -> option jsstring)
    (rep : jsstring) (first : bool) (skip : nat) (s : jsstring) : jsstring :=
  match skip, s with
  | S k, _ :: r => replace_all m rep false k r
  | S _, [] => []
  | O, _ =>
      match m first s with
      | Some rest =>
          match (length s - length rest)%nat, s with
          | S k, _ :: r => rep ++ replace_all m rep false k r
          | O, c :: r => rep ++ c :: replace_all m rep false 0 r
          | _, [] => rep
          end
      | None =>
          match s with
          | [] => []
          | c :: r => c :: replace_all m rep false 0 r
          end
      end
  end.

(** ** database/event.model.ts *)

Definition is_dash (c : ascii) : bool := is_char "-" c.

(** [/[^a-z0-9]+/g] *)
Definition nonAlnumRuns (first : bool) (s : jsstring) : option jsstring :=
  plus non_az09 (fun r => Some r) s.

(** [/^-+|-+$/g] *)
Definition edgeDashes (first : bool) (s : jsstring) : option jsstring :=
  orelse (if first then plus is_dash (fun r => Some r) s else None)
         (plus is_dash (fun r => at_end r r) s).

(** [slugify], lines 30-37: [toString] is the identity on a string. *)
Definition slugify (value : jsstring) : jsstring :=
  replace_all edgeDashes [] true 0
    (replace_all nonAlnumRuns (js "-") true 0
       (toLowerCase (trim value))).

(** The groups of a match of [timeRegex]: [match[1]], [match[2]],
    [match[3]]; [None] is [undefined]. *)
Definition TimeMatch : Type := jsstring * option jsstring * option jsstring.

(** [(\d{1,2})] *)
Definition hourGroup {A} (k : jsstring -> jsstring -> option A)
    (s : jsstring) : option A :=
  one is_digit (fun d1 r =>
    orelse (one is_digit (fun d2 => k [d1; d2]) r) (k [d1] r)) s.

(** [:(\d{2})] *)
Definition minuteGroup {A} (k : jsstring -> jsstring -> option A)
    (s : jsstring) : option A :=
  one (is_char ":") (fun _ =>
    one is_digit (fun m1 =>
      one is_digit (fun m2 => k [m1; m2]))) s.

(** [(am|pm)] under the [i] flag. *)
Definition periodGroup {A} (k : jsstring -> jsstring -> option A)
    (s : jsstring) : option A :=
  orelse (one (ci "a") (fun a => one (ci "m") (fun m => k [a; m])) s)
         (one (ci "p") (fun p => one (ci "m") (fun m => k [p; m])) s).

(** [/^(\d{1,2})(?::(\d{2}))?\s*(am|pm)?$/i] *)
Definition timeRegex (s : jsstring) : option TimeMatch :=
  hourGroup (fun g1 =>
    opt minuteGroup (fun g2 =>
      star is_space (
        opt periodGroup (fun g3 =>
          at_end (g1, g2, g3))))) s.

(** Truthiness of a string or [undefined]. *)
Definition truthy (v : option jsstring) : bool :=
  match v with
  | Some (_ :: _) => true
  | _ => false
  end.

Definition strict_eq (v : option jsstring) (lit : string) : bool :=
  match v with
  | Some s => jsstring_eqb s (js lit)
  | None => false
  end.

(** [normalizeTime], lines 40-71; [None] is null. *)
Definition normalizeTime (value : jsstring) : option jsstring :=
  let trimmed := toLowerCase (trim value) in
  match timeRegex trimmed with
  | None => None
  | Some (m1, m2, m3) =>
      let hours := parseInt10 m1 in
      let minutes :=
        if truthy m2 then parseInt10 (match m2 with Some s => s | None => [] end)
        else 0 in
      let period := m3 in
      if (minutes <? 0) || (59 <? minutes) then None
      else
        let render (hours : Z) :=
          let hh := padStart 2 "0" (Number_toString hours) in
          let mm := padStart 2 "0" (Number_toString minutes) in
          Some (hh ++ js ":" ++ mm) in
        if truthy period then
          if (hours <? 1) || (12 <? hours) then None
          else if strict_eq period "pm" && negb (hours =? 12) then
                 render (hours + 12)
          else if strict_eq period "am" && (hours =? 12) then render 0
          else render hours
        else if (hours <? 0) || (23 <? hours) then None
        else render hours
  end.

(** *** Values, errors and the Event document *)

(** The values a path of a document holds once Mongoose has cast it to
    its schema type: a string, an array of strings, or nothing. *)
Inductive jsval : Type :=
  | VUndefined
  | VNull
  | VString (s : jsstring)
  | VArray (items : list jsstring).

(** [new Error(message)] *)
Inductive Error : Type := mkError (message : string).

Definition message (e : Error) : string :=
  match e with mkError m => m end.

(** An Event document: the paths of [EventAttrs], and what Mongoose knows
    of the document's history when the hook is entered ([isNew], the
    modified paths). *)
Record EventDocument : Type := mkEvent {
  title : jsval;
  slug : jsval;
  description : jsval;
  overview : jsval;
  image : jsval;
  venue : jsval;
  location : jsval;
  date : jsval;
  time : jsval;
  mode : jsval;
  audience : jsval;
  agenda : jsval;
  organizer : jsval;
  tags : jsval;
  isNew : bool;
  modifiedPaths : list string
}.

(** [this[field]] *)
Definition get_path (doc : EventDocument) (field : string) : jsval :=
  if String.eqb field "title" then title doc
  else if String.eqb field "slug" then slug doc
  else if String.eqb field "description" then description doc
  else if String.eqb field "overview" then overview doc
  else if String.eqb field "image" then image doc
  else if String.eqb field "venue" then venue doc
  else if String.eqb field "location" then location doc
  else if String.eqb field "date" then date doc
  else if String.eqb field "time" then time doc
  else if String.eqb field "mode" then mode doc
  else if String.eqb field "audience" then audience doc
  else if String.eqb field "agenda" then agenda doc
  else if String.eqb field "organizer" then organizer doc
  else if String.eqb field "tags" then tags doc
  else VUndefined.

(** [this.isModified(path)] for a top-level path. *)
Definition isModified (doc : EventDocument) (path : string) : bool :=
  existsb (String.eqb path) (modifiedPaths doc).

(** [this.slug = v], [this.date = v], [this.time = v]: the value of the
    path.  The hook asks [isModified] of [title], [date] and [time] only,
    and of each before it assigns anything that could change the answer,
    so [modifiedPaths] stays what it was when the hook was entered.  The
    marks Mongoose itself keeps for these assignments are state of the
    library, of which nothing is stated. *)
Definition set_slug (v : jsval) (d : EventDocument) : EventDocument :=
  mkEvent (title d) v (description d) (overview d) (image d) (venue d)
    (location d) (date d) (time d) (mode d) (audience d) (agenda d)
    (organizer d) (tags d) (isNew d) (modifiedPaths d).

Definition set_date (v : jsval) (d : EventDocument) : EventDocument :=
  mkEvent (title d) (slug d) (description d) (overview d) (image d) (venue d)
    (location d) v (time d) (mode d) (audience d) (agenda d)
    (organizer d) (tags d) (isNew d) (modifiedPaths d).

Definition set_time (v : jsval) (d : EventDocument) : EventDocument :=
  mkEvent (title d) (slug d) (description d) (overview d) (image d) (venue d)
    (location d) (date d) v (mode d) (audience d) (agenda d)
    (organizer d) (tags d) (isNew d) (modifiedPaths d).

(** [typeof value !== 'string' || value.trim().length === 0] *)
Definition blank (value : jsval) : bool :=
  match value with
  | VString s => (length (trim s) =? 0)%nat
  | _ => true
  end.

(** [!Array.isArray(value) || value.length === 0] *)
Definition no_items (value : jsval) : bool :=
  match value with
  | VArray items => (length items =? 0)%nat
  | _ => true
  end.

Definition requiredStringFields : list string :=
  ["title"; "description"; "overview"; "image"; "venue"; "location";
   "date"; "time"; "mode"; "audience"; "organizer"]%string.

Definition dquote : string := String "034"%char EmptyString.

Definition fieldError (field : string) : Error :=
  mkError ("Field " ++ dquote ++ field ++ dquote
           ++ " is required and cannot be empty.")%string.

Definition agendaError : Error :=
  mkError "Agenda must contain at least one item.".

Definition tagsError : Error :=
  mkError "Tags must contain at least one item.".

Definition dateError : Error :=
  mkError "Invalid date format. Expected a valid date string.".

Definition timeError : Error :=
  mkError ("Invalid time format. Expected a valid time (e.g., "
           ++ dquote ++ "13:30" ++ dquote ++ " or "
           ++ dquote ++ "1:30 pm" ++ dquote ++ ").")%string.

(** *** Dates

    The time value of a Date is an integer number of milliseconds since
    the epoch.  The day and year arithmetic is that of ECMA-262
    (Day Number and Time within Day, Year Number, Month Number, Date
    Number), which [toISOString] prints. *)

Definition msPerDay : Z := 86400000.

Definition Day (t : Z) : Z := t / msPerDay.

Definition TimeWithinDay (t : Z) : Z := t mod msPerDay.

Definition isLeapYear (y : Z) : bool :=
  ((y mod 4 =? 0) && negb (y mod 100 =? 0)) || (y mod 400 =? 0).

Definition DaysInYear (y : Z) : Z := if isLeapYear y then 366 else 365.

Definition DayFromYear (y : Z) : Z :=
  365 * (y - 1970) + (y - 1969) / 4 - (y - 1901) / 100 + (y - 1601) / 400.

(** The year of a day number: the largest [y] with [DayFromYear y <= d].
    The average year has 146097/400 days, which gives a year that is off
    by one at most. *)
Definition YearFromDay (d : Z) : Z :=
  let y := 1970 + (d * 400) / 146097 in
  if d <? DayFromYear y then y - 1
  else if DayFromYear (y + 1) <=? d then y + 1
  else y.

Definition YearFromTime (t : Z) : Z := YearFromDay (Day t).

Definition InLeapYear (t : Z) : Z :=
  if isLeapYear (YearFromTime t) then 1 else 0.

Definition DayWithinYear (t : Z) : Z := Day t - DayFromYear (YearFromTime t).

(** Month number, 0 for January to 11 for December. *)
Definition MonthFromTime (t : Z) : Z :=
  let d := DayWithinYear t in
  let l := InLeapYear t in
  if d <? 31 then 0
  else if d <? 59 + l then 1
  else if d <? 90 + l then 2
  else if d <? 120 + l then 3
  else if d <? 151 + l then 4
  else if d <? 181 + l then 5
  else if d <? 212 + l then 6
  else if d <? 243 + l then 7
  else if d <? 273 + l then 8
  else if d <? 304 + l then 9
  else if d <? 334 + l then 10
  else 11.

(** Day of the month, from 1. *)
Definition DateFromTime (t : Z) : Z :=
  let d := DayWithinYear t in
  let l := InLeapYear t in
  match MonthFromTime t with
  | 0 => d + 1
  | 1 => d - 30
  | 2 => d - 58 - l
  | 3 => d - 89 - l
  | 4 => d - 119 - l
  | 5 => d - 150 - l
  | 6 => d - 180 - l
  | 7 => d - 211 - l
  | 8 => d - 242 - l
  | 9 => d - 272 - l
  | 10 => d - 303 - l
  | _ => d - 333 - l
  end.

Definition HourFromTime (t : Z) : Z := (t / 3600000) mod 24.
Definition MinFromTime (t : Z) : Z := (t / 60000) mod 60.
Definition SecFromTime (t : Z) : Z := (t / 1000) mod 60.
Definition msFromTime (t : Z) : Z := t mod 1000.

Definition pad (n : nat) (z : Z) : jsstring :=
  padStart n "0" (Number_toString z).

(** The year of an ISO string: four digits from 0 to 9999, else a sign and
    six digits. *)
Definition isoYear (y : Z) : jsstring :=
  if (0 <=? y) && (y <=? 9999) then pad 4 y
  else if y <? 0 then "-"%char :: pad 6 (- y)
  else "+"%char :: pad 6 y.

(** [Date.prototype.toISOString] on a valid time value. *)
Definition toISOString (t : Z) : jsstring :=
  isoYear (YearFromTime t) ++ js "-" ++ pad 2 (MonthFromTime t + 1)
  ++ js "-" ++ pad 2 (DateFromTime t)
  ++ js "T" ++ pad 2 (HourFromTime t) ++ js ":" ++ pad 2 (MinFromTime t)
  ++ js ":" ++ pad 2 (SecFromTime t) ++ js "." ++ pad 3 (msFromTime t)
  ++ js "Z".

(** [String.prototype.split] with a one-character separator. *)
Fixpoint split (sep : ascii) (s : jsstring) : list jsstring :=
  match s with
  | [] => [[]]
  | c :: r =>
      if Ascii.eqb c sep then [] :: split sep r
      else match split sep r with
           | part :: parts => (c :: part) :: parts
           | [] => [[c]]
           end
  end.

(** [array[0]] *)
Definition first_item (parts : list jsstring) : jsval :=
  match parts with
  | part :: _ => VString part
  | [] => VUndefined
  end.

(** *** The pre-save hook of the Event schema

    A statement of the hook runs on the document and either falls through
    or leaves the hook with [return next(error)].  Assignments to [this]
    made before such a return stay on the document. *)

Definition Stmt : Type := EventDocument -> EventDocument * option Error.

Definition fall_through : Stmt := fun doc => (doc, None).

(** [return next(new Error(...))] *)
Definition return_next (e : Error) : Stmt := fun doc => (doc, Some e).

Definition seq (s1 s2 : Stmt) : Stmt :=
  fun doc =>
    match s1 doc with
    | (doc1, None) => s2 doc1
    | (doc1, Some e) => (doc1, Some e)
    end.

Notation "s1 ;; s2" := (seq s1 s2) (at level 61, right associativity).

Definition when (cond : EventDocument -> bool) (body : Stmt) : Stmt :=
  fun doc => if cond doc then body doc else fall_through doc.

(** [for (const field of fields) { if (...) return next(...) }] *)
Fixpoint checkFields (fields : list string) : Stmt :=
  match fields with
  | [] => fall_through
  | field :: rest =>
      when (fun doc => blank (get_path doc field))
           (return_next (fieldError field)) ;;
      checkFields rest
  end.

(** Lines 111-140: the required strings, then [agenda] and [tags]. *)
Definition validation : Stmt :=
  checkFields requiredStringFields ;;
  when (fun doc => no_items (agenda doc)) (return_next agendaError) ;;
  when (fun doc => no_items (tags doc)) (return_next tagsError).

Section EventHook.

(** The time value of [new Date(s)] for a string [s]; [None] when it is
    NaN.  What strings parse beyond the ISO format is left to the
    JavaScript engine. *)
Variable Date_parse : jsstring -> option Z.

(** [this.slug = slugify(this.title)].  The paths read by the three
    assignments hold strings when the hook gets to them: [validation]
    has left the hook otherwise. *)
Definition assignSlug : Stmt :=
  fun doc =>
    match title doc with
    | VString value => (set_slug (VString (slugify value)) doc, None)
    | _ => (doc, None)
    end.

(** Lines 149-153. *)
Definition normalizeDate : Stmt :=
  fun doc =>
    match date doc with
    | VString value =>
        match Date_parse value with
        | None => (doc, Some dateError)
        | Some parsedDate =>
            (set_date (first_item (split "T" (toISOString parsedDate))) doc,
             None)
        end
    | _ => (doc, None)
    end.

(** Lines 158-162: a null or empty result ends the hook. *)
Definition assignTime : Stmt :=
  fun doc =>
    match time doc with
    | VString value =>
        match normalizeTime value with
        | Some ((_ :: _) as normalizedTime) =>
            (set_time (VString normalizedTime) doc, None)
        | _ => (doc, Some timeError)
        end
    | _ => (doc, None)
    end.

(** Lines 142-163. *)
Definition normalization : Stmt :=
  when (fun doc => isNew doc || isModified doc "title") assignSlug ;;
  when (fun doc => isNew doc || isModified doc "date") normalizeDate ;;
  when (fun doc => isNew doc || isModified doc "time") assignTime.

(** [eventSchema.pre('save', ...)], lines 110-166: the document as the
    hook leaves it, and the argument of [next] ([None] for a plain
    [next()]). *)
Definition eventPreSave : Stmt := validation ;; normalization.

End EventHook.

(** Days of the year before the month [m], from 1 to 12, and days of that
    month. *)
Definition daysBeforeMonth (y m : Z) : Z :=
  let l := if isLeapYear y then 1 else 0 in
  match m with
  | 1 => 0 | 2 => 31 | 3 => 59 + l | 4 => 90 + l | 5 => 120 + l
  | 6 => 151 + l | 7 => 181 + l | 8 => 212 + l | 9 => 243 + l
  | 10 => 273 + l | 11 => 304 + l | _ => 334 + l
  end.

Definition daysInMonth (y m : Z) : Z :=
  match m with
  | 2 => if isLeapYear y then 29 else 28
  | 4 | 6 | 9 | 11 => 30
  | _ => 31
  end.

(** The date-only form [YYYY-MM-DD] of the ECMAScript date-time format,
    which every engine reads as midnight UTC of that day: an instance of
    [Date_parse] that reads this form and nothing else. *)
Definition parseDateOnly (s : jsstring) : option Z :=
  match s with
  | [y1; y2; y3; y4; d1; m1; m2; d2; a1; a2] =>
      if forallb is_digit [y1; y2; y3; y4; m1; m2; a1; a2]
         && is_dash d1 && is_dash d2
      then
        let y := parseInt10 [y1; y2; y3; y4] in
        let m := parseInt10 [m1; m2] in
        let d := parseInt10 [a1; a2] in
        if (1 <=? m) && (m <=? 12) && (1 <=? d) && (d <=? daysInMonth y m)
        then Some (msPerDay * (DayFromYear y + daysBeforeMonth y m + d - 1))
        else None
      else None
  | _ => None
  end.



(** ** database/booking.model.ts *)

Definition ObjectId : Type := N.

Record BookingDocument : Type := mkBooking {
  eventId : option ObjectId;
  email : option jsstring
}.

(** [[^\s@]] *)
Definition emailChar (c : ascii) : bool :=
  negb (is_space c || is_char "@" c).

(** [/^[^\s@]+@[^\s@]+\.[^\s@]+$/] *)
Definition emailRegex (s : jsstring) : option unit :=
  plus emailChar (
    one (is_char "@") (fun _ =>
      plus emailChar (
        one (is_char ".") (fun _ =>
          plus emailChar (
            at_end tt))))) s.

(** [emailRegex.test(s)] *)
Definition emailRegex_test (s : jsstring) : bool :=
  match emailRegex s with Some _ => true | None => false end.

(** The setters of the [email] path, from its schema options
    [trim: true, lowercase: true].  Mongoose runs the setters of a path
    from the last declared to the first. *)
Definition castEmail (raw : jsstring) : jsstring := trim (toLowerCase raw).

(** [new Booking(attrs)] *)
Definition newBooking (id : option ObjectId) (rawEmail : option jsstring)
    : BookingDocument :=
  mkBooking id (option_map castEmail rawEmail).

(** How [await Event.exists({ _id })] ends: it resolves to the matching
    document's id or to null, or it rejects. *)
Inductive QueryOutcome : Type :=
  | Resolves (found : option ObjectId)
  | Rejects (reason : string).

(** The argument of [next]: nothing, an error made by the hook, or the
    caught rejection. *)
Inductive NextArg : Type :=
  | NextPlain
  | NextError (e : Error)
  | NextCaught (reason : string).

Definition emailError : Error := mkError "A valid email address is required.".
Definition eventIdError : Error := mkError "eventId is required.".
Definition referenceError : Error := mkError "Referenced event does not exist.".

Section BookingHook.

(** [Event.exists({ _id: id })] at the time of the save. *)
Variable Event_exists : ObjectId -> QueryOutcome.

(** [bookingSchema.pre('save', ...)], lines 45-67. *)
Definition bookingPreSave (doc : BookingDocument) : NextArg :=
  if negb (truthy (email doc))
     || negb (emailRegex_test (match email doc with Some s => s | None => [] end))
  then NextError emailError
  else
    match eventId doc with
    | None => NextError eventIdError
    | Some id =>
        match Event_exists id with
        | Resolves None => NextError referenceError
        | Resolves (Some _) => NextPlain
        | Rejects reason => NextCaught reason
        end
    end.

End BookingHook.

(** [Event.exists] against a collection, given by the ids of its
    documents, when the query itself does not fail. *)
Definition existsIn (events : list ObjectId) (id : ObjectId) : QueryOutcome :=
  Resolves (find (N.eqb id) events).

(** ** The connection cache

    [connectToDatabase] is an async function over the shared [cached]
    object.  A call runs up to its [await] in one turn; its continuation
    runs in a later turn, once the awaited promise is settled.  The model
    is a transition system whose events are these turns and the settling
    of a connection attempt by the driver. *)

Definition Handle : Type := nat.
Definition PromiseId : Type := nat.

Inductive PromiseState : Type :=
  | Pending
  | Fulfilled (h : Handle)
  | Rejected (reason : string).

Record MongooseCache : Type := mkCache {
  conn : option Handle;
  promise : option PromiseId
}.

(** What a call of [connectToDatabase] has come to. *)
Inductive CallState : Type :=
  | Awaiting (p : PromiseId)
  | Returned (h : Handle)
  | Threw (reason : string).

Record World : Type := mkWorld {
  cached : MongooseCache;
  promises : list PromiseState;
  calls : list CallState;
  connectCalls : nat
}.

(** The module once loaded with [MONGODB_URI] set and no cache on
    [globalThis] yet: [{ conn: null, promise: null }], nothing called. *)
Definition initial : World := mkWorld (mkCache None None) [] [] 0.

Inductive Turn : Type :=
  | Call
  | Settle (p : PromiseId) (outcome : PromiseState)
  | Resume (c : nat).

Fixpoint update {A} (l : list A) (i : nat) (x : A) : list A :=
  match l, i with
  | [], _ => []
  | _ :: r, O => x :: r
  | y :: r, S j => y :: update r j x
  end.

(** [cached.promise = mongoose.connect(MONGODB_URI, options).then(m => m)]:
    one more call of [mongoose.connect].  The callback of [then] is the
    identity, so the cached promise settles as the driver's does. *)
Definition startAttempt (w : World) : World :=
  mkWorld (mkCache (conn (cached w)) (Some (length (promises w))))
          (promises w ++ [Pending]) (calls w) (S (connectCalls w)).

(** A call of [connectToDatabase], lines 55-80, up to its return or its
    [await]. *)
Definition call (w : World) : option World :=
  match conn (cached w) with
  | Some h =>
      Some (mkWorld (cached w) (promises w) (calls w ++ [Returned h])
                    (connectCalls w))
  | None =>
      let w1 := match promise (cached w) with
                | None => startAttempt w
                | Some _ => w
                end in
      match promise (cached w1) with
      | Some p =>
          Some (mkWorld (cached w1) (promises w1) (calls w1 ++ [Awaiting p])
                        (connectCalls w1))
      | None => None
      end
  end.

(** The driver settles a pending attempt. *)
Definition settle (w : World) (p : PromiseId) (outcome : PromiseState)
    : option World :=
  match nth_error (promises w) p, outcome with
  | Some Pending, Fulfilled _ | Some Pending, Rejected _ =>
      Some (mkWorld (cached w) (update (promises w) p outcome) (calls w)
                    (connectCalls w))
  | _, _ => None
  end.

(** [cached.conn = await cached.promise; return cached.conn;] once the
    promise is settled; a rejection is thrown out of the call. *)
Definition resume (w : World) (c : nat) : option World :=
  match nth_error (calls w) c with
  | Some (Awaiting p) =>
      match nth_error (promises w) p with
      | Some (Fulfilled h) =>
          Some (mkWorld (mkCache (Some h) (promise (cached w))) (promises w)
                        (update (calls w) c (Returned h)) (connectCalls w))
      | Some (Rejected reason) =>
          Some (mkWorld (cached w) (promises w)
                        (update (calls w) c (Threw reason)) (connectCalls w))
      | _ => None
      end
  | _ => None
  end.

Definition step (w : World) (t : Turn) : option World :=
  match t with
  | Call => call w
  | Settle p outcome => settle w p outcome
  | Resume c => resume w c
  end.

Fixpoint run (w : World) (ts : list Turn) : option World :=
  match ts with
  | [] => Some w
  | t :: rest =>
      match step w t with
      | Some w1 => run w1 rest
      | None => None
      end
  end.

(** The type [Connection] of Mongoose, and the [connection] property of a
    Mongoose instance: its default connection. *)
Section MongooseConnection.

Variable Connection : Type.
Variable connection : Handle -> Connection.

(** [getMongooseConnection], lines 87-90; [None] is null. *)
Definition getMongooseConnection (w : World) : option Connection :=
  match conn (cached w) with
  | None => None
  | Some mongooseInstance => Some (connection mongooseInstance)
  end.

End MongooseConnection.

(** ** The specification's wording

    Definitions that follow the sentences of the specification, to be
    compared with the functions of the source above. *)

(** The string is empty or starts outside the class. *)
Definition headNot (p : ascii -> bool) (s : jsstring) : Prop :=
  match s with
  | c :: _ => p c = false
  | [] => True
  end.

Definition allSpace (s : jsstring) : Prop := forallb is_space s = true.

Definition allDigits (s : jsstring) : Prop := forallb is_digit s = true.

(** *** Slugs *)

(** "Replace maximal runs of non-[a-z0-9] characters with a single dash":
    a run is not empty, and it is maximal when what follows it starts
    with a code unit of [a-z0-9] or is empty. *)
Inductive RunsCollapsed : jsstring -> jsstring -> Prop :=
  | collapsed_nil : RunsCollapsed [] []
  | collapsed_keep (c : ascii) (s t : jsstring) :
      is_az09 c = true -> RunsCollapsed s t ->
      RunsCollapsed (c :: s) (c :: t)
  | collapsed_run (run s t : jsstring) :
      run <> [] -> forallb non_az09 run = true -> headNot non_az09 s ->
      RunsCollapsed s t ->
      RunsCollapsed (run ++ s) (js "-" ++ t).

(** The same as a function: of a run, the last code unit leaves the
    dash. *)
Fixpoint collapseRuns (s : jsstring) : jsstring :=
  match s with
  | [] => []
  | c :: r =>
      if is_az09 c then c :: collapseRuns r
      else match r with
           | [] => js "-"
           | c2 :: _ =>
               if is_az09 c2 then js "-" ++ collapseRuns r
               else collapseRuns r
           end
  end.

(** "No leading/trailing dash." *)
Definition noEdgeDash (s : jsstring) : bool :=
  match s with
  | [] => true
  | c :: _ => negb (is_dash c) && negb (is_dash (last s c))
  end.

(** "Strip leading/trailing dashes": what is left of [s] without the
    dashes at its two ends. *)
Definition DashesStripped (s t : jsstring) : Prop :=
  exists pre post,
    s = pre ++ t ++ post
    /\ forallb is_dash pre = true /\ forallb is_dash post = true
    /\ noEdgeDash t = true.

Definition stripDashes (s : jsstring) : jsstring :=
  dropWhileEnd is_dash (dropWhile is_dash s).

(** "Lowercase the title, replace maximal runs of non-[a-z0-9] characters
    with a single dash, strip leading/trailing dashes." *)
Definition slugOfTitle (title : jsstring) : jsstring :=
  stripDashes (collapseRuns (toLowerCase title)).

(** "Only lowercase letters, digits, and single dashes." *)
Definition slugChars (s : jsstring) : bool :=
  forallb (fun c => is_az09 c || is_dash c) s.

Fixpoint singleDashes (s : jsstring) : bool :=
  match s with
  | a :: (b :: _) as r => negb (is_dash a && is_dash b) && singleDashes r
  | _ => true
  end.

(** [[A-Za-z0-9]]: the alphanumeric characters of a title. *)
Definition is_alnum (c : ascii) : bool := is_az09 c || is_upper_az c.

(** *** Times *)

(** "Accept [H], [HH:MM], with optional [am/pm] suffix (case-insensitive,
    optional space before suffix)": white space around the text is not
    part of it; the hour is one or two digits, the minutes two digits
    after a colon. *)
Inductive Period : Type := AM | PM.

Definition periodWord (p : Period) : jsstring :=
  match p with AM => js "am" | PM => js "pm" end.

Definition hourText (text : jsstring) (h : Z) : Prop :=
  (length text = 1 \/ length text = 2)%nat
  /\ allDigits text /\ parseInt10 text = h.

Definition minuteText (text : jsstring) (m : Z) : Prop :=
  (text = [] /\ m = 0)
  \/ exists digits,
       text = js ":" ++ digits /\ length digits = 2%nat
       /\ allDigits digits /\ parseInt10 digits = m.

Definition suffixText (text : jsstring) (p : option Period) : Prop :=
  (text = [] /\ p = None)
  \/ exists gap word period,
       text = gap ++ word /\ allSpace gap
       /\ toLowerCase word = periodWord period /\ p = Some period.

Definition isTimeText (s : jsstring) (h m : Z) (p : option Period) : Prop :=
  exists lead hour minute suffix trail,
    s = lead ++ hour ++ minute ++ suffix ++ trail
    /\ allSpace lead /\ allSpace trail
    /\ hourText hour h /\ minuteText minute m /\ suffixText suffix p.

(** The grammar read to the letter: nothing around the text, and at most
    one space before the suffix. *)
Definition literalSuffix (text : jsstring) (p : option Period) : Prop :=
  (text = [] /\ p = None)
  \/ exists word period,
       (text = word \/ text = js " " ++ word)
       /\ toLowerCase word = periodWord period /\ p = Some period.

Definition literalTimeText (s : jsstring) (h m : Z) (p : option Period)
    : Prop :=
  exists hour minute suffix,
    s = hour ++ minute ++ suffix
    /\ hourText hour h /\ minuteText minute m /\ literalSuffix suffix p.

(** "12am -> 00, 12pm -> 12, pm adds 12 except 12." *)
Definition to24 (h : Z) (p : Period) : Z :=
  match p with
  | AM => if h =? 12 then 0 else h
  | PM => if h =? 12 then 12 else h + 12
  end.

(** "Zero-pad to HH:MM." *)
Definition twoDigits (n : Z) : jsstring :=
  [digit_char (n / 10); digit_char (n mod 10)].

(** "Reject if minutes outside 0-59, or 12-hour hour outside 1-12, or
    24-hour hour outside 0-23; convert 12-hour to 24-hour." *)
Definition timeOf (h m : Z) (p : option Period) : option jsstring :=
  if (m <? 0) || (59 <? m) then None
  else
    match p with
    | Some period =>
        if (h <? 1) || (12 <? h) then None
        else Some (twoDigits (to24 h period) ++ js ":" ++ twoDigits m)
    | None =>
        if (h <? 0) || (23 <? h) then None
        else Some (twoDigits h ++ js ":" ++ twoDigits m)
    end.

(** *** Dates *)

(** "The UTC calendar-date portion" of a time value: the year, the month
    and the day of its day number, as the ISO string has them. *)
Definition utcDate (t : Z) : jsstring :=
  isoYear (YearFromTime t) ++ js "-" ++ pad 2 (MonthFromTime t + 1)
  ++ js "-" ++ pad 2 (DateFromTime t).

(** "YYYY-MM-DD": four digits of year, two of month, two of day. *)
Definition fourDigits (n : Z) : jsstring :=
  [digit_char (n / 1000); digit_char (n / 100 mod 10);
   digit_char (n / 10 mod 10); digit_char (n mod 10)].

Definition civilDate (y m d : Z) : jsstring :=
  fourDigits y ++ js "-" ++ twoDigits m ++ js "-" ++ twoDigits d.

(** *** Validation of an Event *)

(** "All listed string fields must be non-empty after trimming." *)
Definition allFilled (doc : EventDocument) : Prop :=
  forall field, In field requiredStringFields ->
                blank (get_path doc field) = false.

(** "Fails with a validation error naming the field": the first of the
    listed fields that is not a string or is empty after trimming. *)
Definition firstBlank (doc : EventDocument) : option string :=
  find (fun field => blank (get_path doc field)) requiredStringFields.

(** *** Emails *)

(** "A basic [local@domain.tld]-shaped pattern (non-empty local part,
    non-empty domain, a dot, non-empty top-level part, no whitespace or
    extra @)." *)
Definition EmailShape (s : jsstring) : Prop :=
  exists localPart domain tld,
    s = localPart ++ js "@" ++ domain ++ js "." ++ tld
    /\ localPart <> [] /\ domain <> [] /\ tld <> []
    /\ forallb emailChar localPart = true
    /\ forallb emailChar domain = true
    /\ forallb emailChar tld = true.

(** ** Notions of the proofs *)

(** The text of the optional groups of [timeRegex] in the input. *)
Definition colonText (g : option jsstring) : jsstring :=
  match g with Some digits => js ":" ++ digits | None => [] end.

Definition wordText (g : option jsstring) : jsstring :=
  match g with Some word => word | None => [] end.

(** A code unit of the date part of an ISO string. *)
Definition dateChar (c : ascii) : bool :=
  is_digit c || is_char "-" c || is_char "+" c.

(** A new Event as a caller would build it, with the given title, date
    and time; the slug is not set yet. *)
Definition sampleEvent (titleText dateText timeText : string)
    : EventDocument :=
  mkEvent (VString (js titleText)) VUndefined
    (VString (js "A day of talks")) (VString (js "Talks and workshops"))
    (VString (js "/images/event.png")) (VString (js "Main hall"))
    (VString (js "Lisbon")) (VString (js dateText)) (VString (js timeText))
    (VString (js "offline")) (VString (js "Developers"))
    (VArray [js "Opening"; js "Talks"]) (VString (js "The organizers"))
    (VArray [js "web"]) true [].

(** The same Event once stored and loaded again, with nothing modified. *)
Definition storedEvent (d : EventDocument) : EventDocument :=
  mkEvent (title d) (slug d) (description d) (overview d) (image d) (venue d)
    (location d) (date d) (time d) (mode d) (audience d) (agenda d)
    (organizer d) (tags d) false [].

(** What holds of the cache in every state the calls can reach: every
    promise comes from one call of [mongoose.connect]; the cache holds
    the first promise or none at all; a call that waits, waits for the
    cached promise; a cached handle is what that promise was fulfilled
    with. *)
Definition consistent (w : World) : Prop :=
  connectCalls w = length (promises w)
  /\ match promise (cached w) with
     | None => promises w = [] /\ calls w = [] /\ conn (cached w) = None
     | Some p => p = 0%nat /\ length (promises w) = 1%nat
     end
  /\ (forall c p, nth_error (calls w) c = Some (Awaiting p) ->
                  promise (cached w) = Some p)
  /\ (forall h, conn (cached w) = Some h ->
                nth_error (promises w) 0 = Some (Fulfilled h)).

Definition isCall (t : Turn) : bool :=
  match t with Call => true | _ => false end.

(** What holds of the calls in every state they can reach: the calls that
    have returned are those the cache holds the handle of, and a call
    that has thrown, threw the reason the attempt was rejected with. *)
Definition settledCalls (w : World) : Prop :=
  (forall h, In (Returned h) (calls w) <-> conn (cached w) = Some h)
  /\ (forall reason, In (Threw reason) (calls w) ->
                     nth_error (promises w) 0 = Some (Rejected reason)).

(** * Properties *)

(** ** Code units *)

Ltac each_char c :=
  destruct c as [[] [] [] [] [] [] [] []]; vm_compute; try reflexivity;
  try discriminate; auto.

Lemma space_not_az09 (c : ascii) : is_space c = true -> is_az09 c = false.
Proof. each_char c. Qed.

Lemma lower_keeps_space (c : ascii) : is_space (lower_char c) = is_space c.
Proof. each_char c. Qed.

Lemma az09_not_dash (c : ascii) : is_az09 c = true -> is_dash c = false.
Proof. each_char c. Qed.

(** ** Prefixes and suffixes *)

Section DropWhile.

Variable p : ascii -> bool.

Lemma dropWhile_length (s : jsstring) :
  (length (dropWhile p s) <= length s)%nat.
Proof.
  induction s as [|c r IH]; simpl; [lia|].
  destruct (p c); simpl; lia.
Qed.

Lemma dropWhile_skipn (s : jsstring) :
  skipn (length s - length (dropWhile p s)) s = dropWhile p s.
Proof.
  induction s as [|c r IH]; [reflexivity|].
  cbn [dropWhile]. destruct (p c) eqn:E.
  - pose proof (dropWhile_length r).
    replace (length (c :: r) - length (dropWhile p r))%nat
      with (S (length r - length (dropWhile p r))) by (cbn [length]; lia).
    exact IH.
  - now rewrite Nat.sub_diag.
Qed.

Lemma dropWhile_head (s : jsstring) (c : ascii) (r : jsstring) :
  dropWhile p s = c :: r -> p c = false.
Proof.
  induction s as [|a s IH]; simpl; [discriminate|].
  destruct (p a) eqn:E; [exact IH|].
  intros H; injection H as -> _. exact E.
Qed.

Lemma dropWhile_all (s : jsstring) :
  forallb p s = true -> dropWhile p s = [].
Proof.
  induction s as [|a s IH]; simpl; [reflexivity|].
  destruct (p a); simpl; [exact IH|discriminate].
Qed.

(** A suffix of the input. *)
Lemma dropWhile_suffix (s : jsstring) :
  exists pre, s = pre ++ dropWhile p s /\ forallb p pre = true.
Proof.
  induction s as [|a s [pre [IH1 IH2]]]; simpl.
  - now exists [].
  - destruct (p a) eqn:E.
    + exists (a :: pre). simpl. rewrite E, IH2. split; [now f_equal|reflexivity].
    + now exists [].
Qed.

Lemma dropWhileEnd_snoc (s : jsstring) (c : ascii) :
  dropWhileEnd p (s ++ [c]) = if p c then dropWhileEnd p s else s ++ [c].
Proof.
  unfold dropWhileEnd. rewrite rev_app_distr. simpl.
  destruct (p c); [reflexivity|].
  simpl. now rewrite rev_involutive.
Qed.

Lemma dropWhile_app_keep (s t : jsstring) :
  dropWhile p s <> [] -> dropWhile p (s ++ t) = dropWhile p s ++ t.
Proof.
  induction s as [|a s IH]; simpl; [congruence|].
  destruct (p a); [exact IH|reflexivity].
Qed.

Lemma dropWhile_app_all (s t : jsstring) :
  dropWhile p s = [] -> dropWhile p (s ++ t) = dropWhile p t.
Proof.
  induction s as [|a s IH]; simpl; [reflexivity|].
  destruct (p a); [exact IH|discriminate].
Qed.

(** [dropWhileEnd] from the front of the list. *)
Lemma dropWhileEnd_cons (a : ascii) (s : jsstring) :
  dropWhileEnd p (a :: s) =
  match dropWhileEnd p s with
  | [] => if p a then [] else [a]
  | kept => a :: kept
  end.
Proof.
  unfold dropWhileEnd. simpl.
  destruct (dropWhile p (rev s)) as [|b t] eqn:E.
  - rewrite (dropWhile_app_all _ _ E). simpl. now destruct (p a).
  - rewrite dropWhile_app_keep by (rewrite E; discriminate).
    rewrite E, rev_app_distr. simpl.
    destruct (rev t ++ [b]) eqn:E2; [|reflexivity].
    now destruct (rev t).
Qed.

Lemma dropWhileEnd_prefix (s : jsstring) :
  exists post, s = dropWhileEnd p s ++ post /\ forallb p post = true.
Proof.
  unfold dropWhileEnd.
  destruct (dropWhile_suffix (rev s)) as [pre [H1 H2]].
  exists (rev pre). split.
  - rewrite <- rev_app_distr, <- H1. now rewrite rev_involutive.
  - rewrite forallb_forall in *. intros x Hx. apply H2.
    now apply in_rev in Hx.
Qed.

Lemma dropWhileEnd_last (s t : jsstring) (c : ascii) :
  dropWhileEnd p s = t ++ [c] -> p c = false.
Proof.
  unfold dropWhileEnd. intros H.
  apply (f_equal (@rev ascii)) in H.
  rewrite rev_involutive, rev_app_distr in H. simpl in H.
  exact (dropWhile_head _ _ _ H).
Qed.

Lemma dropWhile_dropWhileEnd (s : jsstring) :
  dropWhileEnd p (dropWhile p s) = dropWhile p (dropWhileEnd p s).
Proof.
  induction s as [|a s IH]; [reflexivity|].
  rewrite (dropWhileEnd_cons a s). simpl.
  destruct (p a) eqn:E.
  - rewrite IH. destruct (dropWhileEnd p s); simpl; [reflexivity|].
    now rewrite E.
  - rewrite (dropWhileEnd_cons a s).
    destruct (dropWhileEnd p s); simpl; now rewrite E.
Qed.

End DropWhile.

Lemma dropWhile_headNot (p : ascii -> bool) (s : jsstring) :
  headNot p s -> dropWhile p s = s.
Proof. destruct s as [|c r]; simpl; [reflexivity|]. now intros ->. Qed.

(** ** The matchers in closed form *)

Lemma star_rest (p : ascii -> bool) (s : jsstring) :
  star p (fun r => Some r) s = Some (dropWhile p s).
Proof.
  induction s as [|c r IH]; simpl; [reflexivity|].
  destruct (p c); [now rewrite IH|reflexivity].
Qed.

Lemma plus_rest (p : ascii -> bool) (s : jsstring) :
  plus p (fun r => Some r) s =
  match s with
  | c :: r => if p c then Some (dropWhile p r) else None
  | [] => None
  end.
Proof.
  destruct s as [|c r]; simpl; [reflexivity|].
  destruct (p c); [apply star_rest|reflexivity].
Qed.

Lemma star_to_end (p : ascii -> bool) (s : jsstring) :
  star p (fun r => at_end r r) s = if forallb p s then Some [] else None.
Proof.
  induction s as [|c r IH]; simpl; [reflexivity|].
  destruct (p c); simpl; [|reflexivity].
  rewrite IH. now destruct (forallb p r).
Qed.

Section ReplaceAll.

Variable m : bool -> jsstring -> option jsstring.
Variable rep : jsstring.

Lemma replace_all_skip (k : nat) (s : jsstring) :
  (k <= length s)%nat ->
  replace_all m rep false k s = replace_all m rep false 0 (skipn k s).
Proof.
  revert s. induction k as [|k IH]; intros s Hk; [reflexivity|].
  destruct s as [|c r]; simpl in Hk; [lia|].
  simpl. apply IH. lia.
Qed.

(** A match that is not empty: the scan goes on where it ends. *)
Lemma replace_all_match (first : bool) (c : ascii) (r rest : jsstring)
    (p : ascii -> bool) :
  m first (c :: r) = Some (dropWhile p r) ->
  replace_all m rep first 0 (c :: r) =
  rep ++ replace_all m rep false 0 (dropWhile p r).
Proof.
  intros H. cbn [replace_all]. rewrite H.
  pose proof (dropWhile_length p r).
  replace (length (c :: r) - length (dropWhile p r))%nat
    with (S (length r - length (dropWhile p r))) by (cbn [length]; lia).
  rewrite replace_all_skip by lia.
  now rewrite dropWhile_skipn.
Qed.

Lemma replace_all_no_match (first : bool) (c : ascii) (r : jsstring) :
  m first (c :: r) = None ->
  replace_all m rep first 0 (c :: r) = c :: replace_all m rep false 0 r.
Proof. intros H. cbn [replace_all]. now rewrite H. Qed.

End ReplaceAll.

Lemma collapseRuns_run (c : ascii) (r : jsstring) :
  is_az09 c = false ->
  collapseRuns (c :: r) = js "-" ++ collapseRuns (dropWhile non_az09 r).
Proof.
  revert c. induction r as [|c2 r IH]; intros c Hc.
  - simpl. now rewrite Hc.
  - specialize (IH c2).
    change (collapseRuns (c :: c2 :: r))
      with (if is_az09 c then c :: collapseRuns (c2 :: r)
            else if is_az09 c2 then js "-" ++ collapseRuns (c2 :: r)
                 else collapseRuns (c2 :: r)).
    rewrite Hc. cbn [dropWhile]. unfold non_az09 at 1.
    destruct (is_az09 c2) eqn:E2; cbn [negb]; [reflexivity|].
    now apply IH.
Qed.

Lemma replace_runs_collapse (n : nat) :
  forall (s : jsstring) (first : bool), (length s <= n)%nat ->
  replace_all nonAlnumRuns (js "-") first 0 s = collapseRuns s.
Proof.
  induction n as [|n IH]; intros s first Hn.
  - destruct s; [reflexivity|simpl in Hn; lia].
  - destruct s as [|c r]; [reflexivity|]. simpl in Hn.
    destruct (is_az09 c) eqn:E.
    + rewrite replace_all_no_match.
      * cbn [collapseRuns]. rewrite E. f_equal. apply IH. lia.
      * unfold nonAlnumRuns. rewrite plus_rest. unfold non_az09. now rewrite E.
    + rewrite (replace_all_match _ _ _ _ _ [] non_az09).
      * rewrite collapseRuns_run by exact E. f_equal. apply IH.
        pose proof (dropWhile_length non_az09 r). lia.
      * unfold nonAlnumRuns. rewrite plus_rest. unfold non_az09 at 1.
        now rewrite E.
Qed.

Lemma replace_edges_tail (s : jsstring) :
  replace_all edgeDashes [] false 0 s = dropWhileEnd is_dash s.
Proof.
  induction s as [|c r IH]; [reflexivity|].
  rewrite dropWhileEnd_cons, <- IH.
  assert (Hm : edgeDashes false (c :: r) =
               if is_dash c && forallb is_dash r then Some [] else None).
  { unfold edgeDashes, plus, one. cbn [orelse].
    destruct (is_dash c); [|reflexivity]. apply star_to_end. }
  destruct (is_dash c && forallb is_dash r) eqn:E.
  - apply andb_prop in E as [E1 E2].
    cbn [replace_all]. rewrite Hm. cbn [length Nat.sub app].
    rewrite replace_all_skip by lia. rewrite skipn_all.
    rewrite IH. unfold dropWhileEnd.
    rewrite dropWhile_all; [now rewrite E1|].
    rewrite forallb_forall in *. intros x Hx. apply E2. now apply in_rev.
  - rewrite replace_all_no_match by exact Hm.
    rewrite IH.
    destruct (dropWhileEnd is_dash r) eqn:E3; [|reflexivity].
    destruct (is_dash c) eqn:E1; [|reflexivity].
    simpl in E. destruct (dropWhileEnd_prefix is_dash r) as [post [H1 H2]].
    rewrite E3 in H1. simpl in H1. subst post. congruence.
Qed.

Lemma replace_edges_strip (s : jsstring) :
  replace_all edgeDashes [] true 0 s = stripDashes s.
Proof.
  unfold stripDashes. destruct s as [|c r]; [reflexivity|].
  cbn [dropWhile]. destruct (is_dash c) eqn:E.
  - rewrite (replace_all_match _ _ _ _ _ [] is_dash).
    + apply replace_edges_tail.
    + unfold edgeDashes. rewrite plus_rest, E. reflexivity.
  - rewrite replace_all_no_match.
    + rewrite replace_edges_tail, dropWhileEnd_cons, E.
      now destruct (dropWhileEnd is_dash r).
    + unfold edgeDashes. rewrite plus_rest, E. cbn [orelse].
      unfold plus, one. now rewrite E.
Qed.

Lemma slugify_closed (value : jsstring) :
  slugify value = stripDashes (collapseRuns (toLowerCase (trim value))).
Proof.
  unfold slugify.
  rewrite (replace_runs_collapse _ _ true (le_n _)).
  apply replace_edges_strip.
Qed.

(** ** Slugs *)

Lemma map_dropWhile (p : ascii -> bool) (f : ascii -> ascii) (s : jsstring) :
  (forall c, p (f c) = p c) ->
  dropWhile p (map f s) = map f (dropWhile p s).
Proof.
  intros Hp. induction s as [|c r IH]; simpl; [reflexivity|].
  rewrite Hp. now destruct (p c).
Qed.

Lemma toLowerCase_trim (s : jsstring) :
  toLowerCase (trim s) = trim (toLowerCase s).
Proof.
  unfold trim, dropWhileEnd, toLowerCase.
  rewrite map_rev, <- (map_dropWhile is_space), map_rev
    by apply lower_keeps_space.
  now rewrite (map_dropWhile is_space) by apply lower_keeps_space.
Qed.

Lemma js_dash_app (s : jsstring) : js "-" ++ s = "-"%char :: s.
Proof. reflexivity. Qed.

Lemma collapseRuns_lead (c : ascii) (r : jsstring) :
  is_az09 c = false ->
  dropWhile is_dash (collapseRuns (c :: r)) = dropWhile is_dash (collapseRuns r).
Proof.
  intros Hc. destruct r as [|c2 r]; [simpl; now rewrite Hc|].
  change (collapseRuns (c :: c2 :: r))
    with (if is_az09 c then c :: collapseRuns (c2 :: r)
          else if is_az09 c2 then js "-" ++ collapseRuns (c2 :: r)
               else collapseRuns (c2 :: r)).
  rewrite Hc. now destruct (is_az09 c2).
Qed.

Lemma collapseRuns_trail (c : ascii) (s : jsstring) :
  is_az09 c = false ->
  dropWhileEnd is_dash (collapseRuns (s ++ [c])) =
  dropWhileEnd is_dash (collapseRuns s).
Proof.
  intros Hc. induction s as [|a s IH].
  - simpl. now rewrite Hc.
  - destruct (is_az09 a) eqn:Ea.
    + simpl. rewrite Ea. now rewrite !dropWhileEnd_cons, IH.
    + destruct s as [|c2 s].
      * simpl. now rewrite Ea, Hc.
      * change (collapseRuns ((a :: c2 :: s) ++ [c]))
          with (if is_az09 a then a :: collapseRuns ((c2 :: s) ++ [c])
                else if is_az09 c2 then js "-" ++ collapseRuns ((c2 :: s) ++ [c])
                     else collapseRuns ((c2 :: s) ++ [c])).
        change (collapseRuns (a :: c2 :: s))
          with (if is_az09 a then a :: collapseRuns (c2 :: s)
                else if is_az09 c2 then js "-" ++ collapseRuns (c2 :: s)
                     else collapseRuns (c2 :: s)).
        rewrite Ea. destruct (is_az09 c2); [|exact IH].
        now rewrite !js_dash_app, !dropWhileEnd_cons, IH.
Qed.

Section TrimIsStripped.

(** A class of code units outside [a-z0-9], such as white space. *)
Variable q : ascii -> bool.
Hypothesis q_outside : forall c, q c = true -> is_az09 c = false.

Lemma collapseRuns_dropWhile (s : jsstring) :
  dropWhile is_dash (collapseRuns (dropWhile q s)) =
  dropWhile is_dash (collapseRuns s).
Proof.
  induction s as [|c r IH]; [reflexivity|].
  cbn [dropWhile]. destruct (q c) eqn:E; [|reflexivity].
  rewrite IH. symmetry. apply collapseRuns_lead. now apply q_outside.
Qed.

Lemma collapseRuns_dropWhileEnd (s : jsstring) :
  dropWhileEnd is_dash (collapseRuns (dropWhileEnd q s)) =
  dropWhileEnd is_dash (collapseRuns s).
Proof.
  induction s as [|c r IH] using rev_ind; [reflexivity|].
  rewrite dropWhileEnd_snoc. destruct (q c) eqn:E; [|reflexivity].
  rewrite IH. symmetry. apply collapseRuns_trail. now apply q_outside.
Qed.

Lemma stripDashes_trimmed (s : jsstring) :
  stripDashes (collapseRuns (dropWhileEnd q (dropWhile q s))) =
  stripDashes (collapseRuns s).
Proof.
  unfold stripDashes.
  rewrite dropWhile_dropWhileEnd, collapseRuns_dropWhileEnd.
  rewrite <- dropWhile_dropWhileEnd. f_equal.
  apply collapseRuns_dropWhile.
Qed.

End TrimIsStripped.

Lemma slugify_slugOfTitle (title : jsstring) : slugify title = slugOfTitle title.
Proof.
  rewrite slugify_closed, toLowerCase_trim. unfold slugOfTitle, trim.
  apply stripDashes_trimmed. exact space_not_az09.
Qed.

Lemma collapseRuns_head (c : ascii) (r : jsstring) :
  is_az09 c = true -> collapseRuns (c :: r) = c :: collapseRuns r.
Proof. intros H. simpl. now rewrite H. Qed.

Lemma collapseRuns_chars (s : jsstring) : slugChars (collapseRuns s) = true.
Proof.
  unfold slugChars. induction s as [|c r IH]; [reflexivity|].
  destruct (is_az09 c) eqn:E.
  - rewrite collapseRuns_head by exact E. simpl. now rewrite E, IH.
  - destruct r as [|c2 r]; [simpl; now rewrite E|].
    change (collapseRuns (c :: c2 :: r))
      with (if is_az09 c then c :: collapseRuns (c2 :: r)
            else if is_az09 c2 then js "-" ++ collapseRuns (c2 :: r)
                 else collapseRuns (c2 :: r)).
    rewrite E. destruct (is_az09 c2); [|exact IH].
    rewrite js_dash_app. cbn [forallb]. now rewrite IH.
Qed.

Lemma singleDashes_cons (a b : ascii) (r : jsstring) :
  singleDashes (a :: b :: r) =
  negb (is_dash a && is_dash b) && singleDashes (b :: r).
Proof. reflexivity. Qed.

Lemma collapseRuns_single (s : jsstring) : singleDashes (collapseRuns s) = true.
Proof.
  induction s as [|c r IH]; [reflexivity|].
  destruct (is_az09 c) eqn:E.
  - rewrite collapseRuns_head by exact E.
    cbn [singleDashes]. rewrite (az09_not_dash _ E).
    destruct (collapseRuns r); [reflexivity|]. now rewrite IH.
  - destruct r as [|c2 r]; [simpl; now rewrite E|].
    change (collapseRuns (c :: c2 :: r))
      with (if is_az09 c then c :: collapseRuns (c2 :: r)
            else if is_az09 c2 then js "-" ++ collapseRuns (c2 :: r)
                 else collapseRuns (c2 :: r)).
    rewrite E. destruct (is_az09 c2) eqn:E2; [|exact IH].
    rewrite collapseRuns_head in * by exact E2.
    rewrite js_dash_app, singleDashes_cons, IH.
    now rewrite (az09_not_dash _ E2), andb_false_r.
Qed.

Lemma singleDashes_tail (a : ascii) (s : jsstring) :
  singleDashes (a :: s) = true -> singleDashes s = true.
Proof.
  destruct s as [|b s]; [reflexivity|]. cbn [singleDashes].
  intros H. now apply andb_prop in H.
Qed.

Lemma singleDashes_suffix (pre s : jsstring) :
  singleDashes (pre ++ s) = true -> singleDashes s = true.
Proof.
  induction pre as [|a pre IH]; [auto|].
  intros H. apply IH. exact (singleDashes_tail _ _ H).
Qed.

Lemma singleDashes_prefix (s post : jsstring) :
  singleDashes (s ++ post) = true -> singleDashes s = true.
Proof.
  induction s as [|a s IH]; [reflexivity|].
  destruct s as [|b s]; [reflexivity|].
  cbn [app singleDashes]. intros H. apply andb_prop in H as [H1 H2].
  rewrite H1. now apply IH.
Qed.

Lemma stripDashes_parts (s : jsstring) :
  exists pre post, s = pre ++ stripDashes s ++ post
                   /\ forallb is_dash pre = true
                   /\ forallb is_dash post = true.
Proof.
  unfold stripDashes.
  destruct (dropWhile_suffix is_dash s) as [pre [H1 Hpre]].
  destruct (dropWhileEnd_prefix is_dash (dropWhile is_dash s))
    as [post [H2 Hpost]].
  exists pre, post. now rewrite <- H2.
Qed.

Lemma stripDashes_noEdgeDash (s : jsstring) : noEdgeDash (stripDashes s) = true.
Proof.
  unfold stripDashes, noEdgeDash.
  destruct (dropWhileEnd is_dash (dropWhile is_dash s)) as [|c z] eqn:E;
    [reflexivity|].
  apply andb_true_intro. split; apply negb_true_iff.
  - destruct (dropWhileEnd_prefix is_dash (dropWhile is_dash s)) as [post [H _]].
    rewrite E in H. exact (dropWhile_head _ _ _ _ H).
  - destruct (exists_last (l := c :: z)) as [t [l Hl]]; [discriminate|].
    rewrite Hl, last_last. rewrite Hl in E.
    exact (dropWhileEnd_last _ _ _ _ E).
Qed.

Lemma slugOfTitle_shape (title : jsstring) :
  slugChars (slugOfTitle title) = true
  /\ singleDashes (slugOfTitle title) = true
  /\ noEdgeDash (slugOfTitle title) = true.
Proof.
  unfold slugOfTitle.
  set (x := collapseRuns (toLowerCase title)).
  destruct (stripDashes_parts x) as [pre [post [H _]]].
  pose proof (collapseRuns_chars (toLowerCase title)) as Hc.
  pose proof (collapseRuns_single (toLowerCase title)) as Hs.
  fold x in Hc, Hs. rewrite H in Hc, Hs.
  repeat split.
  - unfold slugChars in *. rewrite !forallb_app in Hc.
    apply andb_prop in Hc as [_ Hc]. now apply andb_prop in Hc.
  - apply singleDashes_suffix in Hs. now apply singleDashes_prefix in Hs.
  - apply stripDashes_noEdgeDash.
Qed.

Lemma stripDashes_stripped (s : jsstring) : DashesStripped s (stripDashes s).
Proof.
  destruct (stripDashes_parts s) as [pre [post [H [Hpre Hpost]]]].
  exists pre, post. repeat split; auto. apply stripDashes_noEdgeDash.
Qed.

(** [collapseRuns] is the relation of the specification. *)
Lemma collapseRuns_collapsed (n : nat) :
  forall s, (length s <= n)%nat -> RunsCollapsed s (collapseRuns s).
Proof.
  induction n as [|n IH]; intros s Hn.
  - destruct s; [constructor|simpl in Hn; lia].
  - destruct s as [|c r]; [constructor|]. simpl in Hn.
    destruct (is_az09 c) eqn:E.
    + rewrite collapseRuns_head by exact E.
      apply collapsed_keep; [exact E|]. apply IH. lia.
    + rewrite collapseRuns_run by exact E.
      destruct (dropWhile_suffix non_az09 r) as [pre [Hr Hpre]].
      rewrite Hr at 1.
      change (c :: pre ++ dropWhile non_az09 r)
        with ((c :: pre) ++ dropWhile non_az09 r).
      apply collapsed_run.
      * discriminate.
      * simpl. unfold non_az09 at 1. now rewrite E, Hpre.
      * destruct (dropWhile non_az09 r) as [|c2 r2] eqn:Ed; [exact I|].
        exact (dropWhile_head _ _ _ _ Ed).
      * apply IH. pose proof (dropWhile_length non_az09 r). lia.
Qed.

Lemma RunsCollapsed_unique (s t : jsstring) :
  RunsCollapsed s t -> t = collapseRuns s.
Proof.
  induction 1 as [|c s t Hc _ IH|run s t Hne Hrun Hs _ IH].
  - reflexivity.
  - rewrite collapseRuns_head by exact Hc. now rewrite IH.
  - destruct run as [|c run]; [congruence|].
    simpl in Hrun. apply andb_prop in Hrun as [Hc Hrun].
    apply negb_true_iff in Hc.
    change ((c :: run) ++ s) with (c :: run ++ s).
    rewrite collapseRuns_run by exact Hc.
    rewrite dropWhile_app_all by now apply dropWhile_all.
    rewrite dropWhile_headNot by exact Hs. now rewrite IH.
Qed.

(** C2.  For every title, [slugify] gives the title lowercased, with every
    maximal run of code units outside [a-z0-9] replaced by one dash and
    the dashes at both ends stripped.  The slug holds lowercase letters,
    digits and single dashes only, and neither starts nor ends with a
    dash.  "Hello, World!" gives "hello-world" and "  ---Foo Bar---  "
    gives "foo-bar". *)
Theorem slugify_correct :
  (forall title, slugify title = slugOfTitle title)
  /\ (forall title,
        exists collapsed,
          RunsCollapsed (toLowerCase title) collapsed
          /\ DashesStripped collapsed (slugify title))
  /\ (forall title,
        slugChars (slugify title) = true
        /\ singleDashes (slugify title) = true
        /\ noEdgeDash (slugify title) = true)
  /\ slugify (js "Hello, World!") = js "hello-world"
  /\ slugify (js "  ---Foo Bar---  ") = js "foo-bar".
Proof.
  split; [exact slugify_slugOfTitle|]. split.
  { intros title. exists (collapseRuns (toLowerCase title)).
    split; [exact (collapseRuns_collapsed _ _ (le_n _))|].
    rewrite slugify_slugOfTitle. apply stripDashes_stripped. }
  split; [|split; reflexivity].
  intros title. rewrite slugify_slugOfTitle. apply slugOfTitle_shape.
Qed.

(** ** Inversion of the matchers *)

Lemma orelse_Some {A} (a b : option A) (x : A) :
  orelse a b = Some x -> a = Some x \/ (a = None /\ b = Some x).
Proof. destruct a; simpl; intros H; [now left|now right]. Qed.

Lemma one_Some {A} (p : ascii -> bool) (k : ascii -> jsstring -> option A)
    (s : jsstring) (x : A) :
  one p k s = Some x ->
  exists c r, s = c :: r /\ p c = true /\ k c r = Some x.
Proof.
  destruct s as [|c r]; simpl; [discriminate|].
  destruct (p c) eqn:E; [|discriminate]. intros H. now exists c, r.
Qed.

Lemma star_Some {A} (p : ascii -> bool) (k : jsstring -> option A)
    (s : jsstring) (x : A) :
  star p k s = Some x ->
  exists run r, s = run ++ r /\ forallb p run = true /\ k r = Some x.
Proof.
  induction s as [|c r IH]; simpl; intros H.
  - now exists [], [].
  - destruct (p c) eqn:E; [|now exists [], (c :: r)].
    apply orelse_Some in H as [H|[_ H]].
    + destruct (IH H) as [run [r' [H1 [H2 H3]]]].
      exists (c :: run), r'. simpl. rewrite E, H2. now subst r.
    + now exists [], (c :: r).
Qed.

Lemma at_end_Some {A} (r x : A) (s : jsstring) :
  at_end r s = Some x -> s = [] /\ x = r.
Proof. destruct s; simpl; [|discriminate]. intros H. now injection H. Qed.

Lemma opt_Some {A B}
    (g : (B -> jsstring -> option A) -> jsstring -> option A)
    (k : option B -> jsstring -> option A) (s : jsstring) (x : A) :
  opt g k s = Some x ->
  g (fun b => k (Some b)) s = Some x \/ k None s = Some x.
Proof.
  unfold opt. intros H. apply orelse_Some in H as [H|[_ H]]; auto.
Qed.

Lemma opt_taken {A B}
    (g : (B -> jsstring -> option A) -> jsstring -> option A)
    (k : option B -> jsstring -> option A) (s : jsstring) (x : A) :
  g (fun b => k (Some b)) s = Some x -> opt g k s = Some x.
Proof. unfold opt. now intros ->. Qed.

Lemma opt_skipped {A B}
    (g : (B -> jsstring -> option A) -> jsstring -> option A)
    (k : option B -> jsstring -> option A) (s : jsstring) :
  g (fun b => k (Some b)) s = None -> opt g k s = k None s.
Proof. unfold opt. now intros ->. Qed.

Lemma one_headNot {A} (p : ascii -> bool) (k : ascii -> jsstring -> option A)
    (s : jsstring) :
  headNot p s -> one p k s = None.
Proof. destruct s as [|c r]; simpl; [reflexivity|]. now intros ->. Qed.

Lemma star_headNot {A} (p : ascii -> bool) (k : jsstring -> option A)
    (s : jsstring) :
  headNot p s -> star p k s = k s.
Proof. destruct s as [|c r]; simpl; [reflexivity|]. now intros ->. Qed.

(** A run of the class before a match: the greedy star takes the run. *)
Lemma star_run {A} (p : ascii -> bool) (k : jsstring -> option A)
    (run r : jsstring) (x : A) :
  forallb p run = true -> star p k r = Some x ->
  star p k (run ++ r) = Some x.
Proof.
  intros Hrun Hr. induction run as [|c run IH]; [exact Hr|].
  simpl in *. apply andb_prop in Hrun as [-> Hrun].
  now rewrite (IH Hrun).
Qed.

Lemma headNot_app (p : ascii -> bool) (a b : jsstring) :
  headNot p a -> headNot p b -> headNot p (a ++ b).
Proof. destruct a; simpl; auto. Qed.

Lemma headNot_run (p q : ascii -> bool) (run r : jsstring) :
  (forall c, q c = true -> p c = false) ->
  forallb q run = true -> headNot p r -> headNot p (run ++ r).
Proof.
  intros Hq Hrun Hr. destruct run as [|c run]; [exact Hr|].
  simpl in *. apply andb_prop in Hrun as [Hc _]. now apply Hq.
Qed.

(** ** The time pattern *)

Lemma hourGroup_Some {A} (k : jsstring -> jsstring -> option A)
    (s : jsstring) (x : A) :
  hourGroup k s = Some x ->
  exists g r, s = g ++ r /\ (length g = 1 \/ length g = 2)%nat
              /\ allDigits g /\ k g r = Some x.
Proof.
  unfold hourGroup. intros H.
  apply one_Some in H as [d1 [r [-> [H1 H]]]].
  apply orelse_Some in H as [H|[_ H]].
  - apply one_Some in H as [d2 [r2 [-> [H2 H]]]].
    exists [d1; d2], r2. unfold allDigits. simpl. rewrite H1, H2. auto.
  - exists [d1], r. unfold allDigits. simpl. rewrite H1. auto.
Qed.

Lemma minuteGroup_Some {A} (k : jsstring -> jsstring -> option A)
    (s : jsstring) (x : A) :
  minuteGroup k s = Some x ->
  exists g r, s = js ":" ++ g ++ r /\ length g = 2%nat
              /\ allDigits g /\ k g r = Some x.
Proof.
  unfold minuteGroup. intros H.
  apply one_Some in H as [c [r [-> [Hc H]]]].
  apply one_Some in H as [m1 [r1 [-> [H1 H]]]].
  apply one_Some in H as [m2 [r2 [-> [H2 H]]]].
  apply Ascii.eqb_eq in Hc. subst c.
  exists [m1; m2], r2. unfold allDigits. simpl. rewrite H1, H2. auto.
Qed.

Lemma periodGroup_Some {A} (k : jsstring -> jsstring -> option A)
    (s : jsstring) (x : A) :
  periodGroup k s = Some x ->
  exists a b r, s = [a; b] ++ r
                /\ (ci "a" a = true \/ ci "p" a = true) /\ ci "m" b = true
                /\ k [a; b] r = Some x.
Proof.
  unfold periodGroup. intros H.
  apply orelse_Some in H as [H|[_ H]];
    apply one_Some in H as [a [r [-> [Ha H]]]];
    apply one_Some in H as [b [r2 [-> [Hb H]]]];
    exists a, b, r2; auto.
Qed.

(** What a match of [timeRegex] says of the input. *)
Lemma timeRegex_Some (t g1 : jsstring) (g2 g3 : option jsstring) :
  timeRegex t = Some (g1, g2, g3) ->
  exists gap,
    t = g1 ++ colonText g2 ++ gap ++ wordText g3
    /\ (length g1 = 1 \/ length g1 = 2)%nat /\ allDigits g1
    /\ (forall digits, g2 = Some digits ->
          length digits = 2%nat /\ allDigits digits)
    /\ allSpace gap
    /\ (forall word, g3 = Some word ->
          exists a b, word = [a; b]
                      /\ (ci "a" a = true \/ ci "p" a = true)
                      /\ ci "m" b = true).
Proof.
  unfold timeRegex. intros H.
  apply hourGroup_Some in H as [h [r [-> [Hlen [Hdig H]]]]].
  assert (Hrest : forall (m2 : option jsstring) (u : jsstring),
    star is_space (opt periodGroup (fun m3 => at_end (h, m2, m3))) u
      = Some (g1, g2, g3) ->
    h = g1 /\ m2 = g2 /\ exists gap, u = gap ++ wordText g3 /\ allSpace gap
    /\ (forall word, g3 = Some word ->
          exists a b, word = [a; b]
                      /\ (ci "a" a = true \/ ci "p" a = true)
                      /\ ci "m" b = true)).
  { intros m2 u Hu.
    apply star_Some in Hu as [gap [v [-> [Hgap Hv]]]].
    apply opt_Some in Hv as [Hv|Hv].
    - apply periodGroup_Some in Hv as [a [b [w [-> [Ha [Hb Hv]]]]]].
      apply at_end_Some in Hv as [-> Hv]. injection Hv as E1 E2 E3.
      repeat split; auto. exists gap. rewrite E3. repeat split; auto.
      intros word Hw. injection Hw as <-. now exists a, b.
    - apply at_end_Some in Hv as [-> Hv]. injection Hv as E1 E2 E3.
      repeat split; auto. exists gap. rewrite E3. repeat split; auto.
      discriminate. }
  apply opt_Some in H as [H|H].
  - apply minuteGroup_Some in H as [m [u [-> [Hm1 [Hm2 H]]]]].
    apply Hrest in H as [<- [<- [gap [-> [Hgap Hw]]]]].
    exists gap. split; [reflexivity|].
    split; [exact Hlen|]. split; [exact Hdig|].
    split; [|split; [exact Hgap|exact Hw]].
    intros digits Hd. injection Hd as <-. auto.
  - apply Hrest in H as [<- [<- [gap [-> [Hgap Hw]]]]].
    exists gap. split; [reflexivity|].
    split; [exact Hlen|]. split; [exact Hdig|].
    split; [|split; [exact Hgap|exact Hw]].
    discriminate.
Qed.

Lemma space_not_digit (c : ascii) : is_space c = true -> is_digit c = false.
Proof. each_char c. Qed.

Lemma space_not_colon (c : ascii) : is_space c = true -> is_char ":" c = false.
Proof. each_char c. Qed.

Lemma digit_not_space (c : ascii) : is_digit c = true -> is_space c = false.
Proof. each_char c. Qed.

Lemma digit_lower (c : ascii) : is_digit c = true -> lower_char c = c.
Proof. each_char c. Qed.

Lemma space_lower (c : ascii) : is_space c = true -> lower_char c = c.
Proof. each_char c. Qed.

Lemma lower_digit (c : ascii) : is_digit (lower_char c) = is_digit c.
Proof. each_char c. Qed.

Lemma lower_colon (c : ascii) : lower_char c = ":"%char -> c = ":"%char.
Proof. each_char c. Qed.

Lemma lower_m_not_space (c : ascii) :
  lower_char c = "m"%char -> is_space c = false.
Proof. each_char c. Qed.

Lemma ci_lower (x c : ascii) :
  is_lower_az x = true -> ci x (lower_char c) = true -> lower_char c = x.
Proof.
  unfold ci. intros Hx H. apply orb_prop in H as [H|H].
  - now apply Ascii.eqb_eq in H.
  - exfalso. apply andb_prop in H as [H _]. revert H. clear. each_char c.
Qed.

Lemma forallb_rev (p : ascii -> bool) (s : jsstring) :
  forallb p s = true -> forallb p (rev s) = true.
Proof.
  rewrite !forallb_forall. intros H x Hx. apply H. now apply in_rev.
Qed.

Lemma map_fixed (q : ascii -> bool) (f : ascii -> ascii) (s : jsstring) :
  (forall c, q c = true -> f c = c) -> forallb q s = true -> map f s = s.
Proof.
  intros Hq. induction s as [|c r IH]; simpl; [reflexivity|].
  intros H. apply andb_prop in H as [Hc Hr]. now rewrite Hq, IH.
Qed.

Lemma headNot_all (p q : ascii -> bool) (s : jsstring) :
  (forall c, q c = true -> p c = false) ->
  forallb q s = true -> headNot p s.
Proof.
  intros Hq Hs. rewrite <- (app_nil_r s).
  now apply (headNot_run p q s []).
Qed.

Lemma minuteGroup_colon {A} (k : jsstring -> jsstring -> option A)
    (a b : ascii) (r : jsstring) :
  is_digit a = true -> is_digit b = true ->
  minuteGroup k (js ":" ++ [a; b] ++ r) = k [a; b] r.
Proof. intros Ha Hb. unfold minuteGroup. simpl. now rewrite Ha, Hb. Qed.

Lemma hourGroup_two {A} (k : jsstring -> jsstring -> option A)
    (a b : ascii) (r : jsstring) (x : A) :
  is_digit a = true -> is_digit b = true -> k [a; b] r = Some x ->
  hourGroup k ([a; b] ++ r) = Some x.
Proof.
  intros Ha Hb Hk. unfold hourGroup. simpl. now rewrite Ha, Hb, Hk.
Qed.

Lemma hourGroup_one {A} (k : jsstring -> jsstring -> option A)
    (a : ascii) (r : jsstring) :
  is_digit a = true -> headNot is_digit r ->
  hourGroup k ([a] ++ r) = k [a] r.
Proof.
  intros Ha Hr. unfold hourGroup. simpl. rewrite Ha.
  now rewrite one_headNot.
Qed.

(** The matcher finds the groups of a text of the grammar. *)
Lemma timeRegex_match (g1 : jsstring) (g2 : option jsstring) (gap : jsstring)
    (g3 : option jsstring) :
  (length g1 = 1 \/ length g1 = 2)%nat -> allDigits g1 ->
  (forall digits, g2 = Some digits -> length digits = 2%nat /\ allDigits digits) ->
  allSpace gap ->
  g3 = None \/ g3 = Some (js "am") \/ g3 = Some (js "pm") ->
  timeRegex (g1 ++ colonText g2 ++ gap ++ wordText g3) = Some (g1, g2, g3).
Proof.
  intros Hlen Hdig Hg2 Hgap Hg3.
  assert (Hword : forall p, (p = is_space \/ p = is_digit \/ p = is_char ":") ->
                            headNot p (wordText g3)).
  { intros p Hp.
    destruct Hg3 as [-> | [-> | ->]];
      destruct Hp as [-> | [-> | ->]]; reflexivity. }
  assert (H2 : forall m2 : option jsstring,
    star is_space (opt periodGroup (fun m3 : option jsstring =>
                                      at_end (g1, m2, m3)))
      (gap ++ wordText g3) = Some (g1, m2, g3)).
  { intros m2. apply star_run; [exact Hgap|].
    rewrite star_headNot by (apply Hword; auto).
    destruct Hg3 as [-> | [-> | ->]]; reflexivity. }
  assert (H1 : opt minuteGroup (fun m2 : option jsstring =>
      star is_space (opt periodGroup (fun m3 : option jsstring =>
                                        at_end (g1, m2, m3))))
      (colonText g2 ++ gap ++ wordText g3) = Some (g1, g2, g3)).
  { destruct g2 as [digits|].
    - destruct (Hg2 digits eq_refl) as [Hl Hd].
      destruct digits as [ | a [ | b [ | ? ? ] ] ]; try discriminate.
      unfold allDigits in Hd. simpl in Hd.
      apply andb_prop in Hd as [Ha Hd]. apply andb_prop in Hd as [Hb _].
      apply opt_taken. unfold colonText. rewrite <- app_assoc.
      rewrite minuteGroup_colon by assumption. apply H2.
    - rewrite opt_skipped; [apply H2|].
      unfold minuteGroup. cbn [colonText app]. apply one_headNot.
      apply (headNot_run _ is_space); [exact space_not_colon|exact Hgap|].
      apply Hword; auto. }
  unfold timeRegex, allDigits in *.
  destruct g1 as [ | d1 [ | d2 [ | ? ? ] ] ]; simpl in Hlen; try lia.
  - simpl in Hdig. rewrite andb_true_r in Hdig.
    rewrite hourGroup_one; [exact H1|exact Hdig|].
    destruct g2 as [digits|]; [reflexivity|]. cbn [colonText app].
    apply (headNot_run _ is_space); [exact space_not_digit|exact Hgap|].
    apply Hword; auto.
  - simpl in Hdig. apply andb_prop in Hdig as [Ha Hdig].
    apply andb_prop in Hdig as [Hb _].
    now apply hourGroup_two.
Qed.

Lemma digit_code (c : ascii) : is_digit c = true -> 48 <= code c <= 57.
Proof.
  unfold is_digit, in_range. intros H. apply andb_prop in H as [H1 H2].
  apply Z.leb_le in H1, H2. lia.
Qed.

Lemma parseInt10_range (g : jsstring) :
  (length g = 1 \/ length g = 2)%nat -> allDigits g ->
  0 <= parseInt10 g <= 99.
Proof.
  unfold allDigits, parseInt10. intros Hlen Hdig.
  destruct g as [ | a [ | b [ | ? ? ] ] ]; simpl in Hlen; try lia;
    cbn [forallb] in Hdig.
  - rewrite andb_true_r in Hdig. cbn [parse_digits]. rewrite Hdig.
    apply digit_code in Hdig. lia.
  - apply andb_prop in Hdig as [Ha Hdig]. apply andb_prop in Hdig as [Hb _].
    cbn [parse_digits]. rewrite Ha, Hb. apply digit_code in Ha, Hb. lia.
Qed.

Lemma pad2_nat (k : nat) :
  (k < 100)%nat -> pad 2 (Z.of_nat k) = twoDigits (Z.of_nat k).
Proof.
  intros Hk.
  do 100 (destruct k as [|k]; [reflexivity|]). lia.
Qed.

Lemma pad2_twoDigits (n : Z) : 0 <= n <= 99 -> pad 2 n = twoDigits n.
Proof.
  intros Hn. rewrite <- (Z2Nat.id n) by lia. apply pad2_nat. lia.
Qed.

(** ** Times *)

Lemma headNot_app_l (p : ascii -> bool) (a b : jsstring) :
  a <> [] -> headNot p a -> headNot p (a ++ b).
Proof. destruct a; simpl; [congruence|auto]. Qed.

(** [trim] takes the white space around a text that neither starts nor
    ends with white space. *)
Lemma trim_core (lead core trail : jsstring) :
  allSpace lead -> allSpace trail ->
  headNot is_space core -> headNot is_space (rev core) ->
  trim (lead ++ core ++ trail) = core.
Proof.
  unfold allSpace, trim. intros Hlead Htrail Hhead Hlast.
  rewrite dropWhile_app_all by now apply dropWhile_all.
  destruct core as [|c core].
  - simpl. rewrite dropWhile_all by exact Htrail. reflexivity.
  - rewrite dropWhile_headNot by exact Hhead.
    unfold dropWhileEnd. rewrite rev_app_distr.
    rewrite dropWhile_app_all by (apply dropWhile_all; now apply forallb_rev).
    rewrite dropWhile_headNot by exact Hlast.
    apply rev_involutive.
Qed.

Lemma lower_word (word : jsstring) (period : Period) :
  toLowerCase word = periodWord period ->
  exists a b, word = [a; b] /\ lower_char b = "m"%char.
Proof.
  destruct word as [ | a [ | b [ | ? ? ] ] ]; destruct period; try discriminate;
    intros H; injection H as _ Hb; now exists a, b.
Qed.

Lemma timeText_trim (lead hour minute suffix trail : jsstring)
    (h m : Z) (p : option Period) :
  allSpace lead -> allSpace trail ->
  hourText hour h -> minuteText minute m -> suffixText suffix p ->
  trim (lead ++ hour ++ minute ++ suffix ++ trail) = hour ++ minute ++ suffix.
Proof.
  intros Hlead Htrail [Hlen [Hdig _]] Hmin Hsuf.
  replace (lead ++ hour ++ minute ++ suffix ++ trail)
    with (lead ++ (hour ++ minute ++ suffix) ++ trail)
    by now rewrite <- !app_assoc.
  apply trim_core; try assumption.
  - apply headNot_app_l; [destruct hour; simpl in Hlen; [lia|discriminate]|].
    exact (headNot_all _ _ _ digit_not_space Hdig).
  - rewrite !rev_app_distr, <- app_assoc.
    apply headNot_app; [|apply headNot_app].
    + destruct Hsuf as [[-> _]|[gap [word [period [-> [_ [Hw _]]]]]]];
        [exact I|].
      apply lower_word in Hw as [a [b [-> Hb]]].
      rewrite rev_app_distr. simpl. now apply lower_m_not_space.
    + destruct Hmin as [[-> _]|[digits [-> [Hl [Hd _]]]]]; [exact I|].
      destruct digits as [ | x [ | y [ | ? ? ] ] ]; try discriminate.
      unfold allDigits in Hd. simpl in Hd. simpl.
      apply digit_not_space.
      apply andb_prop in Hd as [_ Hd]. now apply andb_prop in Hd.
    + apply (headNot_all _ is_digit); [exact digit_not_space|].
      now apply forallb_rev.
Qed.

Lemma timeText_lower (hour minute suffix : jsstring)
    (h m : Z) (p : option Period) :
  hourText hour h -> minuteText minute m -> suffixText suffix p ->
  exists (g2 g3 : option jsstring) (gap : jsstring),
    toLowerCase (hour ++ minute ++ suffix)
      = hour ++ colonText g2 ++ gap ++ wordText g3
    /\ (forall digits, g2 = Some digits ->
          length digits = 2%nat /\ allDigits digits)
    /\ allSpace gap
    /\ (if truthy g2 then parseInt10 (wordText g2) else 0) = m
    /\ g3 = option_map periodWord p.
Proof.
  intros [Hlen [Hdig _]] Hmin Hsuf.
  unfold toLowerCase. rewrite !map_app.
  rewrite (map_fixed is_digit _ hour digit_lower Hdig).
  assert (Hm : exists g2 : option jsstring,
    map lower_char minute = colonText g2
    /\ (forall digits, g2 = Some digits ->
          length digits = 2%nat /\ allDigits digits)
    /\ (if truthy g2 then parseInt10 (wordText g2) else 0) = m).
  { destruct Hmin as [[-> ->]|[digits [-> [Hl [Hd Hv]]]]].
    - exists None. repeat split; [discriminate|discriminate].
    - exists (Some digits). split; [|split].
      + simpl. now rewrite (map_fixed is_digit _ digits digit_lower Hd).
      + intros d E. injection E as <-. auto.
      + destruct digits; [discriminate|exact Hv]. }
  destruct Hm as [g2 [-> [Hg2 Hv]]].
  destruct Hsuf as [[-> ->]|[gap [word [period [-> [Hgap [Hw ->]]]]]]].
  - exists g2, None, [].
    split; [reflexivity|]. split; [exact Hg2|]. split; [reflexivity|].
    split; [exact Hv|reflexivity].
  - exists g2, (Some (periodWord period)), gap.
    rewrite map_app, (map_fixed is_space _ gap space_lower Hgap).
    fold (toLowerCase word). rewrite Hw.
    split; [reflexivity|]. split; [exact Hg2|]. split; [exact Hgap|].
    split; [exact Hv|reflexivity].
Qed.

Lemma normalizeTime_groups (s hour : jsstring) (g2 g3 : option jsstring)
    (gap : jsstring) (h m : Z) (p : option Period) :
  toLowerCase (trim s) = hour ++ colonText g2 ++ gap ++ wordText g3 ->
  hourText hour h ->
  (forall digits, g2 = Some digits -> length digits = 2%nat /\ allDigits digits) ->
  allSpace gap ->
  (if truthy g2 then parseInt10 (wordText g2) else 0) = m ->
  g3 = option_map periodWord p ->
  normalizeTime s = timeOf h m p.
Proof.
  intros Hs [Hlen [Hdig Hh]] Hg2 Hgap Hm Hg3.
  assert (Hmatch : timeRegex (toLowerCase (trim s)) = Some (hour, g2, g3)).
  { rewrite Hs. apply timeRegex_match; try assumption.
    subst g3. destruct p as [[|]|]; auto. }
  pose proof (parseInt10_range hour Hlen Hdig) as Hhr.
  assert (Hmr : 0 <= m <= 99).
  { subst m. destruct g2 as [digits|]; [|simpl; lia].
    destruct (Hg2 digits eq_refl) as [Hl Hd].
    destruct digits as [|? ?]; [discriminate|].
    cbn [truthy wordText]. apply parseInt10_range; auto. }
  unfold normalizeTime, timeOf. rewrite Hmatch.
  change (match g2 with Some s0 => s0 | None => [] end) with (wordText g2).
  rewrite Hm, Hh. cbv zeta.
  destruct ((m <? 0) || (59 <? m)) eqn:Em; [reflexivity|].
  apply orb_false_elim in Em as [_ Em]. apply Z.ltb_ge in Em.
  change (padStart 2 "0" (Number_toString m)) with (pad 2 m).
  rewrite (pad2_twoDigits m) by lia.
  change (padStart 2 "0" (Number_toString (h + 12))) with (pad 2 (h + 12)).
  change (padStart 2 "0" (Number_toString h)) with (pad 2 h).
  change (padStart 2 "0" (Number_toString 0)) with (pad 2 0).
  subst g3. destruct p as [[|]|]; cbn [option_map truthy periodWord js
    list_ascii_of_string].
  - destruct ((h <? 1) || (12 <? h)) eqn:Eh; [reflexivity|].
    apply orb_false_elim in Eh as [Eh1 Eh2].
    apply Z.ltb_ge in Eh1, Eh2.
    rewrite !pad2_twoDigits by lia.
    change (strict_eq (Some ["a"; "m"]%char) "pm") with false.
    change (strict_eq (Some ["a"; "m"]%char) "am") with true.
    cbn [andb]. unfold to24. now destruct (h =? 12).
  - destruct ((h <? 1) || (12 <? h)) eqn:Eh; [reflexivity|].
    apply orb_false_elim in Eh as [Eh1 Eh2].
    apply Z.ltb_ge in Eh1, Eh2.
    rewrite !pad2_twoDigits by lia.
    change (strict_eq (Some ["p"; "m"]%char) "pm") with true.
    change (strict_eq (Some ["p"; "m"]%char) "am") with false.
    cbn [andb]. unfold to24. destruct (h =? 12) eqn:E12; [|reflexivity].
    apply Z.eqb_eq in E12. cbn [negb]. now rewrite E12.
  - destruct ((h <? 0) || (23 <? h)) eqn:Eh; [reflexivity|].
    apply orb_false_elim in Eh as [Eh1 Eh2].
    apply Z.ltb_ge in Eh1, Eh2.
    now rewrite pad2_twoDigits by lia.
Qed.

Lemma normalizeTime_timeText (s : jsstring) (h m : Z) (p : option Period) :
  isTimeText s h m p -> normalizeTime s = timeOf h m p.
Proof.
  intros [lead [hour [minute [suffix [trail
    [-> [Hlead [Htrail [Hh [Hm Hp]]]]]]]]]].
  destruct (timeText_lower _ _ _ _ _ _ Hh Hm Hp)
    as [g2 [g3 [gap [Hl [Hg2 [Hgap [Hv Hg3]]]]]]].
  apply (normalizeTime_groups _ hour g2 g3 gap); try assumption.
  now rewrite (timeText_trim _ _ _ _ _ _ _ _ Hlead Htrail Hh Hm Hp).
Qed.

Lemma trim_parts (s : jsstring) :
  exists lead trail, s = lead ++ trim s ++ trail
                     /\ allSpace lead /\ allSpace trail.
Proof.
  unfold trim, allSpace.
  destruct (dropWhile_suffix is_space s) as [lead [H1 Hlead]].
  destruct (dropWhileEnd_prefix is_space (dropWhile is_space s))
    as [trail [H2 Htrail]].
  exists lead, trail. now rewrite <- H2.
Qed.

Lemma forallb_lower (p : ascii -> bool) (s : jsstring) :
  (forall c, p (lower_char c) = p c) ->
  forallb p (map lower_char s) = forallb p s.
Proof.
  intros Hp. induction s as [|c r IH]; simpl; [reflexivity|].
  now rewrite Hp, IH.
Qed.

(** A match on the lowercased text gives a text of the grammar. *)
Lemma timeRegex_timeText (core g1 : jsstring) (g2 g3 : option jsstring) :
  timeRegex (toLowerCase core) = Some (g1, g2, g3) ->
  exists hour minute suffix rest h m p,
    core = hour ++ minute ++ suffix ++ rest /\ allSpace rest
    /\ hourText hour h /\ minuteText minute m /\ suffixText suffix p.
Proof.
  intros H. apply timeRegex_Some in H
    as [gap0 [Ht [Hlen [Hdig [Hg2 [Hgap Hg3]]]]]].
  unfold toLowerCase in Ht.
  apply map_eq_app in Ht as [hour [r1 [-> [Hhour Ht]]]].
  apply map_eq_app in Ht as [minute [r2 [-> [Hminute Ht]]]].
  apply map_eq_app in Ht as [gap [word [-> [Hgap' Hword]]]].
  subst g1 gap0. unfold allDigits, allSpace in *.
  rewrite length_map in Hlen.
  rewrite forallb_lower in Hdig by exact lower_digit.
  rewrite forallb_lower in Hgap by exact lower_keeps_space.
  assert (Hmin : exists m, minuteText minute m).
  { destruct g2 as [digits|]; simpl in Hminute.
    - destruct (Hg2 digits eq_refl) as [Hl Hd].
      destruct minute as [|c dd]; [discriminate|].
      simpl in Hminute. injection Hminute as Hc Hdd.
      apply lower_colon in Hc. subst c digits.
      rewrite length_map in Hl. unfold allDigits in Hd.
      rewrite forallb_lower in Hd by exact lower_digit.
      exists (parseInt10 dd). right. now exists dd.
    - destruct minute; [|discriminate]. exists 0. now left. }
  destruct Hmin as [m Hmin].
  exists hour, minute.
  destruct g3 as [w|]; simpl in Hword.
  - destruct (Hg3 w eq_refl) as [a [b [-> [Ha Hb]]]].
    destruct word as [ | a' [ | b' [ | ? ? ] ] ]; try discriminate.
    simpl in Hword. injection Hword as Ea Eb. subst a b.
    apply ci_lower in Hb; [|reflexivity].
    assert (Hp : exists period, toLowerCase [a'; b'] = periodWord period).
    { destruct Ha as [Ha|Ha]; apply ci_lower in Ha; try reflexivity.
      - exists AM. simpl. now rewrite Ha, Hb.
      - exists PM. simpl. now rewrite Ha, Hb. }
    destruct Hp as [period Hp].
    exists (gap ++ [a'; b']), [], (parseInt10 hour), m, (Some period).
    rewrite app_nil_r. repeat split; auto.
    right. now exists gap, [a'; b'], period.
  - destruct word; [|discriminate].
    exists [], gap, (parseInt10 hour), m, None.
    rewrite app_nil_r. repeat split; auto. now left.
Qed.

Lemma normalizeTime_Some (s r : jsstring) :
  normalizeTime s = Some r -> exists h m p, isTimeText s h m p.
Proof.
  unfold normalizeTime.
  destruct (timeRegex (toLowerCase (trim s))) as [[[g1 g2] g3]|] eqn:E;
    [|discriminate].
  intros _.
  apply timeRegex_timeText in E
    as [hour [minute [suffix [rest [h [m [p [Hc [Hrest [Hh [Hm Hp]]]]]]]]]]].
  destruct (trim_parts s) as [lead [trail [Hs [Hlead Htrail]]]].
  exists h, m, p, lead, hour, minute, suffix, (rest ++ trail).
  split; [|split; [exact Hlead|split; [|auto]]].
  - rewrite Hs at 1. rewrite Hc. now rewrite <- !app_assoc.
  - unfold allSpace in *. rewrite forallb_app. now rewrite Hrest, Htrail.
Qed.

Lemma literalTimeText_isTimeText (s : jsstring) (h m : Z) (p : option Period) :
  literalTimeText s h m p -> isTimeText s h m p.
Proof.
  intros [hour [minute [suffix [-> [Hh [Hm Hs]]]]]].
  exists [], hour, minute, suffix, [].
  rewrite app_nil_r.
  split; [reflexivity|]. split; [reflexivity|]. split; [reflexivity|].
  split; [exact Hh|]. split; [exact Hm|].
  destruct Hs as [Hs|[word [period [Hw [Hl Hp]]]]]; [left; exact Hs|].
  right. destruct Hw as [-> | ->].
  - exists [], word, period. repeat split; auto.
  - exists (js " "), word, period. repeat split; auto.
Qed.

(** C1, as it is written.  An input with white space in front is not of
    the form hour, minutes, suffix, and yet [normalizeTime] does not
    return null on it: the source trims its input first. *)
Lemma normalizeTime_trims :
  (forall h m p, ~ literalTimeText (js " 13:30") h m p)
  /\ normalizeTime (js " 13:30") = Some (js "13:30").
Proof.
  split; [|reflexivity].
  intros h m p [hour [minute [suffix [Hs [[Hlen [Hdig _]] _]]]]].
  destruct hour as [|d hour]; [simpl in Hlen; lia|].
  injection Hs as <- _. discriminate.
Qed.

(** C1.  [normalizeTime] trims its input and returns null when what is
    left is outside the grammar: an hour of one or two digits, optionally
    a colon and two digits of minutes, optionally any white space and am
    or pm in either case.  On an input of the grammar it returns null
    when the minutes are over 59, when a 12-hour hour is outside 1-12 or
    a 24-hour hour is over 23, and otherwise the zero-padded HH:MM string
    of the 24-hour time, with 12am as 00 and 12pm as 12.  The inputs of
    the form read to the letter are inputs of this grammar, and the five
    examples of the specification hold. *)
Theorem normalizeTime_correct :
  (forall s, (forall h m p, ~ isTimeText s h m p) -> normalizeTime s = None)
  /\ (forall s h m p, isTimeText s h m p -> normalizeTime s = timeOf h m p)
  /\ (forall s h m p,
        literalTimeText s h m p -> normalizeTime s = timeOf h m p)
  /\ normalizeTime (js "1:30 pm") = Some (js "13:30")
  /\ normalizeTime (js "13:30") = Some (js "13:30")
  /\ normalizeTime (js "12am") = Some (js "00:00")
  /\ normalizeTime (js "25:00") = None
  /\ normalizeTime (js "13pm") = None.
Proof.
  split.
  { intros s Hnot. destruct (normalizeTime s) as [r|] eqn:E; [|reflexivity].
    apply normalizeTime_Some in E as [h [m [p H]]]. now apply Hnot in H. }
  split; [exact normalizeTime_timeText|].
  split.
  { intros s h m p H. apply normalizeTime_timeText.
    now apply literalTimeText_isTimeText. }
  repeat split; reflexivity.
Qed.

Lemma normalizeTime_correct_witness :
  isTimeText (js " 1:30  PM") 1 30 (Some PM)
  /\ normalizeTime (js " 1:30  PM") = timeOf 1 30 (Some PM).
Proof.
  assert (H : isTimeText (js " 1:30  PM") 1 30 (Some PM)).
  { exists (js " "), (js "1"), (js ":30"), (js "  PM"), [].
    repeat split; try reflexivity.
    - now left.
    - right. exists (js "30"). now repeat split.
    - right. exists (js "  "), (js "PM"), PM. now repeat split. }
  split; [exact H|].
  exact (proj1 (proj2 normalizeTime_correct) _ _ _ _ H).
Defined.

(** ** The statements of the Event hook *)

Lemma seq_fall (s1 s2 : Stmt) (doc doc1 : EventDocument) :
  s1 doc = (doc1, None) -> (s1 ;; s2) doc = s2 doc1.
Proof. unfold seq. now intros ->. Qed.

Lemma seq_stop (s1 s2 : Stmt) (doc doc1 : EventDocument) (e : Error) :
  s1 doc = (doc1, Some e) -> (s1 ;; s2) doc = (doc1, Some e).
Proof. unfold seq. now intros ->. Qed.

Lemma checkFields_find (fields : list string) (doc : EventDocument) :
  checkFields fields doc =
  (doc, option_map fieldError
          (find (fun field => blank (get_path doc field)) fields)).
Proof.
  induction fields as [|field rest IH]; [reflexivity|].
  cbn [checkFields find]. unfold seq, when.
  destruct (blank (get_path doc field)); [reflexivity|].
  unfold fall_through. exact IH.
Qed.

Lemma validation_result (doc : EventDocument) :
  validation doc =
  (doc, match firstBlank doc with
        | Some field => Some (fieldError field)
        | None =>
            if no_items (agenda doc) then Some agendaError
            else if no_items (tags doc) then Some tagsError
            else None
        end).
Proof.
  unfold validation, firstBlank, seq. rewrite checkFields_find.
  destruct (find _ requiredStringFields); [reflexivity|].
  cbn [option_map]. unfold when, return_next, fall_through.
  destruct (no_items (agenda doc)); [reflexivity|].
  now destruct (no_items (tags doc)).
Qed.

Lemma firstBlank_Some (doc : EventDocument) (field : string) :
  In field requiredStringFields -> blank (get_path doc field) = true ->
  exists first, firstBlank doc = Some first
                /\ In first requiredStringFields
                /\ blank (get_path doc first) = true.
Proof.
  intros Hin Hb. unfold firstBlank.
  destruct (find _ requiredStringFields) as [first|] eqn:E.
  - exists first. split; [reflexivity|]. exact (find_some _ _ E).
  - pose proof (find_none _ _ E field Hin) as H. cbv beta in H. congruence.
Qed.

Lemma firstBlank_None (doc : EventDocument) :
  firstBlank doc = None <->
  forall field, In field requiredStringFields ->
                blank (get_path doc field) = false.
Proof.
  unfold firstBlank. split.
  - intros E field Hin. exact (find_none _ _ E field Hin).
  - intros H. destruct (find _ requiredStringFields) as [first|] eqn:E;
      [|reflexivity].
    apply find_some in E as [Hin Hb]. rewrite (H _ Hin) in Hb. discriminate.
Qed.

Lemma append_cancel_l (a b c : string) : (a ++ b = a ++ c)%string -> b = c.
Proof.
  induction a as [|x a IH]; simpl; [auto|].
  intros H. injection H as H. auto.
Qed.

Lemma string_length_append (a b : string) :
  String.length (a ++ b)%string = (String.length a + String.length b)%nat.
Proof. induction a as [|x a IH]; simpl; [reflexivity|]. now rewrite IH. Qed.

Lemma append_cancel_r (a b c : string) : (a ++ c = b ++ c)%string -> a = b.
Proof.
  revert b. induction a as [|x a IH]; intros [|y b] H; simpl in H.
  - reflexivity.
  - apply (f_equal String.length) in H. simpl in H.
    rewrite string_length_append in H. lia.
  - apply (f_equal String.length) in H. simpl in H.
    rewrite string_length_append in H. lia.
  - injection H as -> H. f_equal. now apply IH.
Qed.

(** The error of a field names that field and no other. *)
Lemma fieldError_names (f g : string) : fieldError f = fieldError g -> f = g.
Proof.
  unfold fieldError. intros H. injection H as H.
  repeat apply append_cancel_l in H.
  now apply append_cancel_r in H.
Qed.

Lemma set_slug_same (doc : EventDocument) : set_slug (slug doc) doc = doc.
Proof. now destruct doc. Qed.

Lemma set_date_same (doc : EventDocument) : set_date (date doc) doc = doc.
Proof. now destruct doc. Qed.

Lemma set_time_same (doc : EventDocument) : set_time (time doc) doc = doc.
Proof. now destruct doc. Qed.

Section EventHookSteps.

Variable Date_parse : jsstring -> option Z.

Lemma slugStep (doc : EventDocument) :
  exists v,
    when (fun doc => isNew doc || isModified doc "title") assignSlug doc
      = (set_slug v doc, None)
    /\ (isNew doc || isModified doc "title" = false -> v = slug doc)
    /\ (isNew doc || isModified doc "title" = true ->
        forall value, title doc = VString value ->
                      v = VString (slugify value)).
Proof.
  unfold when, assignSlug, fall_through.
  destruct (isNew doc || isModified doc "title").
  - destruct (title doc) as [| |value|items] eqn:E;
      try (exists (slug doc); rewrite set_slug_same;
           repeat split; congruence).
    exists (VString (slugify value)). repeat split; congruence.
  - exists (slug doc). rewrite set_slug_same. repeat split; congruence.
Qed.

Lemma dateStep (doc : EventDocument) :
  exists v e,
    when (fun doc => isNew doc || isModified doc "date")
         (normalizeDate Date_parse) doc = (set_date v doc, e)
    /\ (isNew doc || isModified doc "date" = false ->
        v = date doc /\ e = None)
    /\ (isNew doc || isModified doc "date" = true ->
        forall raw, date doc = VString raw ->
          match Date_parse raw with
          | None => v = date doc /\ e = Some dateError
          | Some t =>
              v = first_item (split "T" (toISOString t)) /\ e = None
          end).
Proof.
  unfold when, normalizeDate, fall_through.
  destruct (isNew doc || isModified doc "date").
  - destruct (date doc) as [| |raw|items] eqn:E;
      try (exists (date doc), None; rewrite set_date_same, ?E;
           repeat split; congruence).
    destruct (Date_parse raw) as [t|] eqn:Et.
    + exists (first_item (split "T" (toISOString t))), None.
      repeat split; try congruence.
      intros _ raw' Hraw. injection Hraw as <-. now rewrite Et.
    + exists (date doc), (Some dateError). rewrite set_date_same.
      repeat split; try congruence.
      intros _ raw' Hraw. injection Hraw as <-.
      rewrite Et. split; congruence.
  - exists (date doc), None. rewrite set_date_same.
    repeat split; congruence.
Qed.

Lemma timeStep (doc : EventDocument) :
  exists v e,
    when (fun doc => isNew doc || isModified doc "time") assignTime doc
      = (set_time v doc, e)
    /\ (isNew doc || isModified doc "time" = false ->
        v = time doc /\ e = None)
    /\ (e = None -> isNew doc || isModified doc "time" = true ->
        forall raw, time doc = VString raw ->
                    normalizeTime raw = Some (match v with
                                              | VString s => s
                                              | _ => []
                                              end)).
Proof.
  unfold when, assignTime, fall_through.
  destruct (isNew doc || isModified doc "time").
  - destruct (time doc) as [| |raw|items] eqn:E;
      try (exists (time doc), None; rewrite set_time_same, ?E;
           repeat split; congruence).
    destruct (normalizeTime raw) as [[|c r]|] eqn:Et.
    + exists (time doc), (Some timeError). rewrite set_time_same, E.
      repeat split; congruence.
    + exists (VString (c :: r)), None.
      split; [reflexivity|]. split; [congruence|].
      intros _ _ raw' Hraw. injection Hraw as <-. exact Et.
    + exists (time doc), (Some timeError). rewrite set_time_same, E.
      repeat split; congruence.
  - exists (time doc), None. rewrite set_time_same.
    repeat split; congruence.
Qed.

(** The hook after a successful validation: what the three steps leave on
    the document, and the error of the first one that fails. *)
Lemma normalization_steps (doc : EventDocument) :
  exists v1 v2 v3 e,
    normalization Date_parse doc
      = (set_time v3 (set_date v2 (set_slug v1 doc)), e)
    /\ (isNew doc || isModified doc "title" = false -> v1 = slug doc)
    /\ (isNew doc || isModified doc "title" = true ->
        forall value, title doc = VString value ->
                      v1 = VString (slugify value))
    /\ (isNew doc || isModified doc "date" = false -> v2 = date doc)
    /\ (isNew doc || isModified doc "date" = true ->
        forall raw, date doc = VString raw ->
          match Date_parse raw with
          | None => v2 = date doc /\ e = Some dateError
          | Some t => v2 = first_item (split "T" (toISOString t))
          end)
    /\ (isNew doc || isModified doc "time" = false -> v3 = time doc)
    /\ (isNew doc || isModified doc "title" = false ->
        isNew doc || isModified doc "date" = false ->
        isNew doc || isModified doc "time" = false -> e = None).
Proof.
  unfold normalization.
  destruct (slugStep doc) as [v1 [H1 [H1f H1t]]].
  destruct (dateStep (set_slug v1 doc)) as [v2 [e2 [H2 [H2f H2t]]]].
  destruct (timeStep (set_date v2 (set_slug v1 doc)))
    as [v3 [e3 [H3 [H3f _]]]].
  cbn [isNew isModified modifiedPaths set_slug set_date date time] in *.
  fold (isModified doc "date") in *. fold (isModified doc "time") in *.
  rewrite (seq_fall _ _ _ _ H1).
  destruct e2 as [err|].
  - rewrite (seq_stop _ _ _ _ _ H2).
    exists v1, v2, (time doc), (Some err).
    split; [f_equal; symmetry;
            exact (set_time_same (set_date v2 (set_slug v1 doc)))|].
    repeat split; auto.
    + intros Hc. now apply H2f.
    + intros Hc raw Hraw. specialize (H2t Hc raw Hraw).
      destruct (Date_parse raw); [tauto|]. destruct H2t as [-> H2t].
      split; [reflexivity|congruence].
    + intros _ Hc _. apply H2f in Hc. destruct Hc; congruence.
  - rewrite (seq_fall _ _ _ _ H2), H3.
    exists v1, v2, v3, e3. split; [reflexivity|].
    repeat split; auto.
    + intros Hc. now apply H2f.
    + intros Hc raw Hraw. specialize (H2t Hc raw Hraw).
      destruct (Date_parse raw); [tauto|]. destruct H2t; congruence.
    + intros Hc. now apply H3f.
    + intros _ _ Hc. now apply H3f.
Qed.

End EventHookSteps.

(** ** Dates *)

Lemma DayFromYear_next (y : Z) :
  DayFromYear (y + 1) = DayFromYear y + DaysInYear y.
Proof.
  unfold DayFromYear, DaysInYear, isLeapYear.
  destruct (y mod 4 =? 0) eqn:E4; destruct (y mod 100 =? 0) eqn:E100;
    destruct (y mod 400 =? 0) eqn:E400; cbn [andb orb negb];
    rewrite ?Z.eqb_eq, ?Z.eqb_neq in *;
    Z.div_mod_to_equations; lia.
Qed.

Lemma DayFromYear_increasing (y1 y2 : Z) :
  y1 < y2 -> DayFromYear y1 < DayFromYear y2.
Proof. unfold DayFromYear. Z.div_mod_to_equations. lia. Qed.

(** [YearFromDay] is the year ECMA-262 defines: the one whose days hold
    the day number. *)
Lemma YearFromDay_bounds (d : Z) :
  DayFromYear (YearFromDay d) <= d < DayFromYear (YearFromDay d + 1).
Proof.
  unfold YearFromDay.
  set (y := 1970 + d * 400 / 146097).
  destruct (d <? DayFromYear y) eqn:E1.
  - apply Z.ltb_lt in E1. replace (y - 1 + 1) with y by lia.
    split; [|exact E1]. unfold DayFromYear in *. subst y.
    Z.div_mod_to_equations. lia.
  - apply Z.ltb_ge in E1.
    destruct (DayFromYear (y + 1) <=? d) eqn:E2.
    + apply Z.leb_le in E2. split; [exact E2|].
      unfold DayFromYear in *. subst y. Z.div_mod_to_equations. lia.
    + apply Z.leb_gt in E2. lia.
Qed.

Lemma YearFromDay_largest (d y : Z) :
  DayFromYear y <= d -> y <= YearFromDay d.
Proof.
  intros H. destruct (Z_le_gt_dec y (YearFromDay d)) as [Hle|Hgt]; [exact Hle|].
  pose proof (YearFromDay_bounds d) as [_ Hb].
  assert (Hy : YearFromDay d + 1 <= y) by lia.
  apply Zle_lt_or_eq in Hy as [Hy| <-]; [|lia].
  pose proof (DayFromYear_increasing _ _ Hy). lia.
Qed.

Lemma DayWithinYear_range (t : Z) :
  0 <= DayWithinYear t < DaysInYear (YearFromTime t).
Proof.
  unfold DayWithinYear, YearFromTime.
  pose proof (YearFromDay_bounds (Day t)) as H.
  rewrite DayFromYear_next in H. lia.
Qed.

(** The year, month and day that [toISOString] prints are the calendar
    date of the day number of the time value. *)
Lemma civil_date (t : Z) :
  let y := YearFromTime t in
  let m := MonthFromTime t + 1 in
  let d := DateFromTime t in
  1 <= m <= 12 /\ 1 <= d <= daysInMonth y m
  /\ DayFromYear y + daysBeforeMonth y m + d - 1 = Day t.
Proof.
  pose proof (DayWithinYear_range t) as Hr.
  assert (Hd : Day t = DayFromYear (YearFromTime t) + DayWithinYear t)
    by (unfold DayWithinYear; lia).
  cbv zeta. rewrite Hd.
  unfold DateFromTime, MonthFromTime, InLeapYear, daysInMonth,
    daysBeforeMonth, DaysInYear in *.
  set (dw := DayWithinYear t) in *. clearbody dw.
  destruct (isLeapYear (YearFromTime t));
    repeat match goal with
           | |- context [if ?c then _ else _] =>
               let E := fresh "E" in
               destruct c eqn:E;
               [apply Z.ltb_lt in E | apply Z.ltb_ge in E]
           end;
    cbn; lia.
Qed.

Lemma digit_char_digit (d : Z) : 0 <= d <= 9 -> is_digit (digit_char d) = true.
Proof.
  intros H.
  assert (E : d = 0 \/ d = 1 \/ d = 2 \/ d = 3 \/ d = 4 \/ d = 5 \/ d = 6
              \/ d = 7 \/ d = 8 \/ d = 9) by lia.
  repeat (destruct E as [-> | E]; [reflexivity|]). now subst d.
Qed.

Lemma dec_digits_digits (fuel : nat) (n : Z) :
  0 <= n -> forallb is_digit (dec_digits fuel n) = true.
Proof.
  revert n. induction fuel as [|fuel IH]; intros n Hn; [reflexivity|].
  cbn [dec_digits]. destruct (n <? 10) eqn:E.
  - apply Z.ltb_lt in E. cbn [forallb].
    now rewrite digit_char_digit by lia.
  - rewrite forallb_app, IH by (apply Z.div_pos; lia). cbn [forallb].
    rewrite digit_char_digit; [reflexivity|].
    pose proof (Z.mod_pos_bound n 10). lia.
Qed.

Lemma code_digit_char (d : Z) : 0 <= d <= 9 -> code (digit_char d) = 48 + d.
Proof.
  intros H.
  assert (E : d = 0 \/ d = 1 \/ d = 2 \/ d = 3 \/ d = 4 \/ d = 5 \/ d = 6
              \/ d = 7 \/ d = 8 \/ d = 9) by lia.
  repeat (destruct E as [-> | E]; [reflexivity|]). now subst d.
Qed.




Lemma Number_toString_chars (n : Z) :
  forallb dateChar (Number_toString n) = true.
Proof.
  assert (Hd : forall s, forallb is_digit s = true ->
                         forallb dateChar s = true).
  { intros s Hs. rewrite forallb_forall in *. intros c Hc.
    unfold dateChar. now rewrite (Hs c Hc). }
  unfold Number_toString. destruct (n <? 0) eqn:E.
  - apply Z.ltb_lt in E. cbn [forallb].
    rewrite Hd by (apply dec_digits_digits; lia). reflexivity.
  - apply Z.ltb_ge in E. apply Hd. now apply dec_digits_digits.
Qed.

Lemma pad_chars (k : nat) (n : Z) : forallb dateChar (pad k n) = true.
Proof.
  unfold pad, padStart. rewrite forallb_app, Number_toString_chars.
  rewrite andb_true_r. apply forallb_forall. intros c Hc.
  apply repeat_spec in Hc. now subst c.
Qed.

Lemma utcDate_chars (t : Z) : forallb dateChar (utcDate t) = true.
Proof.
  unfold utcDate, isoYear.
  destruct ((0 <=? YearFromTime t) && (YearFromTime t <=? 9999));
    [|destruct (YearFromTime t <? 0)];
    cbn [forallb app]; rewrite !forallb_app, !pad_chars; reflexivity.
Qed.

Lemma split_first (sep : ascii) (a b : jsstring) :
  forallb (fun c => negb (Ascii.eqb c sep)) a = true ->
  split sep (a ++ sep :: b) = a :: split sep b.
Proof.
  induction a as [|c a IH]; simpl.
  - now rewrite Ascii.eqb_refl.
  - intros H. apply andb_prop in H as [Hc Ha].
    apply negb_true_iff in Hc. now rewrite Hc, (IH Ha).
Qed.

(** [toISOString().split('T')[0]] is the date part of the ISO string. *)
Lemma isoDate_utcDate (t : Z) :
  first_item (split "T" (toISOString t)) = VString (utcDate t).
Proof.
  unfold toISOString.
  replace (isoYear (YearFromTime t) ++ js "-" ++ pad 2 (MonthFromTime t + 1)
           ++ js "-" ++ pad 2 (DateFromTime t)
           ++ js "T" ++ pad 2 (HourFromTime t) ++ js ":"
           ++ pad 2 (MinFromTime t) ++ js ":" ++ pad 2 (SecFromTime t)
           ++ js "." ++ pad 3 (msFromTime t) ++ js "Z")
    with (utcDate t ++ "T"%char :: (pad 2 (HourFromTime t) ++ js ":"
           ++ pad 2 (MinFromTime t) ++ js ":" ++ pad 2 (SecFromTime t)
           ++ js "." ++ pad 3 (msFromTime t) ++ js "Z"))
    by (unfold utcDate; now rewrite <- !app_assoc).
  rewrite split_first; [reflexivity|].
  pose proof (utcDate_chars t) as H. rewrite forallb_forall in *.
  intros c Hc. specialize (H c Hc). revert H. clear. each_char c.
Qed.

Lemma jsstring_eqb_eq (a b : jsstring) : jsstring_eqb a b = true -> a = b.
Proof.
  revert b. induction a as [|x a IH]; intros [|y b]; simpl;
    try discriminate; [reflexivity|].
  intros H. apply andb_prop in H as [Hx Ha].
  apply Ascii.eqb_eq in Hx. now rewrite Hx, (IH b Ha).
Qed.

Lemma pad4_fourDigits (n : Z) : 0 <= n <= 9999 -> pad 4 n = fourDigits n.
Proof.
  intros Hn.
  assert (H : forallb (fun k => jsstring_eqb (pad 4 (Z.of_nat k))
                                             (fourDigits (Z.of_nat k)))
                      (List.seq 0 (Z.to_nat 10000)) = true)
    by (vm_compute; reflexivity).
  rewrite forallb_forall in H.
  rewrite <- (Z2Nat.id n) by lia. apply jsstring_eqb_eq, H.
  apply in_seq. lia.
Qed.

Lemma daysInMonth_most (y m : Z) : daysInMonth y m <= 31.
Proof.
  unfold daysInMonth.
  repeat match goal with
         | |- context [match ?x with _ => _ end] => destruct x
         end; lia.
Qed.

(** Between the years 0 and 9999 the date part has the shape YYYY-MM-DD. *)
Lemma utcDate_civilDate (t : Z) :
  0 <= YearFromTime t <= 9999 ->
  utcDate t = civilDate (YearFromTime t) (MonthFromTime t + 1) (DateFromTime t).
Proof.
  intros Hy. pose proof (civil_date t) as [Hm [Hd _]]. cbv zeta in *.
  assert (Hd' : 1 <= DateFromTime t <= 31).
  { pose proof (daysInMonth_most (YearFromTime t) (MonthFromTime t + 1)).
    lia. }
  unfold utcDate, civilDate, isoYear.
  replace ((0 <=? YearFromTime t) && (YearFromTime t <=? 9999)) with true
    by (symmetry; apply andb_true_intro; split; apply Z.leb_le; lia).
  now rewrite pad4_fourDigits, !pad2_twoDigits by lia.
Qed.





(** ** The Event hook *)

Section EventHookProperties.

Variable Date_parse : jsstring -> option Z.

Lemma eventPreSave_rejected (doc : EventDocument) (e : Error) :
  validation doc = (doc, Some e) ->
  eventPreSave Date_parse doc = (doc, Some e).
Proof. intros H. unfold eventPreSave. now apply seq_stop. Qed.

Lemma eventPreSave_validated (doc : EventDocument) :
  validation doc = (doc, None) ->
  eventPreSave Date_parse doc = normalization Date_parse doc.
Proof. intros H. unfold eventPreSave. now apply seq_fall. Qed.

Lemma validation_cases (doc : EventDocument) :
  (exists e, validation doc = (doc, Some e)) \/ validation doc = (doc, None).
Proof.
  rewrite validation_result.
  destruct (firstBlank doc); [left; eauto|].
  destruct (no_items (agenda doc)); [left; eauto|].
  destruct (no_items (tags doc)); [left; eauto|now right].
Qed.

(** C4.  The hook fails with the error that names the field when one of
    the listed string fields is not a string or is empty after trimming
    (the first such field, in the order of the list), and two fields have
    different errors.  It fails when agenda or tags is not a non-empty
    list, with the error of agenda or of tags when the string fields are
    filled.  When all these checks pass, validation falls through and the
    hook goes on with the normalization. *)
Theorem eventPreSave_validation :
  (forall doc field,
     In field requiredStringFields -> blank (get_path doc field) = true ->
     exists first,
       In first requiredStringFields /\ blank (get_path doc first) = true
       /\ firstBlank doc = Some first
       /\ eventPreSave Date_parse doc = (doc, Some (fieldError first)))
  /\ (forall f g, fieldError f = fieldError g -> f = g)
  /\ (forall doc,
        no_items (agenda doc) = true \/ no_items (tags doc) = true ->
        exists e, eventPreSave Date_parse doc = (doc, Some e))
  /\ (forall doc,
        allFilled doc -> no_items (agenda doc) = true ->
        eventPreSave Date_parse doc = (doc, Some agendaError))
  /\ (forall doc,
        allFilled doc -> no_items (agenda doc) = false ->
        no_items (tags doc) = true ->
        eventPreSave Date_parse doc = (doc, Some tagsError))
  /\ (forall doc,
        allFilled doc -> no_items (agenda doc) = false ->
        no_items (tags doc) = false ->
        validation doc = (doc, None)
        /\ eventPreSave Date_parse doc = normalization Date_parse doc).
Proof.
  split; [|split; [exact fieldError_names|split; [|split; [|split]]]].
  - intros doc field Hin Hb.
    destruct (firstBlank_Some doc field Hin Hb) as [first [Hf [Hin' Hb']]].
    exists first. repeat split; auto.
    apply eventPreSave_rejected. now rewrite validation_result, Hf.
  - intros doc H.
    assert (Hv : exists e, validation doc = (doc, Some e)).
    { rewrite validation_result. destruct (firstBlank doc); [eauto|].
      destruct (no_items (agenda doc)); [eauto|].
      destruct H as [H|H]; [discriminate|]. rewrite H. eauto. }
    destruct Hv as [e Hv]. exists e. now apply eventPreSave_rejected.
  - intros doc Hf Ha. apply firstBlank_None in Hf.
    apply eventPreSave_rejected. now rewrite validation_result, Hf, Ha.
  - intros doc Hf Ha Ht. apply firstBlank_None in Hf.
    apply eventPreSave_rejected. now rewrite validation_result, Hf, Ha, Ht.
  - intros doc Hf Ha Ht. apply firstBlank_None in Hf.
    assert (Hv : validation doc = (doc, None))
      by now rewrite validation_result, Hf, Ha, Ht.
    split; [exact Hv|]. now apply eventPreSave_validated.
Qed.

(** C7.  The hook leaves the slug as it is when the record is not new and
    its title is not modified, and likewise the date and the time for
    their own paths; with the three of them unmodified, an existing
    record leaves the hook as it entered it. *)
Theorem eventPreSave_frame :
  (forall doc,
     isNew doc = false -> isModified doc "title" = false ->
     slug (fst (eventPreSave Date_parse doc)) = slug doc)
  /\ (forall doc,
        isNew doc = false -> isModified doc "date" = false ->
        date (fst (eventPreSave Date_parse doc)) = date doc)
  /\ (forall doc,
        isNew doc = false -> isModified doc "time" = false ->
        time (fst (eventPreSave Date_parse doc)) = time doc)
  /\ (forall doc,
        isNew doc = false -> isModified doc "title" = false ->
        isModified doc "date" = false -> isModified doc "time" = false ->
        fst (eventPreSave Date_parse doc) = doc).
Proof.
  assert (Hcases : forall doc,
    fst (eventPreSave Date_parse doc) = doc
    \/ eventPreSave Date_parse doc = normalization Date_parse doc).
  { intros doc. destruct (validation_cases doc) as [[e H]|H].
    - left. now rewrite (eventPreSave_rejected _ _ H).
    - right. now apply eventPreSave_validated. }
  repeat split; intros doc Hnew; intros;
    (destruct (Hcases doc) as [-> | ->]; [reflexivity|]);
    destruct (normalization_steps Date_parse doc)
      as [v1 [v2 [v3 [e [-> [Hs1 [_ [Hs2 [_ [Hs3 _]]]]]]]]]];
    rewrite Hnew in *; cbn [orb fst] in *.
  - cbn. now apply Hs1.
  - cbn. now apply Hs2.
  - cbn. now apply Hs3.
  - rewrite Hs1, Hs2, Hs3 by assumption.
    change (time doc) with (time (set_date (date doc) (set_slug (slug doc) doc))).
    rewrite set_time_same.
    change (date doc) with (date (set_slug (slug doc) doc)).
    now rewrite set_date_same, set_slug_same.
Qed.


End EventHookProperties.


Lemma eventPreSave_validation_witness :
  eventPreSave parseDateOnly (sampleEvent "  " "2026-03-01" "9am")
  = (sampleEvent "  " "2026-03-01" "9am", Some (fieldError "title")).
Proof.
  destruct (proj1 (eventPreSave_validation parseDateOnly)
              (sampleEvent "  " "2026-03-01" "9am") "title"%string)
    as [first [_ [_ [Hf ->]]]]; [simpl; auto|reflexivity|].
  vm_compute in Hf. now injection Hf as <-.
Defined.

Lemma eventPreSave_frame_witness :
  let doc := storedEvent (sampleEvent "Rocq Days" "March 1" "9am") in
  fst (eventPreSave parseDateOnly doc) = doc.
Proof.
  intros doc.
  exact (proj2 (proj2 (proj2 (eventPreSave_frame parseDateOnly)))
           doc eq_refl eq_refl eq_refl eq_refl).
Defined.


(** C10.  A title made of code units outside [A-Za-z0-9] only has the
    empty slug.  "!!!" is such a title: it is a string that is not empty
    after trimming, so it passes the check of the required fields, and a
    new Event with this title leaves the hook without error and with the
    empty string as its slug. *)
Theorem slug_may_be_empty :
  (forall text,
     forallb (fun c => negb (is_alnum c)) text = true -> slugify text = [])
  /\ blank (VString (js "!!!")) = false
  /\ slugify (js "!!!") = []
  /\ (forall Date_parse doc text,
        validation doc = (doc, None) -> title doc = VString text ->
        forallb (fun c => negb (is_alnum c)) text = true ->
        isNew doc || isModified doc "title" = true ->
        slug (fst (eventPreSave Date_parse doc)) = VString [])
  /\ (let doc := sampleEvent "!!!" "2026-03-01" "9am" in
      validation doc = (doc, None)
      /\ snd (eventPreSave parseDateOnly doc) = None
      /\ slug (fst (eventPreSave parseDateOnly doc)) = VString []).
Proof.
  assert (Hempty : forall text,
    forallb (fun c => negb (is_alnum c)) text = true -> slugify text = []).
  { intros text H. rewrite slugify_slugOfTitle. unfold slugOfTitle.
    assert (Hl : forallb non_az09 (toLowerCase text) = true).
    { unfold toLowerCase. rewrite forallb_forall in *. intros c Hc.
      apply in_map_iff in Hc as [c0 [<- Hc0]]. specialize (H c0 Hc0).
      revert H. clear. each_char c0. }
    destruct (toLowerCase text) as [|c r]; [reflexivity|].
    cbn [forallb] in Hl. apply andb_prop in Hl as [Hc Hr].
    apply negb_true_iff in Hc.
    rewrite collapseRuns_run by exact Hc.
    rewrite dropWhile_all by exact Hr. reflexivity. }
  split; [exact Hempty|]. split; [reflexivity|]. split; [reflexivity|].
  split; [|repeat split; reflexivity].
  intros Date_parse doc text Hv Ht Htext Hcond.
  rewrite (eventPreSave_validated _ _ Hv).
  destruct (normalization_steps Date_parse doc)
    as [v1 [v2 [v3 [e [-> [_ [Hs1 _]]]]]]].
  cbn. rewrite (Hs1 Hcond text Ht). now rewrite Hempty.
Qed.

Lemma slug_may_be_empty_witness :
  slug (fst (eventPreSave parseDateOnly (sampleEvent "?!" "2026-03-01" "9am")))
  = VString [].
Proof.
  exact (proj1 (proj2 (proj2 (proj2 slug_may_be_empty)))
           parseDateOnly (sampleEvent "?!" "2026-03-01" "9am") (js "?!")
           eq_refl eq_refl eq_refl eq_refl).
Defined.

(** ** Bookings *)

Lemma trim_toLowerCase (raw : jsstring) :
  trim (toLowerCase raw) = toLowerCase (trim raw).
Proof. symmetry. apply toLowerCase_trim. Qed.

Lemma plus_Some {A} (p : ascii -> bool) (k : jsstring -> option A)
    (s : jsstring) (x : A) :
  plus p k s = Some x ->
  exists run r, s = run ++ r /\ run <> [] /\ forallb p run = true
                /\ k r = Some x.
Proof.
  unfold plus. intros H.
  apply one_Some in H as [c [r [-> [Hc H]]]].
  apply star_Some in H as [run [r' [-> [Hrun H]]]].
  exists (c :: run), r'. simpl. rewrite Hc, Hrun.
  repeat split; [discriminate|exact H].
Qed.

(** Some way of cutting the run lets the rest match: the star finds one. *)
Lemma star_split {A} (p : ascii -> bool) (k : jsstring -> option A)
    (run r : jsstring) :
  forallb p run = true -> k r <> None -> star p k (run ++ r) <> None.
Proof.
  intros Hrun Hk. induction run as [|c run IH].
  - destruct r as [|c r]; simpl; [exact Hk|].
    destruct (p c); [|exact Hk].
    destruct (star p k r); [discriminate|exact Hk].
  - simpl in *. apply andb_prop in Hrun as [-> Hrun].
    destruct (star p k (run ++ r)); [discriminate|]. now elim (IH Hrun).
Qed.

Lemma plus_split {A} (p : ascii -> bool) (k : jsstring -> option A)
    (run r : jsstring) :
  run <> [] -> forallb p run = true -> k r <> None ->
  plus p k (run ++ r) <> None.
Proof.
  intros Hne Hrun Hk. destruct run as [|c run]; [congruence|].
  simpl in Hrun. apply andb_prop in Hrun as [Hc Hrun].
  unfold plus. simpl. rewrite Hc. now apply star_split.
Qed.

(** The pattern of the source accepts the strings of the shape. *)
Lemma emailRegex_test_shape (s : jsstring) :
  emailRegex_test s = true <-> EmailShape s.
Proof.
  unfold emailRegex_test, emailRegex. split.
  - destruct (plus emailChar _ s) as [u|] eqn:E; [intros _|discriminate].
    apply plus_Some in E as [l [r1 [-> [Hl0 [Hl E]]]]].
    apply one_Some in E as [c1 [r2 [-> [Hc1 E]]]].
    apply plus_Some in E as [d [r3 [-> [Hd0 [Hd E]]]]].
    apply one_Some in E as [c2 [r4 [-> [Hc2 E]]]].
    apply plus_Some in E as [t [r5 [-> [Ht0 [Ht E]]]]].
    apply at_end_Some in E as [-> _].
    apply Ascii.eqb_eq in Hc1, Hc2. subst c1 c2.
    exists l, d, t. rewrite app_nil_r. now repeat split.
  - intros [l [d [t [-> [Hl0 [Hd0 [Ht0 [Hl [Hd Ht]]]]]]]]].
    destruct (plus emailChar _ _) eqn:E; [reflexivity|]. exfalso.
    revert E. apply plus_split; [exact Hl0|exact Hl|].
    cbn [js list_ascii_of_string app one is_char Ascii.eqb Bool.eqb].
    apply plus_split; [exact Hd0|exact Hd|].
    cbn [js list_ascii_of_string app one is_char Ascii.eqb Bool.eqb].
    rewrite <- (app_nil_r t).
    apply plus_split; [exact Ht0|exact Ht|discriminate].
Qed.

Section BookingHookProperties.

Variable Event_exists : ObjectId -> QueryOutcome.

(** The email check of the hook lets a document through exactly when its
    email has the shape. *)
Lemma bookingPreSave_email (doc : BookingDocument) :
  bookingPreSave Event_exists doc = NextError emailError
  <-> ~ exists s, email doc = Some s /\ EmailShape s.
Proof.
  unfold bookingPreSave. split.
  - intros H [s [Hs Hshape]]. rewrite Hs in H.
    apply emailRegex_test_shape in Hshape. rewrite Hshape in H.
    destruct s as [|c s]; [discriminate|]. cbn [truthy negb orb] in H.
    destruct (eventId doc) as [id|]; [|discriminate].
    destruct (Event_exists id) as [[found|]|reason]; discriminate.
  - intros H.
    destruct (email doc) as [s|]; [|reflexivity].
    destruct (emailRegex_test s) eqn:E.
    + exfalso. apply H. exists s. split; [reflexivity|].
      now apply emailRegex_test_shape.
    + now rewrite orb_true_r.
Qed.

(** C8.  The email of a Booking is trimmed and lowercased before it is
    stored, in either order, so "USER@Example.com" becomes
    "user@example.com".  The save fails with the email error unless the
    email has the shape local@domain.tld (each part non-empty and free of
    white space and of @), and does not fail with it when it has. *)
Theorem booking_email :
  (forall raw, castEmail raw = toLowerCase (trim raw))
  /\ (forall id raw,
        email (newBooking id (Some raw)) = Some (toLowerCase (trim raw)))
  /\ castEmail (js "USER@Example.com") = js "user@example.com"
  /\ (forall doc,
        (forall s, email doc = Some s -> ~ EmailShape s) ->
        bookingPreSave Event_exists doc = NextError emailError)
  /\ (forall doc s,
        email doc = Some s -> EmailShape s ->
        bookingPreSave Event_exists doc <> NextError emailError).
Proof.
  split; [exact trim_toLowerCase|].
  split; [intros id raw; simpl; f_equal; apply trim_toLowerCase|].
  split; [reflexivity|]. split.
  - intros doc H. apply bookingPreSave_email.
    intros [s [Hs Hshape]]. exact (H s Hs Hshape).
  - intros doc s Hs Hshape H. apply bookingPreSave_email in H.
    apply H. now exists s.
Qed.

Lemma bookingPreSave_reference (doc : BookingDocument) :
  (bookingPreSave Event_exists doc = NextError referenceError
   <-> exists s id,
         email doc = Some s /\ EmailShape s /\ eventId doc = Some id
         /\ Event_exists id = Resolves None)
  /\ (forall s id found,
        email doc = Some s -> EmailShape s -> eventId doc = Some id ->
        Event_exists id = Resolves (Some found) ->
        bookingPreSave Event_exists doc = NextPlain).
Proof.
  assert (Hpass : forall s, email doc = Some s -> EmailShape s ->
    bookingPreSave Event_exists doc =
    match eventId doc with
    | None => NextError eventIdError
    | Some id =>
        match Event_exists id with
        | Resolves None => NextError referenceError
        | Resolves (Some _) => NextPlain
        | Rejects reason => NextCaught reason
        end
    end).
  { intros s Hs Hshape. unfold bookingPreSave. rewrite Hs.
    apply emailRegex_test_shape in Hshape. rewrite Hshape.
    now destruct s. }
  split; [split|].
  - intros H.
    destruct (email doc) as [s|] eqn:Hs;
      [|unfold bookingPreSave in H; rewrite Hs in H; discriminate].
    destruct (emailRegex_test s) eqn:E.
    + apply emailRegex_test_shape in E.
      rewrite (Hpass s eq_refl E) in H.
      destruct (eventId doc) as [id|]; [|discriminate].
      destruct (Event_exists id) as [[found|]|reason] eqn:Eq;
        try discriminate.
      now exists s, id.
    + unfold bookingPreSave in H. rewrite Hs, E, orb_true_r in H.
      discriminate.
  - intros [s [id [Hs [Hshape [Hid Hq]]]]].
    now rewrite (Hpass s Hs Hshape), Hid, Hq.
  - intros s id found Hs Hshape Hid Hq.
    now rewrite (Hpass s Hs Hshape), Hid, Hq.
Qed.

End BookingHookProperties.

(** Against a collection, the query finds no Event exactly when no
    document of the collection has the id. *)
Lemma existsIn_none (events : list ObjectId) (id : ObjectId) :
  existsIn events id = Resolves None <-> ~ In id events.
Proof.
  unfold existsIn. split.
  - intros H Hin. injection H as H.
    apply (find_none _ _ H) in Hin. now rewrite N.eqb_refl in Hin.
  - intros H. destruct (find (N.eqb id) events) as [x|] eqn:E; [|reflexivity].
    apply find_some in E as [Hin Hx]. apply N.eqb_eq in Hx. now subst x.
Qed.

Lemma existsIn_found (events : list ObjectId) (id : ObjectId) :
  In id events -> existsIn events id = Resolves (Some id).
Proof.
  intros Hin. unfold existsIn.
  destruct (find (N.eqb id) events) as [x|] eqn:E.
  - apply find_some in E as [_ Hx]. apply N.eqb_eq in Hx. now subst x.
  - apply (find_none _ _ E) in Hin. now rewrite N.eqb_refl in Hin.
Qed.

(** C5.  The save of a Booking fails with the error "Referenced event
    does not exist." exactly when its email and eventId pass their checks
    and the existence query for the eventId finds no Event; when the
    query finds one, the save proceeds.  Against a collection of Events,
    a Booking that passes the two checks fails with this error exactly
    when no Event of the collection has its eventId. *)
Theorem booking_reference :
  (forall Event_exists doc,
     bookingPreSave Event_exists doc = NextError referenceError
     <-> exists s id,
           email doc = Some s /\ EmailShape s /\ eventId doc = Some id
           /\ Event_exists id = Resolves None)
  /\ (forall Event_exists doc s id found,
        email doc = Some s -> EmailShape s -> eventId doc = Some id ->
        Event_exists id = Resolves (Some found) ->
        bookingPreSave Event_exists doc = NextPlain)
  /\ (forall events doc s id,
        email doc = Some s -> EmailShape s -> eventId doc = Some id ->
        (bookingPreSave (existsIn events) doc = NextError referenceError
         <-> ~ In id events)
        /\ (In id events -> bookingPreSave (existsIn events) doc = NextPlain)).
Proof.
  split; [intros E doc; exact (proj1 (bookingPreSave_reference E doc))|].
  split; [intros E doc; exact (proj2 (bookingPreSave_reference E doc))|].
  intros events doc s id Hs Hshape Hid. split; [split|].
  - intros H. apply (proj1 (bookingPreSave_reference _ doc)) in H
      as [s' [id' [_ [_ [Hid' Hq]]]]].
    rewrite Hid in Hid'. injection Hid' as <-. now apply existsIn_none.
  - intros Hnot. apply (proj1 (bookingPreSave_reference _ doc)).
    exists s, id. repeat split; auto. now apply existsIn_none.
  - intros Hin.
    apply (proj2 (bookingPreSave_reference _ doc) s id id Hs Hshape Hid).
    now apply existsIn_found.
Qed.

Lemma booking_email_witness :
  bookingPreSave (existsIn [7%N])
    (newBooking (Some 7%N) (Some (js " USER@Example.com ")))
  <> NextError emailError.
Proof.
  apply (proj2 (proj2 (proj2 (proj2 (booking_email (existsIn [7%N])))))
           _ (js "user@example.com")).
  - reflexivity.
  - apply emailRegex_test_shape. reflexivity.
Defined.

Lemma booking_reference_witness :
  bookingPreSave (existsIn [7%N])
    (newBooking (Some 7%N) (Some (js "USER@Example.com"))) = NextPlain
  /\ bookingPreSave (existsIn [7%N])
       (newBooking (Some 8%N) (Some (js "USER@Example.com")))
     = NextError referenceError.
Proof.
  split.
  - apply (proj1 (proj2 booking_reference) (existsIn [7%N]) _
             (js "user@example.com") 7%N 7%N); try reflexivity.
    apply emailRegex_test_shape. reflexivity.
  - apply (proj1 booking_reference (existsIn [7%N]) _).
    exists (js "user@example.com"), 8%N. repeat split.
    apply emailRegex_test_shape. reflexivity.
Defined.

(** ** The connection cache *)

Lemma update_length {A} (l : list A) (i : nat) (x : A) :
  length (update l i x) = length l.
Proof.
  revert i. induction l as [|y l IH]; intros [|i]; simpl; auto.
Qed.

Lemma nth_error_update {A} (l : list A) (i j : nat) (x y : A) :
  nth_error (update l i x) j = Some y ->
  (i = j /\ y = x) \/ nth_error l j = Some y.
Proof.
  revert i j. induction l as [|z l IH]; intros [|i] [|j]; simpl; auto.
  - intros H. injection H as <-. now left.
  - intros H. destruct (IH i j H) as [[-> ->]|H']; auto.
Qed.

Lemma nth_error_snoc {A} (l : list A) (x y : A) (j : nat) :
  nth_error (l ++ [x]) j = Some y -> nth_error l j = Some y \/ y = x.
Proof.
  revert j. induction l as [|z l IH]; intros [|j]; simpl; auto.
  - intros H. injection H as <-. now right.
  - destruct j; discriminate.
Qed.

(** A call always runs, in one of three ways. *)
Lemma call_result (w : World) :
  call w = Some
    match conn (cached w), promise (cached w) with
    | Some h, _ =>
        mkWorld (cached w) (promises w) (calls w ++ [Returned h])
                (connectCalls w)
    | None, Some p =>
        mkWorld (cached w) (promises w) (calls w ++ [Awaiting p])
                (connectCalls w)
    | None, None =>
        mkWorld (mkCache None (Some (length (promises w))))
                (promises w ++ [Pending])
                (calls w ++ [Awaiting (length (promises w))])
                (S (connectCalls w))
    end.
Proof.
  unfold call. destruct (conn (cached w)) eqn:Ec; [reflexivity|].
  destruct (promise (cached w)) eqn:Ep; cbn; rewrite ?Ep, ?Ec; reflexivity.
Qed.

Lemma step_consistent (w w1 : World) (t : Turn) :
  consistent w -> step w t = Some w1 -> consistent w1.
Proof.
  intros [Hn [Hp [Ha Hc]]] Hstep. destruct t as [|p outcome|c]; simpl in Hstep.
  - rewrite call_result in Hstep. injection Hstep as <-.
    destruct (conn (cached w)) as [h|] eqn:Ec.
    + unfold consistent. cbn. rewrite Ec.
      split; [exact Hn|]. split; [|split; [|exact Hc]].
      * destruct (promise (cached w)); [exact Hp|].
        destruct Hp as [_ [_ Hp]]. congruence.
      * intros c p H. apply nth_error_snoc in H as [H|H]; [eauto|discriminate].
    + destruct (promise (cached w)) as [p|] eqn:Ep.
      * unfold consistent. cbn. rewrite Ep, Ec.
        split; [exact Hn|]. split; [exact Hp|]. split; [|exact Hc].
        intros c q H. apply nth_error_snoc in H as [H|H]; [eauto|].
        now injection H as ->.
      * destruct Hp as [Hp1 [Hp2 _]].
        unfold consistent. cbn. rewrite Hp1, Hp2 in *. cbn in *.
        split; [lia|]. split; [auto|]. split; [|discriminate].
        intros c q H. destruct c as [|[|c]]; cbn in H; try discriminate.
        now injection H as <-.
  - unfold settle in Hstep.
    destruct (nth_error (promises w) p) as [[|h|r]|] eqn:E;
      try discriminate.
    assert (Hw : w1 = mkWorld (cached w) (update (promises w) p outcome)
                              (calls w) (connectCalls w)).
    { destruct outcome; try discriminate; now injection Hstep as <-. }
    subst w1. unfold consistent. cbn. rewrite update_length.
    split; [exact Hn|]. split; [|split; [exact Ha|]].
    + destruct (promise (cached w)); [exact Hp|].
      destruct Hp as [Hp _]. rewrite Hp in E. now destruct p.
    + intros h Hh. specialize (Hc h Hh).
      destruct p as [|p]; [congruence|].
      destruct (promises w); [discriminate|exact Hc].
  - unfold resume in Hstep.
    destruct (nth_error (calls w) c) as [[p|h|r]|] eqn:Ecall;
      try discriminate.
    pose proof (Ha c p Ecall) as Hcached. rewrite Hcached in Hp.
    destruct Hp as [-> Hlen].
    destruct (nth_error (promises w) 0) as [[|h|r]|] eqn:E;
      try discriminate; injection Hstep as <-; unfold consistent; cbn;
      rewrite ?Hcached.
    + split; [exact Hn|]. split; [auto|]. split.
      * intros c' q H. apply nth_error_update in H as [[_ H]|H];
          [discriminate|rewrite <- Hcached; eauto].
      * intros h' Hh. injection Hh as <-. exact E.
    + split; [exact Hn|]. split; [auto|]. split.
      * intros c' q H. apply nth_error_update in H as [[_ H]|H];
          [discriminate|rewrite <- Hcached; eauto].
      * intros h Hh. specialize (Hc h Hh). discriminate.
Qed.

Lemma initial_consistent : consistent initial.
Proof. unfold consistent, initial. cbn. repeat split; try discriminate.
  intros c p H. now destruct c. Qed.

Lemma run_consistent (ts : list Turn) (w w1 : World) :
  consistent w -> run w ts = Some w1 -> consistent w1.
Proof.
  revert w. induction ts as [|t ts IH]; intros w Hinv Hrun; simpl in Hrun.
  - now injection Hrun as <-.
  - destruct (step w t) as [w2|] eqn:E; [|discriminate].
    exact (IH w2 (step_consistent _ _ _ Hinv E) Hrun).
Qed.

(** Once a promise is cached, no turn starts another attempt. *)
Lemma step_keeps_attempt (w w1 : World) (t : Turn) (p : PromiseId) :
  promise (cached w) = Some p -> step w t = Some w1 ->
  promise (cached w1) = Some p /\ connectCalls w1 = connectCalls w.
Proof.
  intros Hp Hstep. destruct t as [|q outcome|c]; simpl in Hstep.
  - rewrite call_result, Hp in Hstep. injection Hstep as <-.
    now destruct (conn (cached w)).
  - unfold settle in Hstep.
    destruct (nth_error (promises w) q) as [[|h|r]|]; try discriminate.
    destruct outcome; try discriminate; now injection Hstep as <-.
  - unfold resume in Hstep.
    destruct (nth_error (calls w) c) as [[q|h|r]|]; try discriminate.
    destruct (nth_error (promises w) q) as [[|h|r]|]; try discriminate;
      now injection Hstep as <-.
Qed.

Lemma run_connectCalls (ts : list Turn) (w w1 : World) :
  consistent w -> run w ts = Some w1 ->
  connectCalls w1 =
  match promise (cached w) with
  | Some _ => connectCalls w
  | None => if existsb isCall ts then 1%nat else 0%nat
  end.
Proof.
  revert w. induction ts as [|t ts IH]; intros w Hinv Hrun; simpl in Hrun.
  - injection Hrun as <-. destruct Hinv as [Hn [Hp _]].
    destruct (promise (cached w)); [reflexivity|].
    destruct Hp as [Hp _]. now rewrite Hn, Hp.
  - destruct (step w t) as [w2|] eqn:E; [|discriminate].
    pose proof (step_consistent _ _ _ Hinv E) as Hinv2.
    rewrite (IH w2 Hinv2 Hrun).
    destruct (promise (cached w)) as [p|] eqn:Ep.
    + destruct (step_keeps_attempt _ _ _ _ Ep E) as [-> ->]. reflexivity.
    + destruct Hinv as [Hn [Hp _]]. rewrite Ep in Hp.
      destruct Hp as [Hp1 [Hp2 Hp3]].
      destruct t as [|q outcome|c]; simpl in E.
      * rewrite call_result, Ep, Hp3 in E. injection E as <-. cbn.
        now rewrite Hn, Hp1.
      * unfold settle in E. rewrite Hp1 in E. now destruct q.
      * unfold resume in E. rewrite Hp2 in E. now destruct c.
Qed.

(** C9.  However many times [connectToDatabase] is called, and however
    the calls, the settling of the attempt and the continuations
    interleave, [mongoose.connect] is called exactly once as soon as
    there is one call.  A call can always be made; the calls that wait
    all wait for the one cached promise, and none of them goes on while
    it is pending.  Once it is fulfilled, the continuation of a waiting
    call puts the handle in the cache and returns it, and a call made
    after that returns the cached handle at once, with no other change
    and no new attempt.  Two calls before the first resolves make one
    attempt and await the same promise; when it is fulfilled both return
    its handle, and so does a third call made afterwards. *)
Theorem connectToDatabase_single_attempt :
  (forall ts w,
     run initial ts = Some w ->
     connectCalls w = if existsb isCall ts then 1%nat else 0%nat)
  /\ (forall ts w,
        run initial ts = Some w -> exists w1, step w Call = Some w1)
  /\ (forall ts w c p,
        run initial ts = Some w ->
        nth_error (calls w) c = Some (Awaiting p) ->
        p = 0%nat /\ promise (cached w) = Some p)
  /\ (forall ts w h,
        run initial ts = Some w -> conn (cached w) = Some h ->
        nth_error (promises w) 0 = Some (Fulfilled h)
        /\ step w Call =
           Some (mkWorld (cached w) (promises w) (calls w ++ [Returned h])
                         (connectCalls w)))
  /\ run initial [Call; Call]
     = Some (mkWorld (mkCache None (Some 0%nat)) [Pending]
                     [Awaiting 0%nat; Awaiting 0%nat] 1)
  /\ (forall ts w c p,
        run initial ts = Some w ->
        nth_error (calls w) c = Some (Awaiting p) ->
        nth_error (promises w) 0 = Some Pending ->
        step w (Resume c) = None)
  /\ (forall ts w c p h,
        run initial ts = Some w ->
        nth_error (calls w) c = Some (Awaiting p) ->
        nth_error (promises w) 0 = Some (Fulfilled h) ->
        step w (Resume c)
        = Some (mkWorld (mkCache (Some h) (Some 0%nat)) (promises w)
                        (update (calls w) c (Returned h)) (connectCalls w))
        /\ run w [Resume c; Call]
           = Some (mkWorld (mkCache (Some h) (Some 0%nat)) (promises w)
                           (update (calls w) c (Returned h) ++ [Returned h])
                           (connectCalls w)))
  /\ (forall h,
        run initial [Call; Call; Settle 0%nat (Fulfilled h); Resume 0%nat;
                     Resume 1%nat; Call]
        = Some (mkWorld (mkCache (Some h) (Some 0%nat)) [Fulfilled h]
                        [Returned h; Returned h; Returned h] 1)).
Proof.
  split; [|split; [|split; [|split; [|split; [|split; [|split]]]]]].
  - intros ts w Hrun.
    exact (run_connectCalls ts initial w initial_consistent Hrun).
  - intros ts w _. simpl. rewrite call_result. eauto.
  - intros ts w c p Hrun Hc.
    destruct (run_consistent _ _ _ initial_consistent Hrun)
      as [_ [Hp [Ha _]]].
    specialize (Ha c p Hc). rewrite Ha in Hp. now destruct Hp.
  - intros ts w h Hrun Hh.
    destruct (run_consistent _ _ _ initial_consistent Hrun)
      as [_ [_ [_ Hc]]].
    split; [exact (Hc h Hh)|]. simpl. now rewrite call_result, Hh.
  - reflexivity.
  - intros ts w c p Hrun Hc Hpend.
    destruct (run_consistent _ _ _ initial_consistent Hrun)
      as [_ [Hp [Ha _]]].
    pose proof (Ha c p Hc) as Hcached. rewrite Hcached in Hp.
    destruct Hp as [-> _].
    cbn [step]. unfold resume. now rewrite Hc, Hpend.
  - intros ts w c p h Hrun Hc Hf.
    destruct (run_consistent _ _ _ initial_consistent Hrun)
      as [_ [Hp [Ha _]]].
    pose proof (Ha c p Hc) as Hcached. rewrite Hcached in Hp.
    destruct Hp as [-> _].
    assert (Hstep : step w (Resume c)
      = Some (mkWorld (mkCache (Some h) (Some 0%nat)) (promises w)
                      (update (calls w) c (Returned h)) (connectCalls w))).
    { cbn [step]. unfold resume. now rewrite Hc, Hf, Hcached. }
    split; [exact Hstep|].
    cbn [run]. rewrite Hstep. cbn [step]. rewrite call_result. reflexivity.
  - intros h. reflexivity.
Qed.

Lemma connectToDatabase_single_attempt_witness :
  run initial [Call; Call; Settle 0%nat (Fulfilled 5%nat)]
  = Some (mkWorld (mkCache None (Some 0%nat)) [Fulfilled 5%nat]
                  [Awaiting 0%nat; Awaiting 0%nat] 1)
  /\ run (mkWorld (mkCache None (Some 0%nat)) [Fulfilled 5%nat]
                  [Awaiting 0%nat; Awaiting 0%nat] 1)
         [Resume 1%nat; Call]
     = Some (mkWorld (mkCache (Some 5%nat) (Some 0%nat)) [Fulfilled 5%nat]
                     [Awaiting 0%nat; Returned 5%nat; Returned 5%nat] 1).
Proof.
  split; [reflexivity|].
  exact (proj2
           (proj1 (proj2 (proj2 (proj2 (proj2 (proj2 (proj2
              connectToDatabase_single_attempt))))))
              [Call; Call; Settle 0%nat (Fulfilled 5%nat)]
              (mkWorld (mkCache None (Some 0%nat)) [Fulfilled 5%nat]
                       [Awaiting 0%nat; Awaiting 0%nat] 1)
              1%nat 0%nat 5%nat eq_refl eq_refl eq_refl)).
Defined.

(** C3.  What the code does when the first attempt rejects: the rejected
    promise stays in [cached.promise], so a later call makes no new
    attempt and is rejected with the reason of the first one. *)
Theorem rejection_stays_cached (reason : string) :
  run initial [Call; Settle 0%nat (Rejected reason); Resume 0%nat; Call;
               Resume 1%nat]
  = Some (mkWorld (mkCache None (Some 0%nat)) [Rejected reason]
                  [Threw reason; Threw reason] 1).
Proof. reflexivity. Qed.

(** ** Slugs as a normal form *)

(** The code units of a [jsstring] are those from 0 to 255. *)
Lemma code_range (c : ascii) : 0 <= code c <= 255.
Proof.
  unfold code. pose proof (N_ascii_bounded c) as H. lia.
Qed.

Lemma lower_lower (c : ascii) : lower_char (lower_char c) = lower_char c.
Proof. each_char c. Qed.

Lemma toLowerCase_idempotent (s : jsstring) :
  toLowerCase (toLowerCase s) = toLowerCase s.
Proof.
  unfold toLowerCase. rewrite map_map. apply map_ext. exact lower_lower.
Qed.

Lemma slug_char_lower (c : ascii) :
  is_az09 c || is_dash c = true -> lower_char c = c.
Proof. each_char c. Qed.

Lemma non_alnum_lower (c : ascii) :
  is_alnum c = false -> is_az09 (lower_char c) = false.
Proof. each_char c. Qed.

Lemma alnum_lower (c : ascii) :
  is_alnum c = true -> is_az09 (lower_char c) = true.
Proof. each_char c. Qed.

Lemma is_dash_eq (c : ascii) : is_dash c = true -> c = "-"%char.
Proof. unfold is_dash, is_char. apply Ascii.eqb_eq. Qed.

Lemma dash_not_az09 (c : ascii) : is_dash c = true -> is_az09 c = false.
Proof.
  intros H. destruct (is_az09 c) eqn:E; [|reflexivity].
  apply az09_not_dash in E. congruence.
Qed.

Lemma collapseRuns_fixed (s : jsstring) :
  slugChars s = true -> singleDashes s = true -> collapseRuns s = s.
Proof.
  induction s as [|c r IH]; [reflexivity|].
  intros Hc Hs. unfold slugChars in Hc. cbn [forallb] in Hc.
  apply andb_prop in Hc as [Hc Hr].
  pose proof (singleDashes_tail _ _ Hs) as Hs'.
  specialize (IH Hr Hs').
  destruct (is_az09 c) eqn:Ec.
  - rewrite collapseRuns_head by exact Ec. now rewrite IH.
  - cbn [orb] in Hc. pose proof (is_dash_eq _ Hc) as ->.
    destruct r as [|c2 r'].
    + reflexivity.
    + rewrite singleDashes_cons in Hs. apply andb_prop in Hs as [Hd _].
      rewrite Hc in Hd. cbn [andb] in Hd. apply negb_true_iff in Hd.
      cbn [forallb] in Hr. apply andb_prop in Hr as [Hc2 _].
      rewrite Hd, orb_false_r in Hc2.
      change (collapseRuns ("-"%char :: c2 :: r'))
        with (if is_az09 "-" then "-"%char :: collapseRuns (c2 :: r')
              else if is_az09 c2 then js "-" ++ collapseRuns (c2 :: r')
                   else collapseRuns (c2 :: r')).
      rewrite Ec, Hc2, IH. reflexivity.
Qed.

Lemma stripDashes_fixed (s : jsstring) :
  noEdgeDash s = true -> stripDashes s = s.
Proof.
  destruct s as [|c r]; [reflexivity|].
  intros H. cbn [noEdgeDash] in H. apply andb_prop in H as [Hh Hl].
  apply negb_true_iff in Hh. apply negb_true_iff in Hl.
  unfold stripDashes. cbn [dropWhile]. rewrite Hh.
  destruct (exists_last (l := c :: r)) as [t [l E]]; [discriminate|].
  rewrite E in Hl |- *. rewrite last_last in Hl.
  rewrite dropWhileEnd_snoc, Hl. reflexivity.
Qed.

Lemma slugify_fixed (s : jsstring) :
  slugChars s = true -> singleDashes s = true -> noEdgeDash s = true ->
  slugify s = s.
Proof.
  intros Hc Hs He. rewrite slugify_slugOfTitle. unfold slugOfTitle.
  assert (Hl : toLowerCase s = s).
  { apply (map_fixed (fun c => is_az09 c || is_dash c));
      [exact slug_char_lower | exact Hc]. }
  rewrite Hl, collapseRuns_fixed by assumption.
  now apply stripDashes_fixed.
Qed.

(** X1.  The slugs are the fixed points of [slugify]: a string is its
    own slug exactly when it has only the code units [a-z0-9-], no two
    dashes in a row and no dash at either end.  So [slugify] is
    idempotent: the slug of a slug is that slug. *)
Theorem slugify_idempotent :
  (forall s,
     slugify s = s
     <-> slugChars s = true /\ singleDashes s = true /\ noEdgeDash s = true)
  /\ (forall title, slugify (slugify title) = slugify title).
Proof.
  assert (Hshape : forall title,
    slugChars (slugify title) = true /\ singleDashes (slugify title) = true
    /\ noEdgeDash (slugify title) = true).
  { intros title. rewrite slugify_slugOfTitle. apply slugOfTitle_shape. }
  split.
  - intros s. split.
    + intros H. rewrite <- H. apply Hshape.
    + intros [Hc [Hs He]]. now apply slugify_fixed.
  - intros title. destruct (Hshape title) as [Hc [Hs He]].
    now apply slugify_fixed.
Qed.

Lemma collapseRuns_lead_run (pre x : jsstring) :
  forallb non_az09 pre = true ->
  dropWhile is_dash (collapseRuns (pre ++ x)) = dropWhile is_dash (collapseRuns x).
Proof.
  induction pre as [|c r IH]; [reflexivity|].
  cbn [forallb]. intros H. apply andb_prop in H as [Hc Hr].
  apply negb_true_iff in Hc.
  rewrite <- app_comm_cons, collapseRuns_lead by exact Hc. now apply IH.
Qed.

Lemma collapseRuns_trail_run (x post : jsstring) :
  forallb non_az09 post = true ->
  dropWhileEnd is_dash (collapseRuns (x ++ post))
  = dropWhileEnd is_dash (collapseRuns x).
Proof.
  induction post as [|c r IH] using rev_ind.
  - now rewrite app_nil_r.
  - rewrite forallb_app. cbn [forallb]. intros H.
    apply andb_prop in H as [Hr Hc]. rewrite andb_true_r in Hc.
    apply negb_true_iff in Hc.
    rewrite app_assoc, collapseRuns_trail by exact Hc. now apply IH.
Qed.

Lemma slugOfTitle_edges (pre x post : jsstring) :
  forallb non_az09 pre = true -> forallb non_az09 post = true ->
  stripDashes (collapseRuns (pre ++ x ++ post)) = stripDashes (collapseRuns x).
Proof.
  intros Hpre Hpost. unfold stripDashes.
  rewrite collapseRuns_lead_run by exact Hpre.
  rewrite !dropWhile_dropWhileEnd.
  now rewrite collapseRuns_trail_run by exact Hpost.
Qed.

Lemma lower_non_alnum (s : jsstring) :
  forallb (fun c => negb (is_alnum c)) s = true ->
  forallb non_az09 (toLowerCase s) = true.
Proof.
  intros H. unfold toLowerCase. rewrite forallb_forall in *. intros c Hc.
  apply in_map_iff in Hc as [c0 [<- Hc0]]. specialize (H c0 Hc0).
  unfold non_az09. apply negb_true_iff in H. now rewrite non_alnum_lower.
Qed.

(** X2.  [slugify] sees neither the case of the title nor what stands
    around it: two titles with the same lower-case form have the same
    slug, and code units from 0 to 255 that are outside [A-Za-z0-9]
    (white space, punctuation, dashes, accented letters), put before and
    after a title, do not change its slug.  The range matters: the Kelvin
    sign U+212A is outside [A-Za-z0-9] too, lower-cases to k, and does
    change the slug; it is no code unit of a [jsstring]. *)
Theorem slugify_ignores_case_and_edges :
  (forall c : ascii, 0 <= code c <= 255)
  /\ (forall s t, toLowerCase s = toLowerCase t -> slugify s = slugify t)
  /\ (forall pre s post,
        forallb (fun c => negb (is_alnum c)) pre = true ->
        forallb (fun c => negb (is_alnum c)) post = true ->
        slugify (pre ++ s ++ post) = slugify s).
Proof.
  split; [exact code_range|]. split.
  - intros s t H. rewrite !slugify_slugOfTitle. unfold slugOfTitle.
    now rewrite H.
  - intros pre s post Hpre Hpost. rewrite !slugify_slugOfTitle.
    unfold slugOfTitle, toLowerCase. rewrite !map_app.
    apply slugOfTitle_edges; now apply lower_non_alnum.
Qed.

Lemma slugify_ignores_case_and_edges_witness :
  slugify (js " -- " ++ js "Rocq Days" ++ js "!?") = slugify (js "Rocq Days").
Proof.
  exact (proj2 (proj2 slugify_ignores_case_and_edges)
           (js " -- ") (js "Rocq Days") (js "!?") eq_refl eq_refl).
Defined.

Lemma collapseRuns_letters (s : jsstring) :
  filter is_az09 (collapseRuns s) = filter is_az09 s.
Proof.
  induction s as [|c r IH]; [reflexivity|].
  destruct (is_az09 c) eqn:Ec.
  - rewrite collapseRuns_head by exact Ec. cbn [filter]. now rewrite Ec, IH.
  - cbn [filter]. rewrite Ec. destruct r as [|c2 r'].
    + cbn [collapseRuns]. rewrite Ec. reflexivity.
    + change (collapseRuns (c :: c2 :: r'))
        with (if is_az09 c then c :: collapseRuns (c2 :: r')
              else if is_az09 c2 then js "-" ++ collapseRuns (c2 :: r')
                   else collapseRuns (c2 :: r')).
      rewrite Ec. destruct (is_az09 c2) eqn:Ec2; [|exact IH].
      rewrite js_dash_app. cbn [filter].
      change (is_az09 "-") with false. cbv iota. exact IH.
Qed.

Lemma filter_dashes (s : jsstring) :
  forallb is_dash s = true -> filter is_az09 s = [].
Proof.
  induction s as [|c r IH]; [reflexivity|].
  cbn [forallb filter]. intros H. apply andb_prop in H as [Hc Hr].
  now rewrite (dash_not_az09 _ Hc), IH.
Qed.

Lemma filter_non_az09 (s : jsstring) :
  forallb non_az09 s = true -> filter is_az09 s = [].
Proof.
  induction s as [|c r IH]; [reflexivity|].
  cbn [forallb filter]. intros H. apply andb_prop in H as [Hc Hr].
  unfold non_az09 in Hc. apply negb_true_iff in Hc. rewrite Hc.
  now apply IH.
Qed.

Lemma stripDashes_letters (s : jsstring) :
  filter is_az09 (stripDashes s) = filter is_az09 s.
Proof.
  destruct (stripDashes_parts s) as [pre [post [E [Hpre Hpost]]]].
  rewrite E at 2. rewrite !filter_app.
  now rewrite (filter_dashes _ Hpre), (filter_dashes _ Hpost), app_nil_r.
Qed.

Lemma slugify_letters (title : jsstring) :
  filter is_az09 (slugify title) = filter is_az09 (toLowerCase title).
Proof.
  rewrite slugify_slugOfTitle. unfold slugOfTitle.
  now rewrite stripDashes_letters, collapseRuns_letters.
Qed.

Lemma collapseRuns_length (s : jsstring) :
  (length (collapseRuns s) <= length s)%nat.
Proof.
  induction s as [|c r IH]; [apply Nat.le_refl|].
  destruct (is_az09 c) eqn:Ec.
  - rewrite collapseRuns_head by exact Ec. cbn [length]. lia.
  - destruct r as [|c2 r'].
    + cbn [collapseRuns]. rewrite Ec. cbn. lia.
    + change (collapseRuns (c :: c2 :: r'))
        with (if is_az09 c then c :: collapseRuns (c2 :: r')
              else if is_az09 c2 then js "-" ++ collapseRuns (c2 :: r')
                   else collapseRuns (c2 :: r')).
      rewrite Ec. destruct (is_az09 c2).
      * rewrite js_dash_app. cbn [length] in *. lia.
      * cbn [length] in *. lia.
Qed.

Lemma stripDashes_length (s : jsstring) :
  (length (stripDashes s) <= length s)%nat.
Proof.
  destruct (stripDashes_parts s) as [pre [post [E _]]].
  rewrite E at 2. rewrite !length_app. lia.
Qed.

Lemma slug_without_letters (s : jsstring) :
  slugChars s = true -> noEdgeDash s = true -> filter is_az09 s = [] ->
  s = [].
Proof.
  destruct s as [|c r]; [reflexivity|].
  unfold slugChars. cbn [forallb noEdgeDash filter]. intros Hc He Hf.
  apply andb_prop in Hc as [Hc _]. apply andb_prop in He as [He _].
  apply negb_true_iff in He. rewrite He, orb_false_r in Hc.
  rewrite Hc in Hf. discriminate.
Qed.

(** X3.  On a title of code units from 0 to 255, [slugify] keeps every
    letter and digit of the title, in order and in lower case, and adds
    only dashes: the code units [a-z0-9] of the slug are those of the
    lower-cased title.  The slug of such a title is empty exactly when
    the title has no code unit of [A-Za-z0-9], and it is never longer
    than the title.  The range matters for the last two: beyond it,
    U+212A has the slug k, and U+0130 lower-cases to two code units. *)
Theorem slugify_keeps_letters :
  (forall c : ascii, 0 <= code c <= 255)
  /\ (forall title,
        filter is_az09 (slugify title) = filter is_az09 (toLowerCase title))
  /\ (forall title,
        slugify title = []
        <-> forallb (fun c => negb (is_alnum c)) title = true)
  /\ (forall title, (length (slugify title) <= length title)%nat).
Proof.
  split; [exact code_range|]. split; [exact slugify_letters|]. split.
  - intros title. split.
    + intros H. pose proof (slugify_letters title) as Hf.
      rewrite H in Hf. cbn [filter] in Hf.
      apply forallb_forall. intros c Hc.
      destruct (is_alnum c) eqn:Ea; [|reflexivity].
      assert (Hin : In (lower_char c) (filter is_az09 (toLowerCase title))).
      { apply filter_In. split.
        - unfold toLowerCase. now apply in_map.
        - now apply alnum_lower. }
      rewrite <- Hf in Hin. destruct Hin.
    + intros H. pose proof (slugify_letters title) as Hf.
      assert (Hn : filter is_az09 (toLowerCase title) = []).
      { apply filter_non_az09. now apply lower_non_alnum. }
      rewrite Hn in Hf.
      rewrite slugify_slugOfTitle in *.
      destruct (slugOfTitle_shape title) as [Hc [_ He]].
      now apply slug_without_letters.
  - intros title. rewrite slugify_slugOfTitle. unfold slugOfTitle.
    etransitivity; [apply stripDashes_length|].
    etransitivity; [apply collapseRuns_length|].
    unfold toLowerCase. rewrite length_map. apply Nat.le_refl.
Qed.

(** ** Times as a normal form *)

Lemma trim_edges (s : jsstring) :
  headNot is_space (trim s) /\ headNot is_space (rev (trim s)).
Proof.
  split.
  - unfold trim. rewrite dropWhile_dropWhileEnd.
    destruct (dropWhile is_space (dropWhileEnd is_space s)) as [|c r] eqn:E;
      [exact I|].
    exact (dropWhile_head _ _ _ _ E).
  - unfold trim, dropWhileEnd. rewrite rev_involutive.
    destruct (dropWhile is_space (rev (dropWhile is_space s))) as [|c r] eqn:E;
      [exact I|].
    exact (dropWhile_head _ _ _ _ E).
Qed.

Lemma trim_around (pre s post : jsstring) :
  allSpace pre -> allSpace post -> trim (pre ++ s ++ post) = trim s.
Proof.
  intros Hpre Hpost.
  destruct (trim_parts s) as [lead [trail [E [Hlead Htrail]]]].
  destruct (trim_edges s) as [Hh Hl].
  rewrite E at 1.
  replace (pre ++ (lead ++ trim s ++ trail) ++ post)
    with ((pre ++ lead) ++ trim s ++ (trail ++ post))
    by now rewrite <- !app_assoc.
  apply trim_core; try assumption; unfold allSpace in *;
    rewrite forallb_app; now apply andb_true_intro.
Qed.

Lemma trim_idempotent (s : jsstring) : trim (trim s) = trim s.
Proof.
  destruct (trim_edges s) as [Hh Hl].
  rewrite <- (app_nil_r (trim s)) at 1.
  exact (trim_core [] (trim s) [] eq_refl eq_refl Hh Hl).
Qed.

Lemma twoDigits_digits (n : Z) :
  0 <= n <= 99 -> allDigits (twoDigits n) /\ parseInt10 (twoDigits n) = n.
Proof.
  intros Hn.
  assert (H1 : 0 <= n / 10 <= 9) by (Z.div_mod_to_equations; lia).
  assert (H2 : 0 <= n mod 10 <= 9) by (Z.div_mod_to_equations; lia).
  unfold allDigits, twoDigits, parseInt10. cbn [forallb parse_digits].
  rewrite !digit_char_digit by assumption.
  rewrite !code_digit_char by assumption.
  split; [reflexivity|]. Z.div_mod_to_equations; lia.
Qed.

Lemma canonical_timeText (h m : Z) :
  0 <= h <= 99 -> 0 <= m <= 99 ->
  isTimeText (twoDigits h ++ js ":" ++ twoDigits m) h m None.
Proof.
  intros Hh Hm.
  destruct (twoDigits_digits h Hh) as [Hdh Hvh].
  destruct (twoDigits_digits m Hm) as [Hdm Hvm].
  exists [], (twoDigits h), (js ":" ++ twoDigits m), [], [].
  split; [now rewrite !app_nil_r|].
  split; [reflexivity|]. split; [reflexivity|].
  split; [|split].
  - split; [now right|]. now split.
  - right. exists (twoDigits m). now repeat split.
  - left. now split.
Qed.

Lemma normalizeTime_canonical (h m : Z) :
  0 <= h <= 23 -> 0 <= m <= 59 ->
  normalizeTime (twoDigits h ++ js ":" ++ twoDigits m)
  = Some (twoDigits h ++ js ":" ++ twoDigits m).
Proof.
  intros Hh Hm.
  rewrite (normalizeTime_timeText _ h m None)
    by (apply canonical_timeText; lia).
  unfold timeOf.
  replace ((m <? 0) || (59 <? m)) with false
    by (symmetry; apply orb_false_iff; split; apply Z.ltb_ge; lia).
  replace ((h <? 0) || (23 <? h)) with false
    by (symmetry; apply orb_false_iff; split; apply Z.ltb_ge; lia).
  reflexivity.
Qed.

Lemma normalizeTime_range (s r : jsstring) :
  normalizeTime s = Some r ->
  exists h m,
    0 <= h <= 23 /\ 0 <= m <= 59 /\ r = twoDigits h ++ js ":" ++ twoDigits m.
Proof.
  intros H.
  destruct (normalizeTime_Some _ _ H) as [h [m [p Ht]]].
  rewrite (normalizeTime_timeText _ _ _ _ Ht) in H.
  unfold timeOf in H.
  destruct ((m <? 0) || (59 <? m)) eqn:Em; [discriminate|].
  apply orb_false_iff in Em as [Em1 Em2].
  apply Z.ltb_ge in Em1. apply Z.ltb_ge in Em2.
  destruct p as [period|].
  - destruct ((h <? 1) || (12 <? h)) eqn:Eh; [discriminate|].
    apply orb_false_iff in Eh as [Eh1 Eh2].
    apply Z.ltb_ge in Eh1. apply Z.ltb_ge in Eh2.
    injection H as <-. exists (to24 h period), m.
    split; [|split; [lia|reflexivity]].
    unfold to24. destruct period; destruct (h =? 12) eqn:E;
      try apply Z.eqb_neq in E; lia.
  - destruct ((h <? 0) || (23 <? h)) eqn:Eh; [discriminate|].
    apply orb_false_iff in Eh as [Eh1 Eh2].
    apply Z.ltb_ge in Eh1. apply Z.ltb_ge in Eh2.
    injection H as <-. exists h, m. split; [lia|split; [lia|reflexivity]].
Qed.

(** X4.  Whatever the input, a result of [normalizeTime] that is not null
    is a time of day in the form HH:MM: two digits of hours from 00 to 23,
    a colon, two digits of minutes from 00 to 59; five code units, digits
    and one colon. *)
Theorem normalizeTime_output (s r : jsstring) :
  normalizeTime s = Some r ->
  (exists h m,
     0 <= h <= 23 /\ 0 <= m <= 59
     /\ r = twoDigits h ++ js ":" ++ twoDigits m)
  /\ length r = 5%nat
  /\ forallb (fun c => is_digit c || is_char ":" c) r = true.
Proof.
  intros H. destruct (normalizeTime_range _ _ H) as [h [m [Hh [Hm ->]]]].
  split; [now exists h, m|]. split; [reflexivity|].
  destruct (twoDigits_digits h) as [Hdh _]; [lia|].
  destruct (twoDigits_digits m) as [Hdm _]; [lia|].
  unfold allDigits, twoDigits in *. cbn [forallb] in Hdh, Hdm.
  apply andb_prop in Hdh as [H1 H2]. apply andb_prop in H2 as [H2 _].
  apply andb_prop in Hdm as [H3 H4]. apply andb_prop in H4 as [H4 _].
  cbn [app js list_ascii_of_string forallb].
  now rewrite H1, H2, H3, H4.
Qed.

Lemma normalizeTime_output_witness :
  (exists h m,
     0 <= h <= 23 /\ 0 <= m <= 59
     /\ js "13:30" = twoDigits h ++ js ":" ++ twoDigits m)
  /\ length (js "13:30") = 5%nat
  /\ forallb (fun c => is_digit c || is_char ":" c) (js "13:30") = true.
Proof.
  exact (normalizeTime_output (js " 1:30 PM") (js "13:30") eq_refl).
Defined.

(** X5.  [normalizeTime] is idempotent: it returns each of its results
    unchanged.  Its fixed points are exactly the times HH:MM with hours
    from 00 to 23 and minutes from 00 to 59. *)
Theorem normalizeTime_idempotent :
  (forall s r, normalizeTime s = Some r -> normalizeTime r = Some r)
  /\ (forall r,
        normalizeTime r = Some r
        <-> exists h m,
              0 <= h <= 23 /\ 0 <= m <= 59
              /\ r = twoDigits h ++ js ":" ++ twoDigits m).
Proof.
  split.
  - intros s r H. destruct (normalizeTime_range _ _ H) as [h [m [Hh [Hm ->]]]].
    now apply normalizeTime_canonical.
  - intros r. split.
    + apply normalizeTime_range.
    + intros [h [m [Hh [Hm ->]]]]. now apply normalizeTime_canonical.
Qed.

Lemma normalizeTime_idempotent_witness :
  normalizeTime (js "13:30") = Some (js "13:30").
Proof.
  exact (proj1 normalizeTime_idempotent (js "1:30 pm") (js "13:30") eq_refl).
Defined.

(** X6.  [normalizeTime] sees neither the case of its input nor the white
    space around it: two inputs with the same lower-case form have the
    same result, and so have an input and the same input with white space
    before and after. *)
Theorem normalizeTime_ignores_case_and_spaces :
  (forall s t, toLowerCase s = toLowerCase t -> normalizeTime s = normalizeTime t)
  /\ (forall pre s post,
        allSpace pre -> allSpace post ->
        normalizeTime (pre ++ s ++ post) = normalizeTime s).
Proof.
  split.
  - intros s t H. unfold normalizeTime.
    now rewrite !toLowerCase_trim, H.
  - intros pre s post Hpre Hpost. unfold normalizeTime.
    now rewrite trim_around.
Qed.

Lemma normalizeTime_ignores_case_and_spaces_witness :
  normalizeTime (js " " ++ js "9AM" ++ js "  ") = normalizeTime (js "9AM").
Proof.
  exact (proj2 normalizeTime_ignores_case_and_spaces
           (js " ") (js "9AM") (js "  ") eq_refl eq_refl).
Defined.

(** ** Dates that are already in the ISO form *)

Lemma YearFromDay_unique (d y : Z) :
  DayFromYear y <= d < DayFromYear (y + 1) -> YearFromDay d = y.
Proof.
  intros [Hlo Hhi].
  pose proof (YearFromDay_largest d y Hlo) as Hle.
  pose proof (YearFromDay_bounds d) as [Hb _].
  apply Zle_lt_or_eq in Hle as [Hlt|Heq]; [|now symmetry].
  assert (Hy : y + 1 <= YearFromDay d) by lia.
  apply Zle_lt_or_eq in Hy as [Hy|Hy].
  - pose proof (DayFromYear_increasing _ _ Hy). lia.
  - rewrite <- Hy in Hb. lia.
Qed.

Lemma month_cases (m : Z) :
  1 <= m <= 12 ->
  m = 1 \/ m = 2 \/ m = 3 \/ m = 4 \/ m = 5 \/ m = 6 \/ m = 7 \/ m = 8
  \/ m = 9 \/ m = 10 \/ m = 11 \/ m = 12.
Proof. lia. Qed.

Lemma day_in_year (y m d : Z) :
  1 <= m <= 12 -> 1 <= d <= daysInMonth y m ->
  0 <= daysBeforeMonth y m + d - 1 < DaysInYear y.
Proof.
  intros Hm Hd. unfold DaysInYear, daysBeforeMonth, daysInMonth in *.
  destruct (month_cases m Hm)
    as [-> | [-> | [-> | [-> | [-> | [-> | [-> | [-> | [-> | [-> | [-> | ->]]]]]]]]]]];
    destruct (isLeapYear y); cbv beta iota zeta in *; lia.
Qed.

(** The time value of midnight UTC of a calendar date has that date. *)
Lemma date_of_civil (y m d : Z) :
  1 <= m <= 12 -> 1 <= d <= daysInMonth y m ->
  let t := msPerDay * (DayFromYear y + daysBeforeMonth y m + d - 1) in
  YearFromTime t = y /\ MonthFromTime t + 1 = m /\ DateFromTime t = d.
Proof.
  intros Hm Hd t.
  pose proof (day_in_year y m d Hm Hd) as Hr.
  assert (HD : Day t = DayFromYear y + daysBeforeMonth y m + d - 1).
  { unfold Day, t. rewrite Z.mul_comm. apply Z.div_mul. discriminate. }
  assert (HY : YearFromTime t = y).
  { unfold YearFromTime. rewrite HD. apply YearFromDay_unique.
    rewrite DayFromYear_next. lia. }
  split; [exact HY|].
  assert (HW : DayWithinYear t = daysBeforeMonth y m + d - 1)
    by (unfold DayWithinYear; rewrite HY, HD; lia).
  unfold DateFromTime, MonthFromTime, InLeapYear.
  rewrite HW, HY. clear HD HY HW t.
  unfold DaysInYear, daysBeforeMonth, daysInMonth in *.
  destruct (month_cases m Hm)
    as [-> | [-> | [-> | [-> | [-> | [-> | [-> | [-> | [-> | [-> | [-> | ->]]]]]]]]]]];
    destruct (isLeapYear y); cbv beta iota zeta in Hd, Hr |- *;
    repeat match goal with
           | |- context [if ?c then _ else _] =>
               let E := fresh "E" in
               destruct c eqn:E;
               [apply Z.ltb_lt in E | apply Z.ltb_ge in E]
           end;
    cbv beta iota zeta; lia.
Qed.

Lemma digit_char_code (c : ascii) :
  is_digit c = true -> digit_char (code c - 48) = c.
Proof. each_char c. Qed.

Lemma twoDigits_read (a b : ascii) :
  is_digit a = true -> is_digit b = true ->
  0 <= parseInt10 [a; b] <= 99 /\ twoDigits (parseInt10 [a; b]) = [a; b].
Proof.
  intros Ha Hb.
  assert (E : parseInt10 [a; b] = 10 * (code a - 48) + (code b - 48)).
  { unfold parseInt10. cbn [parse_digits]. rewrite Ha, Hb. lia. }
  pose proof (digit_code _ Ha) as Ra. pose proof (digit_code _ Hb) as Rb.
  rewrite E. unfold twoDigits.
  replace ((10 * (code a - 48) + (code b - 48)) / 10) with (code a - 48)
    by (Z.div_mod_to_equations; lia).
  replace ((10 * (code a - 48) + (code b - 48)) mod 10) with (code b - 48)
    by (Z.div_mod_to_equations; lia).
  rewrite !digit_char_code by assumption. split; [lia|reflexivity].
Qed.

Lemma fourDigits_read (a b c d : ascii) :
  is_digit a = true -> is_digit b = true ->
  is_digit c = true -> is_digit d = true ->
  0 <= parseInt10 [a; b; c; d] <= 9999
  /\ fourDigits (parseInt10 [a; b; c; d]) = [a; b; c; d].
Proof.
  intros Ha Hb Hc Hd.
  assert (E : parseInt10 [a; b; c; d]
              = 1000 * (code a - 48) + 100 * (code b - 48)
                + 10 * (code c - 48) + (code d - 48)).
  { unfold parseInt10. cbn [parse_digits]. rewrite Ha, Hb, Hc, Hd. lia. }
  pose proof (digit_code _ Ha) as Ra. pose proof (digit_code _ Hb) as Rb.
  pose proof (digit_code _ Hc) as Rc. pose proof (digit_code _ Hd) as Rd.
  rewrite E. unfold fourDigits.
  set (n := 1000 * (code a - 48) + 100 * (code b - 48)
            + 10 * (code c - 48) + (code d - 48)) in *.
  replace (n / 1000) with (code a - 48)
    by (subst n; Z.div_mod_to_equations; lia).
  replace (n / 100 mod 10) with (code b - 48)
    by (subst n; Z.div_mod_to_equations; lia).
  replace (n / 10 mod 10) with (code c - 48)
    by (subst n; Z.div_mod_to_equations; lia).
  replace (n mod 10) with (code d - 48)
    by (subst n; Z.div_mod_to_equations; lia).
  rewrite !digit_char_code by assumption. split; [subst n; lia|reflexivity].
Qed.

(** Reading a date in the form YYYY-MM-DD and printing its date part
    gives the text back. *)
Lemma parseDateOnly_utcDate (raw : jsstring) (t : Z) :
  parseDateOnly raw = Some t -> utcDate t = raw.
Proof.
  unfold parseDateOnly.
  destruct raw as [ | y1 [ | y2 [ | y3 [ | y4 [ | d1 [ | m1 [ | m2 [ | d2
    [ | a1 [ | a2 [ | ? ? ] ] ] ] ] ] ] ] ] ] ]; try discriminate.
  destruct (forallb is_digit [y1; y2; y3; y4; m1; m2; a1; a2]
            && is_dash d1 && is_dash d2) eqn:Hshape; [|discriminate].
  apply andb_prop in Hshape as [Hshape Hd2].
  apply andb_prop in Hshape as [Hdig Hd1].
  cbn [forallb] in Hdig.
  repeat match type of Hdig with
         | _ && _ = true =>
             let H := fresh "Hdigit" in apply andb_prop in Hdig as [H Hdig]
         end.
  apply is_dash_eq in Hd1. apply is_dash_eq in Hd2. subst d1 d2.
  destruct (fourDigits_read y1 y2 y3 y4) as [Ry Ey]; try assumption.
  destruct (twoDigits_read m1 m2) as [Rm Em]; try assumption.
  destruct (twoDigits_read a1 a2) as [Ra Ea]; try assumption.
  cbv zeta.
  set (y := parseInt10 [y1; y2; y3; y4]) in *.
  set (m := parseInt10 [m1; m2]) in *.
  set (d := parseInt10 [a1; a2]) in *.
  destruct ((1 <=? m) && (m <=? 12) && (1 <=? d) && (d <=? daysInMonth y m))
    eqn:Hrange; [|discriminate].
  apply andb_prop in Hrange as [Hrange H4].
  apply andb_prop in Hrange as [Hrange H3].
  apply andb_prop in Hrange as [H1 H2].
  apply Z.leb_le in H1, H2, H3, H4.
  intros Ht.
  apply (f_equal (fun o => match o with Some v => v | None => 0 end)) in Ht.
  cbv beta iota in Ht. rewrite <- Ht.
  destruct (date_of_civil y m d) as [HY [HM HD]]; [lia|lia|].
  cbv zeta in HY, HM, HD.
  rewrite utcDate_civilDate by (rewrite HY; lia).
  rewrite HY, HM, HD. unfold civilDate. rewrite Ey, Em, Ea. reflexivity.
Qed.

(** ** The Event hook as a whole *)

Lemma validation_strings (doc : EventDocument) :
  validation doc = (doc, None) ->
  exists titleText dateText timeText,
    title doc = VString titleText /\ date doc = VString dateText
    /\ time doc = VString timeText.
Proof.
  rewrite validation_result. intros H.
  destruct (firstBlank doc) as [f|] eqn:E; [discriminate|].
  rewrite firstBlank_None in E.
  assert (Ht := E "title"%string). assert (Hd := E "date"%string).
  assert (Hti := E "time"%string).
  cbn in Ht, Hd, Hti.
  destruct (title doc) as [ | | titleText | ]; try (discriminate Ht; tauto).
  destruct (date doc) as [ | | dateText | ]; try (discriminate Hd; tauto).
  destruct (time doc) as [ | | timeText | ]; try (discriminate Hti; tauto).
  now exists titleText, dateText, timeText.
Qed.

Lemma normalizeTime_nonempty (s r : jsstring) :
  normalizeTime s = Some r -> exists c rest, r = c :: rest.
Proof.
  intros H. destruct (normalizeTime_range _ _ H) as [h [m [_ [_ ->]]]].
  unfold twoDigits. cbn [app]. eauto.
Qed.

Section EventHookRun.

Variable Date_parse : jsstring -> option Z.

(** The three assignments of the hook on a document whose title, date
    and time are strings, step by step. *)
Lemma normalization_run (doc : EventDocument)
    (titleText dateText timeText : jsstring) :
  title doc = VString titleText -> date doc = VString dateText ->
  time doc = VString timeText ->
  normalization Date_parse doc =
  let withSlug :=
    if isNew doc || isModified doc "title"
    then set_slug (VString (slugify titleText)) doc else doc in
  let timePart (d : EventDocument) :=
    if isNew doc || isModified doc "time"
    then match normalizeTime timeText with
         | Some normalized => (set_time (VString normalized) d, None)
         | None => (d, Some timeError)
         end
    else (d, None) in
  if isNew doc || isModified doc "date"
  then match Date_parse dateText with
       | Some t => timePart (set_date (VString (utcDate t)) withSlug)
       | None => (withSlug, Some dateError)
       end
  else timePart withSlug.
Proof.
  destruct doc as [ti sl de ov im ve lo da tm mo au ag og tg new mods].
  cbn [title date time]. intros -> -> ->.
  unfold normalization, seq, when, assignSlug, normalizeDate, assignTime,
    fall_through, isModified.
  cbn [title date time isNew modifiedPaths set_slug set_date set_time].
  cbv zeta.
  destruct (new || existsb (String.eqb "title") mods);
    cbn [title date time isNew modifiedPaths set_slug set_date set_time];
    destruct (new || existsb (String.eqb "date") mods);
    cbn [title date time isNew modifiedPaths set_slug set_date set_time];
    try (destruct (Date_parse dateText) as [t|]; [|reflexivity];
         rewrite isoDate_utcDate);
    cbn [title date time isNew modifiedPaths set_slug set_date set_time];
    destruct (new || existsb (String.eqb "time") mods);
    cbn [title date time isNew modifiedPaths set_slug set_date set_time];
    try reflexivity;
    destruct (normalizeTime timeText) as [r|] eqn:E; try reflexivity;
    destruct (normalizeTime_nonempty _ _ E) as [c [rest ->]]; reflexivity.
Qed.

End EventHookRun.

(** X7.  The hook on a new document that passes the validation.  The slug
    is assigned first, from the title; then the date is read: if it does
    not parse, the hook ends with the date error, the slug already on the
    document and the time not looked at; else the date part of the ISO
    string is assigned and the time is normalized: a null result ends the
    hook with the time error, slug and date already assigned; else the
    normalized time is assigned and the hook ends without error. *)
Theorem eventPreSave_create (Date_parse : jsstring -> option Z)
    (doc : EventDocument) (titleText dateText timeText : jsstring) :
  isNew doc = true -> validation doc = (doc, None) ->
  title doc = VString titleText -> date doc = VString dateText ->
  time doc = VString timeText ->
  eventPreSave Date_parse doc =
  let withSlug := set_slug (VString (slugify titleText)) doc in
  match Date_parse dateText with
  | None => (withSlug, Some dateError)
  | Some t =>
      let withDate := set_date (VString (utcDate t)) withSlug in
      match normalizeTime timeText with
      | None => (withDate, Some timeError)
      | Some normalized => (set_time (VString normalized) withDate, None)
      end
  end.
Proof.
  intros Hnew Hv Ht Hd Hti.
  rewrite (eventPreSave_validated _ _ Hv).
  rewrite (normalization_run _ _ _ _ _ Ht Hd Hti).
  rewrite Hnew. reflexivity.
Qed.

Lemma eventPreSave_create_witness :
  eventPreSave parseDateOnly (sampleEvent "Rocq Days" "2024-02-29" "9am")
  = (set_time (VString (js "09:00"))
       (set_date (VString (js "2024-02-29"))
          (set_slug (VString (js "rocq-days"))
             (sampleEvent "Rocq Days" "2024-02-29" "9am"))),
     None).
Proof.
  exact (eventPreSave_create parseDateOnly
           (sampleEvent "Rocq Days" "2024-02-29" "9am")
           (js "Rocq Days") (js "2024-02-29") (js "9am")
           eq_refl eq_refl eq_refl eq_refl eq_refl).
Defined.

(** X8.  Whatever the document and however the hook ends, it assigns no
    path other than [slug], [date] and [time]: every other path holds
    the value it had, and [isNew] is as it was. *)
Theorem eventPreSave_other_paths (Date_parse : jsstring -> option Z)
    (doc : EventDocument) :
  (forall field,
     field <> "slug"%string -> field <> "date"%string ->
     field <> "time"%string ->
     get_path (fst (eventPreSave Date_parse doc)) field = get_path doc field)
  /\ isNew (fst (eventPreSave Date_parse doc)) = isNew doc.
Proof.
  destruct (validation_cases doc) as [[e He]|Hv].
  - rewrite (eventPreSave_rejected _ _ _ He). now split.
  - rewrite (eventPreSave_validated _ _ Hv).
    destruct (normalization_steps Date_parse doc)
      as [v1 [v2 [v3 [e [-> _]]]]].
    cbn [fst]. split; [|reflexivity].
    intros field Hs Hd Ht. unfold get_path.
    cbn [title slug description overview image venue location date time mode
         audience agenda organizer tags set_slug set_date set_time].
    destruct (String.eqb field "slug") eqn:Es;
      [apply String.eqb_eq in Es; contradiction|].
    destruct (String.eqb field "date") eqn:Ed;
      [apply String.eqb_eq in Ed; contradiction|].
    destruct (String.eqb field "time") eqn:Et;
      [apply String.eqb_eq in Et; contradiction|].
    reflexivity.
Qed.

(** X9.  The hook ends without error exactly when the validation passes,
    the date parses when the document is new or its date is modified, and
    the time has a normalized form when the document is new or its time
    is modified. *)
Theorem eventPreSave_accepts (Date_parse : jsstring -> option Z)
    (doc : EventDocument) :
  snd (eventPreSave Date_parse doc) = None
  <-> validation doc = (doc, None)
      /\ (isNew doc || isModified doc "date" = true ->
          exists raw t, date doc = VString raw /\ Date_parse raw = Some t)
      /\ (isNew doc || isModified doc "time" = true ->
          exists raw normalized,
            time doc = VString raw /\ normalizeTime raw = Some normalized).
Proof.
  destruct (validation_cases doc) as [[e He]|Hv].
  - rewrite (eventPreSave_rejected _ _ _ He). cbn [snd]. split.
    + discriminate.
    + intros [Hv _]. rewrite Hv in He. discriminate.
  - destruct (validation_strings _ Hv) as [t [d [ti [Ht [Hd Hti]]]]].
    rewrite (eventPreSave_validated _ _ Hv).
    rewrite (normalization_run _ _ _ _ _ Ht Hd Hti). cbv zeta.
    assert (Hdate : forall raw x : jsstring,
              date doc = VString raw -> raw = d)
      by (intros raw x Hraw; rewrite Hd in Hraw; now injection Hraw).
    assert (Htime : forall raw : jsstring,
              time doc = VString raw -> raw = ti)
      by (intros raw Hraw; rewrite Hti in Hraw; now injection Hraw).
    split.
    + intros H. split; [exact Hv|]. split.
      * intros Hc. rewrite Hc in H. exists d.
        destruct (Date_parse d) as [tv|]; [eauto|discriminate].
      * intros Hc. rewrite Hc in H. exists ti.
        destruct (normalizeTime ti) as [r|]; [eauto|].
        destruct (isNew doc || isModified doc "date");
          [destruct (Date_parse d)|]; discriminate.
    + intros [_ [H1 H2]].
      assert (Ht2 : isNew doc || isModified doc "time" = true ->
                    exists r, normalizeTime ti = Some r).
      { intros Hc. destruct (H2 Hc) as [raw [r [Hraw Hr]]].
        rewrite (Htime _ Hraw) in Hr. eauto. }
      assert (Hd2 : isNew doc || isModified doc "date" = true ->
                    exists tv, Date_parse d = Some tv).
      { intros Hc. destruct (H1 Hc) as [raw [tv [Hraw Hr]]].
        rewrite (Hdate _ raw Hraw) in Hr. eauto. }
      destruct (isNew doc || isModified doc "date");
        [destruct (Hd2 eq_refl) as [tv ->]|];
        (destruct (isNew doc || isModified doc "time");
         [destruct (Ht2 eq_refl) as [r ->]|]); reflexivity.
Qed.

(** X10.  The time of a validated document that is new or whose time is
    modified.  When the hook ends without error, the time left on the
    document is the result of [normalizeTime] on the time given, a time
    HH:MM from 00:00 to 23:59.  When [normalizeTime] gives null and the
    date step does not end the hook first, the hook ends with the time
    error and the time on the document is the one given. *)
Theorem eventPreSave_time (Date_parse : jsstring -> option Z)
    (doc : EventDocument) (raw : jsstring) :
  validation doc = (doc, None) -> time doc = VString raw ->
  isNew doc || isModified doc "time" = true ->
  (snd (eventPreSave Date_parse doc) = None ->
   exists h m,
     0 <= h <= 23 /\ 0 <= m <= 59
     /\ normalizeTime raw = Some (twoDigits h ++ js ":" ++ twoDigits m)
     /\ time (fst (eventPreSave Date_parse doc))
        = VString (twoDigits h ++ js ":" ++ twoDigits m))
  /\ (normalizeTime raw = None ->
      (isNew doc || isModified doc "date" = false
       \/ exists dateText t,
            date doc = VString dateText /\ Date_parse dateText = Some t) ->
      snd (eventPreSave Date_parse doc) = Some timeError
      /\ time (fst (eventPreSave Date_parse doc)) = VString raw).
Proof.
  intros Hv Hti Hc.
  destruct (validation_strings _ Hv) as [t [d [ti [Ht [Hd Hti']]]]].
  assert (ti = raw) as -> by (rewrite Hti in Hti'; now injection Hti').
  rewrite (eventPreSave_validated _ _ Hv).
  rewrite (normalization_run _ _ _ _ _ Ht Hd Hti). cbv zeta. rewrite Hc.
  split.
  - intros H.
    destruct (normalizeTime raw) as [r|] eqn:En.
    + destruct (normalizeTime_range _ _ En) as [h [m [Hh [Hm ->]]]].
      exists h, m. split; [exact Hh|]. split; [exact Hm|].
      split; [reflexivity|].
      destruct (isNew doc || isModified doc "date");
        [destruct (Date_parse d); [reflexivity|discriminate]|reflexivity].
    + destruct (isNew doc || isModified doc "date");
        [destruct (Date_parse d)|]; discriminate.
  - intros En Hdate. rewrite En.
    destruct (isNew doc || isModified doc "date").
    + destruct Hdate as [Hf|[d' [tv [Hd' Hp]]]]; [discriminate|].
      assert (d' = d) as -> by (rewrite Hd in Hd'; now injection Hd').
      rewrite Hp. cbn [fst snd time set_time set_date set_slug].
      destruct (isNew doc || isModified doc "title");
        cbn [time set_slug]; now rewrite Hti.
    + cbn [fst snd]. destruct (isNew doc || isModified doc "title");
        cbn [time set_slug]; now rewrite Hti.
Qed.

Lemma eventPreSave_time_witness :
  exists h m,
    0 <= h <= 23 /\ 0 <= m <= 59
    /\ normalizeTime (js "1:30 pm")
       = Some (twoDigits h ++ js ":" ++ twoDigits m)
    /\ time (fst (eventPreSave parseDateOnly
                    (sampleEvent "Rocq Days" "2024-02-29" "1:30 pm")))
       = VString (twoDigits h ++ js ":" ++ twoDigits m).
Proof.
  exact (proj1 (eventPreSave_time parseDateOnly
                  (sampleEvent "Rocq Days" "2024-02-29" "1:30 pm")
                  (js "1:30 pm") eq_refl eq_refl eq_refl) eq_refl).
Defined.

(** X11.  A date that is already in the form YYYY-MM-DD is kept as it is:
    the date part of the time value of midnight UTC of a calendar date is
    that date, text for text, so when [new Date] reads the date of a
    validated document as the date-only form defines it, the hook leaves
    the same text in [date]. *)
Theorem eventPreSave_iso_date :
  (forall raw t, parseDateOnly raw = Some t -> utcDate t = raw)
  /\ (forall Date_parse doc raw t,
        validation doc = (doc, None) -> date doc = VString raw ->
        parseDateOnly raw = Some t -> Date_parse raw = Some t ->
        date (fst (eventPreSave Date_parse doc)) = VString raw).
Proof.
  split; [exact parseDateOnly_utcDate|].
  intros Date_parse doc raw tv Hv Hd Hp Hq.
  destruct (validation_strings _ Hv) as [t [d [ti [Ht [Hd' Hti]]]]].
  assert (d = raw) as -> by (rewrite Hd in Hd'; now injection Hd').
  rewrite (eventPreSave_validated _ _ Hv).
  rewrite (normalization_run _ _ _ _ _ Ht Hd Hti). cbv zeta.
  rewrite Hq, (parseDateOnly_utcDate _ _ Hp).
  destruct (isNew doc || isModified doc "title");
    destruct (isNew doc || isModified doc "date");
    destruct (isNew doc || isModified doc "time");
    try destruct (normalizeTime ti);
    cbn [fst date set_slug set_date set_time]; try reflexivity; exact Hd.
Qed.

Lemma eventPreSave_iso_date_witness :
  date (fst (eventPreSave parseDateOnly
               (sampleEvent "Rocq Days" "2024-02-29" "9am")))
  = VString (js "2024-02-29").
Proof.
  exact (proj2 eventPreSave_iso_date parseDateOnly
           (sampleEvent "Rocq Days" "2024-02-29" "9am") (js "2024-02-29")
           1709164800000 eq_refl eq_refl eq_refl eq_refl).
Defined.

Lemma nonblank_with (s : jsstring) (c : ascii) :
  In c s -> is_space c = false -> blank (VString s) = false.
Proof.
  intros Hin Hc. unfold blank.
  destruct (trim_parts s) as [lead [trail [E [Hl Ht]]]].
  destruct (trim s) as [|x r]; [|reflexivity].
  rewrite E in Hin. cbn [app] in Hin. unfold allSpace in *.
  apply in_app_or in Hin as [Hin|Hin];
    [rewrite forallb_forall in Hl; specialize (Hl c Hin)
    |rewrite forallb_forall in Ht; specialize (Ht c Hin)]; congruence.
Qed.

Lemma utcDate_nonblank (t : Z) : blank (VString (utcDate t)) = false.
Proof.
  apply (nonblank_with _ "-"); [|reflexivity].
  unfold utcDate. apply in_or_app. right. now left.
Qed.

Lemma normalized_nonblank (s r : jsstring) :
  normalizeTime s = Some r -> blank (VString r) = false.
Proof.
  intros H. destruct (normalizeTime_range _ _ H) as [h [m [_ [_ ->]]]].
  apply (nonblank_with _ ":"); [|reflexivity].
  apply in_or_app. right. now left.
Qed.

Lemma validation_fields (doc doc' : EventDocument) :
  validation doc = (doc, None) ->
  (forall field, In field requiredStringFields ->
                 blank (get_path doc field) = false ->
                 blank (get_path doc' field) = false) ->
  agenda doc' = agenda doc -> tags doc' = tags doc ->
  validation doc' = (doc', None).
Proof.
  rewrite !validation_result. intros H Hf Ha Ht.
  destruct (firstBlank doc) as [f|] eqn:E; [discriminate|].
  rewrite firstBlank_None in E.
  assert (E' : firstBlank doc' = None)
    by (apply firstBlank_None; intros field Hin; auto).
  rewrite E', Ha, Ht. injection H as H. now rewrite H.
Qed.

Lemma validation_set_slug (doc : EventDocument) (v : jsval) :
  validation doc = (doc, None) ->
  validation (set_slug v doc) = (set_slug v doc, None).
Proof.
  intros H. apply (validation_fields doc); try reflexivity; [exact H|].
  intros field Hin. cbn in Hin.
  repeat (destruct Hin as [<- | Hin]; [exact (fun x => x)|]).
  destruct Hin.
Qed.

Lemma validation_set_date (doc : EventDocument) (v : jsval) :
  blank v = false -> validation doc = (doc, None) ->
  validation (set_date v doc) = (set_date v doc, None).
Proof.
  intros Hb H. apply (validation_fields doc); try reflexivity; [exact H|].
  intros field Hin. cbn in Hin.
  repeat (destruct Hin as [<- | Hin];
          [first [exact (fun x => x) | exact (fun _ => Hb)]|]).
  destruct Hin.
Qed.

Lemma validation_set_time (doc : EventDocument) (v : jsval) :
  blank v = false -> validation doc = (doc, None) ->
  validation (set_time v doc) = (set_time v doc, None).
Proof.
  intros Hb H. apply (validation_fields doc); try reflexivity; [exact H|].
  intros field Hin. cbn in Hin.
  repeat (destruct Hin as [<- | Hin];
          [first [exact (fun x => x) | exact (fun _ => Hb)]|]).
  destruct Hin.
Qed.

Ltac hook_paths :=
  cbn [title slug description overview image venue location date time mode
       audience agenda organizer tags isNew modifiedPaths
       set_slug set_date set_time fst snd].

Lemma eventPreSave_again (Date_parse : jsstring -> option Z)
    (doc doc' : EventDocument) :
  eventPreSave Date_parse doc = (doc', None) ->
  (forall raw t,
     date doc = VString raw -> Date_parse raw = Some t ->
     exists t', Date_parse (utcDate t) = Some t' /\ utcDate t' = utcDate t) ->
  eventPreSave Date_parse doc' = (doc', None).
Proof.
  intros Hrun Hback.
  destruct (validation_cases doc) as [[e He]|Hv];
    [rewrite (eventPreSave_rejected _ _ _ He) in Hrun; discriminate|].
  destruct (validation_strings _ Hv) as [t [d [ti [Ht [Hd Hti]]]]].
  rewrite (eventPreSave_validated _ _ Hv) in Hrun.
  rewrite (normalization_run _ _ _ _ _ Ht Hd Hti) in Hrun. cbv zeta in Hrun.
  specialize (Hback d).
  unfold isModified in Hrun.
  destruct (isNew doc || existsb (String.eqb "title") (modifiedPaths doc))
    eqn:E1;
    destruct (isNew doc || existsb (String.eqb "date") (modifiedPaths doc))
      eqn:E2;
    try (destruct (Date_parse d) as [tv|] eqn:Ep; [|discriminate];
         destruct (Hback tv Hd eq_refl) as [tv' [Hp' Hu]]);
    destruct (isNew doc || existsb (String.eqb "time") (modifiedPaths doc))
      eqn:E3;
    try (destruct (normalizeTime ti) as [r|] eqn:En; [|discriminate];
         pose proof (normalized_nonblank _ _ En) as Hnb;
         assert (Hr : normalizeTime r = Some r)
           by (destruct (normalizeTime_range _ _ En) as [h [m [Hh [Hm ->]]]];
               now apply normalizeTime_canonical));
    injection Hrun as <-;
    (rewrite eventPreSave_validated;
     [|repeat first [ apply validation_set_time; [assumption|]
                    | apply validation_set_date; [apply utcDate_nonblank|]
                    | apply validation_set_slug ]; exact Hv]);
    (erewrite normalization_run;
     [|hook_paths; first [reflexivity | eassumption] ..]);
    cbv zeta; unfold isModified; hook_paths;
    rewrite ?E1, ?E2, ?E3, ?Hp', ?Hr, ?Hu; hook_paths;
    rewrite <- ?Ht, <- ?Hd, <- ?Hti;
    rewrite ?set_slug_same, ?set_date_same, ?set_time_same; reflexivity.
Qed.

(** X12.  The hook is idempotent on what it accepts.  If it ends without
    error and [new Date] reads back the date part it has printed (to a
    time value of the same day), the hook run again on the resulting
    document, with the same paths marked, ends without error and changes
    nothing.  With dates in the form YYYY-MM-DD read as the date-only
    form defines them, this holds of every document. *)
Theorem eventPreSave_idempotent :
  (forall Date_parse doc doc',
     eventPreSave Date_parse doc = (doc', None) ->
     (forall raw t,
        date doc = VString raw -> Date_parse raw = Some t ->
        exists t', Date_parse (utcDate t) = Some t' /\ utcDate t' = utcDate t) ->
     eventPreSave Date_parse doc' = (doc', None))
  /\ (forall doc doc',
        eventPreSave parseDateOnly doc = (doc', None) ->
        eventPreSave parseDateOnly doc' = (doc', None)).
Proof.
  split; [exact eventPreSave_again|].
  intros doc doc' H. apply (eventPreSave_again _ _ _ H).
  intros raw t _ Hp. exists t.
  now rewrite (parseDateOnly_utcDate _ _ Hp).
Qed.

Lemma eventPreSave_idempotent_witness :
  let doc' := fst (eventPreSave parseDateOnly
                     (sampleEvent "Rocq Days" "2024-02-29" "1:30 pm")) in
  eventPreSave parseDateOnly doc' = (doc', None).
Proof.
  exact (proj2 eventPreSave_idempotent
           (sampleEvent "Rocq Days" "2024-02-29" "1:30 pm") _ eq_refl).
Defined.

(** ** The Booking hook as a whole *)

Section BookingHookOutcomes.

Variable Event_exists : ObjectId -> QueryOutcome.

Lemma bookingPreSave_valid (doc : BookingDocument) (s : jsstring) :
  email doc = Some s -> EmailShape s ->
  bookingPreSave Event_exists doc =
  match eventId doc with
  | None => NextError eventIdError
  | Some id =>
      match Event_exists id with
      | Resolves None => NextError referenceError
      | Resolves (Some _) => NextPlain
      | Rejects reason => NextCaught reason
      end
  end.
Proof.
  intros He Hs. unfold bookingPreSave. rewrite He.
  pose proof (proj2 (emailRegex_test_shape s) Hs) as Ht. rewrite Ht.
  destruct s as [|c r]; [|reflexivity].
  destruct Hs as [l [d [t [E [Hl _]]]]]. destruct l; [congruence|discriminate].
Qed.

Lemma bookingPreSave_invalid (doc : BookingDocument) :
  (forall s, email doc = Some s -> ~ EmailShape s) ->
  bookingPreSave Event_exists doc = NextError emailError.
Proof.
  intros H. apply bookingPreSave_email. intros [s [He Hs]].
  exact (H s He Hs).
Qed.

End BookingHookOutcomes.

Lemma EmailShape_dec (s : jsstring) : EmailShape s \/ ~ EmailShape s.
Proof.
  destruct (emailRegex_test s) eqn:E.
  - left. now apply emailRegex_test_shape.
  - right. intros H. apply emailRegex_test_shape in H. congruence.
Qed.

(** X13.  The ways the Booking hook ends besides the email error and the
    missing event.  With an email of the right shape and no [eventId],
    it ends with "eventId is required.", whatever [Event.exists] would
    give.  When [Event.exists] rejects, the hook passes the reason to
    [next], and it does so in this case only.  It ends with a plain
    [next()] exactly when the email has the right shape, [eventId] is
    set and [Event.exists] resolves to a document. *)
Theorem bookingPreSave_outcomes :
  (forall Event_exists doc s,
     email doc = Some s -> EmailShape s -> eventId doc = None ->
     bookingPreSave Event_exists doc = NextError eventIdError)
  /\ (forall Event_exists doc s id reason,
        email doc = Some s -> EmailShape s -> eventId doc = Some id ->
        Event_exists id = Rejects reason ->
        bookingPreSave Event_exists doc = NextCaught reason)
  /\ (forall Event_exists doc,
        bookingPreSave Event_exists doc = NextPlain
        <-> exists s id found,
              email doc = Some s /\ EmailShape s /\ eventId doc = Some id
              /\ Event_exists id = Resolves (Some found))
  /\ (forall Event_exists doc reason,
        bookingPreSave Event_exists doc = NextCaught reason
        <-> exists s id,
              email doc = Some s /\ EmailShape s /\ eventId doc = Some id
              /\ Event_exists id = Rejects reason).
Proof.
  split; [|split; [|split]].
  - intros E doc s He Hs Hid.
    now rewrite (bookingPreSave_valid E doc s He Hs), Hid.
  - intros E doc s id reason He Hs Hid Hr.
    now rewrite (bookingPreSave_valid E doc s He Hs), Hid, Hr.
  - intros E doc. split.
    + intros H. destruct (email doc) as [s|] eqn:He.
      * destruct (EmailShape_dec s) as [Hs|Hs].
        -- rewrite (bookingPreSave_valid E doc s He Hs) in H.
           destruct (eventId doc) as [id|]; [|discriminate].
           destruct (E id) as [[found|]|reason] eqn:Eq; try discriminate.
           now exists s, id, found.
        -- rewrite bookingPreSave_invalid in H; [discriminate|].
           intros s' Hs'. rewrite He in Hs'. now injection Hs' as <-.
      * rewrite bookingPreSave_invalid in H; [discriminate|].
        intros s' Hs'. rewrite He in Hs'. discriminate.
    + intros [s [id [found [He [Hs [Hid Hf]]]]]].
      now rewrite (bookingPreSave_valid E doc s He Hs), Hid, Hf.
  - intros E doc reason. split.
    + intros H. destruct (email doc) as [s|] eqn:He.
      * destruct (EmailShape_dec s) as [Hs|Hs].
        -- rewrite (bookingPreSave_valid E doc s He Hs) in H.
           destruct (eventId doc) as [id|]; [|discriminate].
           destruct (E id) as [[found|]|reason'] eqn:Eq; try discriminate.
           injection H as ->. now exists s, id.
        -- rewrite bookingPreSave_invalid in H; [discriminate|].
           intros s' Hs'. rewrite He in Hs'. now injection Hs' as <-.
      * rewrite bookingPreSave_invalid in H; [discriminate|].
        intros s' Hs'. rewrite He in Hs'. discriminate.
    + intros [s [id [He [Hs [Hid Hf]]]]].
      now rewrite (bookingPreSave_valid E doc s He Hs), Hid, Hf.
Qed.

Lemma bookingPreSave_outcomes_witness :
  bookingPreSave (existsIn [7%N])
    (newBooking None (Some (js "USER@Example.com")))
  = NextError eventIdError.
Proof.
  exact (proj1 bookingPreSave_outcomes (existsIn [7%N])
           (newBooking None (Some (js "USER@Example.com")))
           (js "user@example.com") eq_refl
           (proj1 (emailRegex_test_shape (js "user@example.com")) eq_refl)
           eq_refl).
Defined.

(** ** Email addresses *)

Lemma lower_not_upper (c : ascii) : is_upper (lower_char c) = false.
Proof. each_char c. Qed.

Lemma lower_emailChar (c : ascii) : emailChar (lower_char c) = emailChar c.
Proof. each_char c. Qed.

Lemma lower_at (c : ascii) : is_char "@" (lower_char c) = is_char "@" c.
Proof. each_char c. Qed.

Lemma lower_dot (c : ascii) : is_char "." (lower_char c) = is_char "." c.
Proof. each_char c. Qed.

Lemma emailChar_not_at (c : ascii) : emailChar c = true -> c <> "@"%char.
Proof. intros H ->. discriminate. Qed.

Lemma emailChar_not_space (c : ascii) :
  emailChar c = true -> negb (is_space c) = true.
Proof.
  unfold emailChar. intros H. apply negb_true_iff in H.
  apply orb_false_iff in H as [H _]. now rewrite H.
Qed.

Section MatchersUnderMap.

Context {A : Type}.
Variable p : ascii -> bool.
Variable f : ascii -> ascii.
Hypothesis p_f : forall c, p (f c) = p c.

Lemma star_map (k k' : jsstring -> option A) (s : jsstring) :
  (forall r, k' (map f r) = k r) -> star p k' (map f s) = star p k s.
Proof.
  intros Hk. induction s as [|c r IH].
  - exact (Hk []).
  - cbn [map star]. rewrite p_f, IH.
    change (f c :: map f r) with (map f (c :: r)). now rewrite Hk.
Qed.

Lemma one_map (k k' : ascii -> jsstring -> option A) (s : jsstring) :
  (forall c r, k' (f c) (map f r) = k c r) -> one p k' (map f s) = one p k s.
Proof.
  intros Hk. destruct s as [|c r]; [reflexivity|].
  cbn [map one]. now rewrite p_f, Hk.
Qed.

Lemma plus_map (k k' : jsstring -> option A) (s : jsstring) :
  (forall r, k' (map f r) = k r) -> plus p k' (map f s) = plus p k s.
Proof.
  intros Hk. unfold plus. apply one_map. intros _ r. now apply star_map.
Qed.

End MatchersUnderMap.

Lemma emailRegex_lower (s : jsstring) :
  emailRegex (toLowerCase s) = emailRegex s.
Proof.
  unfold emailRegex, toLowerCase.
  apply plus_map; [exact lower_emailChar|]. intros r1.
  apply one_map; [exact lower_at|]. intros _ r2.
  apply plus_map; [exact lower_emailChar|]. intros r3.
  apply one_map; [exact lower_dot|]. intros _ r4.
  apply plus_map; [exact lower_emailChar|]. intros r5.
  now destruct r5.
Qed.

Lemma trim_nothing (s : jsstring) :
  forallb (fun c => negb (is_space c)) s = true -> trim s = s.
Proof.
  intros H.
  rewrite <- (app_nil_r s) at 1.
  apply (trim_core [] s []); try reflexivity.
  - apply (headNot_all _ (fun c => negb (is_space c))); [|exact H].
    intros c Hc. now apply negb_true_iff.
  - apply (headNot_all _ (fun c => negb (is_space c)));
      [|now apply forallb_rev].
    intros c Hc. now apply negb_true_iff.
Qed.

Lemma count_at (s : jsstring) :
  forallb emailChar s = true -> count_occ ascii_dec s "@"%char = 0%nat.
Proof.
  intros H. apply count_occ_not_In. intros Hin.
  rewrite forallb_forall in H. now apply (emailChar_not_at _ (H _ Hin)).
Qed.

Lemma EmailShape_facts (s : jsstring) :
  EmailShape s ->
  count_occ ascii_dec s "@"%char = 1%nat
  /\ forallb (fun c => negb (is_space c)) s = true
  /\ (5 <= length s)%nat.
Proof.
  intros [l [d [t [-> [Hl [Hd [Ht [Fl [Fd Ft]]]]]]]]].
  split; [|split].
  - rewrite !count_occ_app, (count_at l Fl), (count_at d Fd), (count_at t Ft).
    reflexivity.
  - rewrite !forallb_app.
    rewrite (proj2 (forallb_forall _ l)), (proj2 (forallb_forall _ d)),
      (proj2 (forallb_forall _ t)); [reflexivity|..];
      intros c Hc; apply emailChar_not_space;
      [exact (proj1 (forallb_forall _ _) Ft c Hc)
      |exact (proj1 (forallb_forall _ _) Fd c Hc)
      |exact (proj1 (forallb_forall _ _) Fl c Hc)].
  - rewrite !length_app. cbn [length js list_ascii_of_string].
    destruct l; [congruence|]. destruct d; [congruence|].
    destruct t; [congruence|]. cbn [length]. lia.
Qed.

(** X14.  What [emailRegex] accepts has exactly one [@], no white space
    and at least five code units.  Acceptance does not depend on case:
    the lower-cased address is accepted exactly when the address is, so
    the email the schema stores is accepted exactly when the trimmed
    input is; an accepted address has nothing to trim, and stays
    accepted once cast. *)
Theorem emailRegex_accepts :
  (forall s,
     emailRegex_test s = true ->
     count_occ ascii_dec s "@"%char = 1%nat
     /\ forallb (fun c => negb (is_space c)) s = true
     /\ (5 <= length s)%nat)
  /\ (forall s, emailRegex_test (toLowerCase s) = emailRegex_test s)
  /\ (forall raw, emailRegex_test (castEmail raw) = emailRegex_test (trim raw))
  /\ (forall s,
        emailRegex_test s = true ->
        castEmail s = toLowerCase s /\ emailRegex_test (castEmail s) = true).
Proof.
  assert (Hlower : forall s, emailRegex_test (toLowerCase s) = emailRegex_test s)
    by (intros s; unfold emailRegex_test; now rewrite emailRegex_lower).
  split; [|split; [exact Hlower|split]].
  - intros s H. apply EmailShape_facts. now apply emailRegex_test_shape.
  - intros raw. unfold castEmail. now rewrite <- toLowerCase_trim, Hlower.
  - intros s H.
    assert (Hs : EmailShape (toLowerCase s))
      by (apply emailRegex_test_shape; now rewrite Hlower).
    destruct (EmailShape_facts _ Hs) as [_ [Hn _]].
    unfold castEmail. rewrite (trim_nothing _ Hn).
    split; [reflexivity|now rewrite Hlower].
Qed.

Lemma emailRegex_accepts_witness :
  count_occ ascii_dec (js "user@example.com") "@"%char = 1%nat
  /\ forallb (fun c => negb (is_space c)) (js "user@example.com") = true
  /\ (5 <= length (js "user@example.com"))%nat.
Proof.
  exact (proj1 emailRegex_accepts (js "user@example.com") eq_refl).
Defined.

Lemma trim_chars (p : ascii -> bool) (s : jsstring) :
  forallb p s = true -> forallb p (trim s) = true.
Proof.
  destruct (trim_parts s) as [lead [trail [E _]]].
  rewrite E at 1. rewrite !forallb_app. intros H.
  apply andb_prop in H as [_ H]. now apply andb_prop in H as [H _].
Qed.

(** X15.  The email the schema stores is in a normal form: casting is
    idempotent; the stored email has no upper-case code unit and neither
    starts nor ends with white space; inputs with the same lower-case
    form, or that differ by the white space around them, are stored as
    the same email. *)
Theorem castEmail_canonical :
  (forall raw, castEmail (castEmail raw) = castEmail raw)
  /\ (forall raw,
        forallb (fun c => negb (is_upper c)) (castEmail raw) = true
        /\ headNot is_space (castEmail raw)
        /\ headNot is_space (rev (castEmail raw)))
  /\ (forall a b, toLowerCase a = toLowerCase b -> castEmail a = castEmail b)
  /\ (forall pre raw post,
        allSpace pre -> allSpace post ->
        castEmail (pre ++ raw ++ post) = castEmail raw).
Proof.
  split; [|split; [|split]].
  - intros raw. unfold castEmail.
    now rewrite toLowerCase_trim, trim_idempotent, toLowerCase_idempotent.
  - intros raw. unfold castEmail. split; [|apply trim_edges].
    apply trim_chars. unfold toLowerCase. apply forallb_forall.
    intros c Hc. apply in_map_iff in Hc as [c0 [<- _]].
    now rewrite lower_not_upper.
  - intros a b H. unfold castEmail. now rewrite H.
  - intros pre raw post Hpre Hpost. unfold castEmail, toLowerCase.
    rewrite !map_app. apply trim_around; unfold allSpace in *.
    + rewrite forallb_lower; [exact Hpre|exact lower_keeps_space].
    + rewrite forallb_lower; [exact Hpost|exact lower_keeps_space].
Qed.

Lemma castEmail_canonical_witness :
  castEmail (js " " ++ js "User@Example.com" ++ js "  ")
  = castEmail (js "User@Example.com").
Proof.
  exact (proj2 (proj2 (proj2 castEmail_canonical))
           (js " ") (js "User@Example.com") (js "  ") eq_refl eq_refl).
Defined.

(** ** The calls and the one attempt *)

Lemma In_update {A} (l : list A) (i : nat) (x y : A) :
  In y (update l i x) -> y = x \/ In y l.
Proof.
  revert i. induction l as [|z l IH]; intros [|i]; simpl; auto;
    intros [H|H]; auto. destruct (IH i H); auto.
Qed.

Lemma update_In {A} (l : list A) (i : nat) (x z : A) :
  nth_error l i = Some z -> In x (update l i x).
Proof.
  revert i. induction l as [|y l IH]; intros [|i]; simpl;
    try discriminate; eauto.
Qed.

Lemma nth_error_update_same {A} (l : list A) (i : nat) (x z : A) :
  nth_error l i = Some z -> nth_error (update l i x) i = Some x.
Proof.
  revert i. induction l as [|y l IH]; intros [|i]; simpl;
    try discriminate; auto.
Qed.

Lemma step_settledCalls (w w1 : World) (t : Turn) :
  consistent w -> settledCalls w -> step w t = Some w1 -> settledCalls w1.
Proof.
  intros [Hn [Hp [Ha Hc]]] [Hr Ht] Hstep.
  destruct t as [|p outcome|c]; simpl in Hstep.
  - rewrite call_result in Hstep. injection Hstep as <-.
    destruct (conn (cached w)) as [h|] eqn:Ec.
    + split; cbn [calls cached promises]; rewrite ?Ec.
      * intros h'. rewrite in_app_iff, Hr. cbn [In]. split.
        -- intros [H|[H|[]]]; [exact H|]. now injection H as ->.
        -- intros H. now left.
      * intros reason H. apply in_app_or in H as [H|[H|[]]];
          [now apply Ht|discriminate].
    + destruct (promise (cached w)) as [p|] eqn:Ep.
      * split; cbn [calls cached promises]; rewrite ?Ec.
        -- intros h'. rewrite in_app_iff, Hr. cbn [In]. split.
           ++ intros [H|[H|[]]]; [exact H|discriminate].
           ++ intros H. now left.
        -- intros reason H. apply in_app_or in H as [H|[H|[]]];
             [now apply Ht|discriminate].
      * destruct Hp as [Hp1 [Hp2 _]].
        split; cbn [calls cached promises conn]; rewrite Hp2.
        -- intros h'. cbn [app In]. split.
           ++ intros [H|[]]. discriminate.
           ++ discriminate.
        -- intros reason [H|[]]. discriminate.
  - unfold settle in Hstep.
    destruct (nth_error (promises w) p) as [[|h|r]|] eqn:E;
      try discriminate.
    assert (Hw : w1 = mkWorld (cached w) (update (promises w) p outcome)
                              (calls w) (connectCalls w)).
    { destruct outcome; try discriminate; now injection Hstep as <-. }
    subst w1.
    assert (Hp0 : nth_error (promises w) 0 = Some Pending).
    { destruct (promise (cached w)) as [q|].
      - destruct Hp as [_ Hlen].
        destruct (promises w) as [|s [|s' l]]; try discriminate.
        destruct p as [|[|p]]; try discriminate. exact E.
      - destruct Hp as [Hp _]. rewrite Hp in E. now destruct p. }
    split; cbn [calls cached promises].
    + exact Hr.
    + intros reason H. specialize (Ht reason H). congruence.
  - unfold resume in Hstep.
    destruct (nth_error (calls w) c) as [[p|h|r]|] eqn:Ecall;
      try discriminate.
    pose proof (Ha c p Ecall) as Hcached. rewrite Hcached in Hp.
    destruct Hp as [-> Hlen].
    destruct (nth_error (promises w) 0) as [[|h|r]|] eqn:E;
      try discriminate; injection Hstep as <-;
      split; cbn [calls cached promises conn].
    + intros h'. split.
      * intros H. apply In_update in H as [H|H].
        -- now injection H as ->.
        -- apply Hr, Hc in H. congruence.
      * intros H. injection H as <-. exact (update_In _ _ _ _ Ecall).
    + intros reason H. apply In_update in H as [H|H];
        [discriminate|]. specialize (Ht reason H). congruence.
    + intros h'. rewrite <- Hr. split.
      * intros H. apply In_update in H as [H|H]; [discriminate|exact H].
      * intros H. apply Hr, Hc in H. congruence.
    + intros reason H. apply In_update in H as [H|H].
      * injection H as ->. exact E.
      * rewrite E. now apply Ht.
Qed.

Lemma initial_settledCalls : settledCalls initial.
Proof.
  split.
  - intros h. cbn. split; [intros []|discriminate].
  - intros reason [].
Qed.

Lemma run_settledCalls (ts : list Turn) (w w1 : World) :
  consistent w -> settledCalls w -> run w ts = Some w1 -> settledCalls w1.
Proof.
  revert w. induction ts as [|t ts IH]; intros w Hinv Hs Hrun; simpl in Hrun.
  - now injection Hrun as <-.
  - destruct (step w t) as [w2|] eqn:E; [|discriminate].
    exact (IH w2 (step_consistent _ _ _ Hinv E)
              (step_settledCalls _ _ _ Hinv Hs E) Hrun).
Qed.

Lemma run_app (ts1 ts2 : list Turn) (w w1 : World) :
  run w ts1 = Some w1 -> run w (ts1 ++ ts2) = run w1 ts2.
Proof.
  revert w. induction ts1 as [|t ts IH]; intros w H; simpl in *.
  - now injection H as <-.
  - destruct (step w t) as [w2|]; [now apply IH|discriminate].
Qed.

(** What holds of every state the calls can reach from the start. *)
Lemma reachable_calls (ts : list Turn) (w : World) :
  run initial ts = Some w ->
  (forall c h, nth_error (calls w) c = Some (Returned h) ->
               nth_error (promises w) 0 = Some (Fulfilled h)
               /\ conn (cached w) = Some h)
  /\ (forall c reason, nth_error (calls w) c = Some (Threw reason) ->
                       nth_error (promises w) 0 = Some (Rejected reason)
                       /\ conn (cached w) = None)
  /\ (forall h, conn (cached w) = Some h ->
                exists c, nth_error (calls w) c = Some (Returned h)).
Proof.
  intros Hrun.
  pose proof (run_consistent _ _ _ initial_consistent Hrun)
    as [Hn [Hp [Ha Hc]]].
  pose proof (run_settledCalls _ _ _ initial_consistent initial_settledCalls
                Hrun) as [Hr Ht].
  split; [|split].
  - intros c h H. apply nth_error_In, Hr in H. split; [now apply Hc|exact H].
  - intros c reason H. apply nth_error_In, Ht in H. split; [exact H|].
    destruct (conn (cached w)) as [h|] eqn:E; [|reflexivity].
    specialize (Hc h eq_refl). congruence.
  - intros h H. apply Hr in H. now apply In_nth_error in H.
Qed.

Lemma one_promise (w : World) (s : PromiseState) :
  consistent w -> nth_error (promises w) 0 = Some s ->
  promises w = [s] /\ promise (cached w) = Some 0%nat
  /\ connectCalls w = 1%nat.
Proof.
  intros [Hn [Hp _]] Hs.
  destruct (promise (cached w)) as [p|].
  - destruct Hp as [-> Hlen]. rewrite Hn, Hlen.
    destruct (promises w) as [|s' [|s'' l]]; try discriminate.
    cbn in Hs. injection Hs as ->. auto.
  - destruct Hp as [Hp _]. rewrite Hp in Hs. discriminate.
Qed.

Lemma step_keeps_outcome (w w1 : World) (t : Turn) (s : PromiseState) :
  consistent w -> nth_error (promises w) 0 = Some s -> s <> Pending ->
  step w t = Some w1 -> promises w1 = promises w.
Proof.
  intros Hinv Hs Hne Hstep.
  destruct (one_promise _ _ Hinv Hs) as [Hps [Hp _]].
  destruct t as [|p outcome|c]; simpl in Hstep.
  - rewrite call_result, Hp in Hstep. injection Hstep as <-.
    now destruct (conn (cached w)).
  - unfold settle in Hstep. rewrite Hps in Hstep.
    destruct p as [|[|p]]; cbn in Hstep; try discriminate.
    destruct s; [congruence|discriminate..].
  - unfold resume in Hstep.
    destruct (nth_error (calls w) c) as [[q|h|r]|]; try discriminate.
    destruct (nth_error (promises w) q) as [[|h|r]|]; try discriminate;
      now injection Hstep as <-.
Qed.

Lemma run_keeps_outcome (ts : list Turn) (w w1 : World) (s : PromiseState) :
  consistent w -> nth_error (promises w) 0 = Some s -> s <> Pending ->
  run w ts = Some w1 -> promises w1 = promises w.
Proof.
  revert w. induction ts as [|t ts IH]; intros w Hinv Hs Hne Hrun;
    simpl in Hrun.
  - now injection Hrun as <-.
  - destruct (step w t) as [w2|] eqn:E; [|discriminate].
    pose proof (step_keeps_outcome _ _ _ _ Hinv Hs Hne E) as Hp.
    rewrite <- Hp. apply IH; try assumption.
    + exact (step_consistent _ _ _ Hinv E).
    + now rewrite Hp.
Qed.

(** X16.  In every state the calls of [connectToDatabase] can reach from
    the start, [getMongooseConnection] returns null exactly when no call
    has returned yet: a fulfilled attempt alone does not set the cache,
    the continuation of a call does.  Once a call has returned a Mongoose
    instance, [getMongooseConnection] returns the connection of that
    instance, which is the one the attempt was fulfilled with. *)
Theorem getMongooseConnection_after_return
    (Connection : Type) (connection : Handle -> Connection)
    (ts : list Turn) (w : World) :
  run initial ts = Some w ->
  (getMongooseConnection Connection connection w = None
   <-> forall c h, nth_error (calls w) c <> Some (Returned h))
  /\ (forall c h,
        nth_error (calls w) c = Some (Returned h) ->
        getMongooseConnection Connection connection w = Some (connection h))
  /\ (forall x,
        getMongooseConnection Connection connection w = Some x ->
        exists h c,
          x = connection h
          /\ nth_error (promises w) 0 = Some (Fulfilled h)
          /\ nth_error (calls w) c = Some (Returned h)).
Proof.
  intros Hrun.
  destruct (reachable_calls _ _ Hrun) as [Hr [_ Hc]].
  unfold getMongooseConnection. split; [|split].
  - split.
    + intros H c h Hcall. destruct (Hr c h Hcall) as [_ E].
      rewrite E in H. discriminate.
    + intros H. destruct (conn (cached w)) as [h|] eqn:E; [|reflexivity].
      destruct (Hc h eq_refl) as [c Hcall]. now destruct (H c h).
  - intros c h Hcall. destruct (Hr c h Hcall) as [_ E]. now rewrite E.
  - intros x H. destruct (conn (cached w)) as [h|] eqn:E; [|discriminate].
    injection H as <-. destruct (Hc h eq_refl) as [c Hcall].
    exists h, c. split; [reflexivity|]. split; [|exact Hcall].
    now destruct (Hr c h Hcall).
Qed.

Lemma getMongooseConnection_after_return_witness :
  exists w,
    run initial [Call; Settle 0%nat (Fulfilled 5%nat); Resume 0%nat] = Some w
    /\ getMongooseConnection nat (fun h => (h + 100)%nat) w = Some 105%nat.
Proof.
  eexists. split; [reflexivity|].
  exact (proj1 (proj2 (getMongooseConnection_after_return nat
                         (fun h => (h + 100)%nat)
                         [Call; Settle 0%nat (Fulfilled 5%nat); Resume 0%nat]
                         _ eq_refl)) 0%nat 5%nat eq_refl).
Defined.

(** X17.  In every state the calls can reach from the start, the calls end
    as the one attempt does: a call that has returned, returned what the
    first promise was fulfilled with, and the cache holds it; a call that
    has thrown, threw the reason the first promise was rejected with, and
    the cache holds no connection.  So all the calls that return, return
    the same instance, all that throw, throw the same reason, and no run
    has a call that returns and one that throws.  While the attempt is
    pending, every call made so far waits for it. *)
Theorem connectToDatabase_outcomes (ts : list Turn) (w : World) :
  run initial ts = Some w ->
  (forall c h,
     nth_error (calls w) c = Some (Returned h) ->
     nth_error (promises w) 0 = Some (Fulfilled h)
     /\ conn (cached w) = Some h)
  /\ (forall c reason,
        nth_error (calls w) c = Some (Threw reason) ->
        nth_error (promises w) 0 = Some (Rejected reason)
        /\ conn (cached w) = None)
  /\ (forall c1 c2 h1 h2,
        nth_error (calls w) c1 = Some (Returned h1) ->
        nth_error (calls w) c2 = Some (Returned h2) -> h1 = h2)
  /\ (forall c1 c2 r1 r2,
        nth_error (calls w) c1 = Some (Threw r1) ->
        nth_error (calls w) c2 = Some (Threw r2) -> r1 = r2)
  /\ (forall c1 c2 h reason,
        nth_error (calls w) c1 = Some (Returned h) ->
        nth_error (calls w) c2 <> Some (Threw reason))
  /\ (nth_error (promises w) 0 = Some Pending ->
      forall c, (c < length (calls w))%nat ->
                nth_error (calls w) c = Some (Awaiting 0%nat)).
Proof.
  intros Hrun.
  destruct (reachable_calls _ _ Hrun) as [Hr [Ht _]].
  pose proof (run_consistent _ _ _ initial_consistent Hrun)
    as [_ [Hp [Ha _]]].
  split; [exact Hr|]. split; [exact Ht|]. split; [|split; [|split]].
  - intros c1 c2 h1 h2 H1 H2.
    destruct (Hr _ _ H1) as [E1 _]. destruct (Hr _ _ H2) as [E2 _]. congruence.
  - intros c1 c2 r1 r2 H1 H2.
    destruct (Ht _ _ H1) as [E1 _]. destruct (Ht _ _ H2) as [E2 _]. congruence.
  - intros c1 c2 h reason H1 H2.
    destruct (Hr _ _ H1) as [E1 _]. destruct (Ht _ _ H2) as [E2 _]. congruence.
  - intros Hpend c Hlt.
    destruct (nth_error (calls w) c) as [[p|h|r]|] eqn:E.
    + specialize (Ha c p E). rewrite Ha in Hp. now destruct Hp as [-> _].
    + destruct (Hr _ _ E). congruence.
    + destruct (Ht _ _ E). congruence.
    + apply nth_error_None in E. lia.
Qed.

Lemma connectToDatabase_outcomes_witness :
  exists w,
    run initial [Call; Call; Settle 0%nat (Fulfilled 5%nat); Resume 1%nat;
                 Resume 0%nat; Call] = Some w
    /\ calls w = [Returned 5%nat; Returned 5%nat; Returned 5%nat]
    /\ nth_error (promises w) 0 = Some (Fulfilled 5%nat)
    /\ conn (cached w) = Some 5%nat.
Proof.
  eexists. split; [reflexivity|]. split; [reflexivity|].
  exact (proj1 (connectToDatabase_outcomes
                  [Call; Call; Settle 0%nat (Fulfilled 5%nat); Resume 1%nat;
                   Resume 0%nat; Call] _ eq_refl) 2%nat 5%nat eq_refl).
Defined.

(** X18.  The attempt settles once and for all.  From a state where the
    first promise is settled, whatever happens next, the promises are
    that one promise with the same outcome and [mongoose.connect] has
    been called once.  After a rejection the cache never holds a
    connection, no call ever returns, every call that throws, throws the
    reason of the rejection, and one more call followed by its
    continuation throws it again without a new attempt.  After a
    fulfilment no call throws and every call that returns, returns the
    instance of the fulfilment. *)
Theorem attempt_settles_once (ts ts' : list Turn) (w w' : World)
    (s : PromiseState) :
  run initial ts = Some w ->
  nth_error (promises w) 0 = Some s -> s <> Pending ->
  run w ts' = Some w' ->
  promises w' = [s] /\ connectCalls w' = 1%nat
  /\ (forall reason,
        s = Rejected reason ->
        conn (cached w') = None
        /\ (forall c h, nth_error (calls w') c <> Some (Returned h))
        /\ (forall c r, nth_error (calls w') c = Some (Threw r) -> r = reason)
        /\ exists w1 w2,
             step w' Call = Some w1
             /\ step w1 (Resume (length (calls w'))) = Some w2
             /\ nth_error (calls w2) (length (calls w'))
                = Some (Threw reason)
             /\ connectCalls w2 = 1%nat)
  /\ (forall h,
        s = Fulfilled h ->
        (forall c r, nth_error (calls w') c <> Some (Threw r))
        /\ (forall c h', nth_error (calls w') c = Some (Returned h') -> h' = h)).
Proof.
  intros Hrun Hs Hne Hrun'.
  pose proof (run_consistent _ _ _ initial_consistent Hrun) as Hinv.
  pose proof (run_keeps_outcome _ _ _ _ Hinv Hs Hne Hrun') as Hkeep.
  assert (Hall : run initial (ts ++ ts') = Some w')
    by (now rewrite (run_app _ _ _ _ Hrun)).
  pose proof (run_consistent _ _ _ initial_consistent Hall) as Hinv'.
  destruct (reachable_calls _ _ Hall) as [Hr [Ht _]].
  assert (Hs' : nth_error (promises w') 0 = Some s) by now rewrite Hkeep.
  destruct (one_promise _ _ Hinv' Hs') as [Hps [Hp Hcc]].
  split; [exact Hps|]. split; [exact Hcc|]. split.
  - intros reason ->.
    assert (Hconn : conn (cached w') = None).
    { destruct (conn (cached w')) as [h|] eqn:E; [|reflexivity].
      destruct Hinv' as [_ [_ [_ Hc]]]. specialize (Hc h E). congruence. }
    split; [exact Hconn|]. split; [|split].
    + intros c h H. destruct (Hr _ _ H). congruence.
    + intros c r H. destruct (Ht _ _ H). congruence.
    + eexists. eexists. split; [|split; [|split]].
      * cbn [step]. rewrite call_result, Hconn, Hp. reflexivity.
      * cbn [step]. unfold resume. cbn [calls promises cached].
        rewrite nth_error_app2, Nat.sub_diag by apply Nat.le_refl.
        rewrite Hps. reflexivity.
      * cbn [calls].
        apply (nth_error_update_same _ _ _ (Awaiting 0%nat)).
        rewrite nth_error_app2, Nat.sub_diag by apply Nat.le_refl.
        reflexivity.
      * exact Hcc.
  - intros h ->. split.
    + intros c r H. destruct (Ht _ _ H). congruence.
    + intros c h' H. destruct (Hr _ _ H). congruence.
Qed.

Lemma attempt_settles_once_witness :
  exists w',
    run initial [Call; Settle 0%nat (Rejected "ECONNREFUSED"); Resume 0%nat;
                 Call; Call] = Some w'
    /\ promises w' = [Rejected "ECONNREFUSED"]
    /\ connectCalls w' = 1%nat.
Proof.
  eexists. split; [reflexivity|].
  pose proof (attempt_settles_once
                [Call; Settle 0%nat (Rejected "ECONNREFUSED")]
                [Resume 0%nat; Call; Call] _ _ (Rejected "ECONNREFUSED")
                eq_refl eq_refl ltac:(discriminate) eq_refl) as H.
  exact (conj (proj1 H) (proj1 (proj2 H))).
Defined.
